(** * The S3-FIFO shard and the local-file store of the cache, in Rocq

    A shallow embedding of the eviction engine (package multicache:
    entries, the two intrusive queues, the ghost ring, death row, [get],
    [setWithHash], [delete], [flush] and the two eviction loops) and of
    the local-file store's [ValidateKey] and [Get] (package localfs).

    Entries live in a heap indexed by addresses, because the queues are
    intrusive: [prev] and [next] are fields of the entry, and the map,
    the queues and death row all alias the same object. *)

From Stdlib Require Import ZArith NArith Lia List String Ascii.
From stdpp Require Import base option list gmap strings.

Local Open Scope Z_scope.

(** ** Outcomes

    A Go call either returns, or panics (a nil or dangling dereference,
    an index out of range).  The loops of the source are embedded with a
    step budget; [OutOfFuel] says the budget was too small and is never
    the behaviour of the program. *)

Inductive res (A : Type) : Type :=
  | Ok (a : A)
  | Panic
  | OutOfFuel.
Arguments Ok {A} a.
Arguments Panic {A}.
Arguments OutOfFuel {A}.

#[global] Instance res_ret : MRet res := @Ok.
#[global] Instance res_bind : MBind res := fun A B f m =>
  match m with
  | Ok a => f a
  | Panic => Panic
  | OutOfFuel => OutOfFuel
  end.
#[global] Instance res_fmap : FMap res := fun A B f m =>
  match m with
  | Ok a => Ok (f a)
  | Panic => Panic
  | OutOfFuel => OutOfFuel
  end.

(** ** Machine integers *)

(** Go's [int] and [int64] on the 64-bit targets: two's complement. *)
Definition int64 (z : Z) : Z := (z + 2 ^ 63) mod 2 ^ 64 - 2 ^ 63.

(** [atomic.Uint32] arithmetic. *)
Definition uint32 (n : N) : N := (n mod 2 ^ 32)%N.

(** [uint8] arithmetic, for the ghost ring's position. *)
Definition uint8 (n : N) : N := (n mod 2 ^ 8)%N.

(** maxFreq caps the frequency counter. *)
Definition maxFreq : N := 7.

(** An address of an entry; [None] is the nil pointer. *)
Abbreviation ptr := nat.

(** The bloom filter of the ghost queue.  Its implementation is not part
    of the engine; the shard uses exactly this interface. *)
Class BloomFilter (B : Type) := {
  newBloomFilter : Z -> B;
  Contains : B -> N -> bool;
  Add : B -> N -> B;
  Reset : B -> B;
  bf_entries : B -> Z;
}.

Section S3FIFO.

Context {K : Type} `{Countable K} {V : Type}.
Context {B : Type} `{BloomFilter B}.

(** The zero value of [V], returned on a miss. *)
Variable zeroV : V.
(** [s.hasher]. *)
Variable hasher : K -> N.

(** ** Entries *)

(** entry is a cached key-value pair with eviction metadata. *)
Record entry : Type := Entry {
  key : K;
  value : V;
  prev : option ptr;
  next : option ptr;
  hash : N;
  expiryNano : Z;
  freq : N;
  peakFreq : N;
  inSmall : bool;
  onDeathRow : bool;
}.

Definition set_value (v : V) (e : entry) : entry :=
  Entry (key e) v (prev e) (next e) (hash e) (expiryNano e)
        (freq e) (peakFreq e) (inSmall e) (onDeathRow e).
Definition set_prev (p : option ptr) (e : entry) : entry :=
  Entry (key e) (value e) p (next e) (hash e) (expiryNano e)
        (freq e) (peakFreq e) (inSmall e) (onDeathRow e).
Definition set_next (p : option ptr) (e : entry) : entry :=
  Entry (key e) (value e) (prev e) p (hash e) (expiryNano e)
        (freq e) (peakFreq e) (inSmall e) (onDeathRow e).
Definition set_hash (h : N) (e : entry) : entry :=
  Entry (key e) (value e) (prev e) (next e) h (expiryNano e)
        (freq e) (peakFreq e) (inSmall e) (onDeathRow e).
Definition set_expiryNano (x : Z) (e : entry) : entry :=
  Entry (key e) (value e) (prev e) (next e) (hash e) x
        (freq e) (peakFreq e) (inSmall e) (onDeathRow e).
Definition set_freq (f : N) (e : entry) : entry :=
  Entry (key e) (value e) (prev e) (next e) (hash e) (expiryNano e)
        f (peakFreq e) (inSmall e) (onDeathRow e).
Definition set_peakFreq (f : N) (e : entry) : entry :=
  Entry (key e) (value e) (prev e) (next e) (hash e) (expiryNano e)
        (freq e) f (inSmall e) (onDeathRow e).
Definition set_inSmall (b : bool) (e : entry) : entry :=
  Entry (key e) (value e) (prev e) (next e) (hash e) (expiryNano e)
        (freq e) (peakFreq e) b (onDeathRow e).
Definition set_onDeathRow (b : bool) (e : entry) : entry :=
  Entry (key e) (value e) (prev e) (next e) (hash e) (expiryNano e)
        (freq e) (peakFreq e) (inSmall e) b.

(** The memory holding the entries: address [p] is position [p]. *)
#[local] Abbreviation heap := (list entry).

(** Reading through a pointer. *)
Definition deref (h : heap) (p : ptr) : res entry :=
  match h !! p with
  | Some e => Ok e
  | None => Panic
  end.

(** Writing a field through a pointer: [p.field = ...]. *)
Definition modify (p : ptr) (f : entry -> entry) (h : heap) : res heap :=
  e ← deref h p; Ok (<[p := f e]> h).

(** The hit accounting shared by [get] and [setWithHash]:
    [if ent.freq.Load() < maxFreq { if newFreq := ent.freq.Add(1);
    newFreq > ent.peakFreq.Load() { ent.peakFreq.Store(newFreq) } }]. *)
Definition bump (e : entry) : entry :=
  if (freq e <? maxFreq)%N then
    let newFreq := uint32 (freq e + 1) in
    let e1 := set_freq newFreq e in
    if (peakFreq e1 <? newFreq)%N then set_peakFreq newFreq e1 else e1
  else e.

(** ** Intrusive lists *)

(** entryList is an intrusive doubly-linked list. Zero value is valid. *)
Record entryList : Type := EntryList {
  lhead : option ptr;
  ltail : option ptr;
  llen : Z;
}.

Definition emptyList : entryList := EntryList None None 0.

(** [l.pushBack(e)]. *)
Definition pushBack (l : entryList) (p : ptr) (h : heap)
    : res (entryList * heap) :=
  h ← modify p (set_prev (ltail l)) h;
  h ← modify p (set_next None) h;
  '(l, h) ← match ltail l with
            | Some t => h ← modify t (set_next (Some p)) h; Ok (l, h)
            | None => Ok (EntryList (Some p) (ltail l) (llen l), h)
            end;
  Ok (EntryList (lhead l) (Some p) (int64 (llen l + 1)), h).

(** [l.remove(e)]. *)
Definition remove (l : entryList) (p : ptr) (h : heap)
    : res (entryList * heap) :=
  e ← deref h p;
  '(l, h) ← match prev e with
            | Some pp => h ← modify pp (set_next (next e)) h; Ok (l, h)
            | None => Ok (EntryList (next e) (ltail l) (llen l), h)
            end;
  e ← deref h p;
  '(l, h) ← match next e with
            | Some pn => h ← modify pn (set_prev (prev e)) h; Ok (l, h)
            | None => Ok (EntryList (lhead l) (prev e) (llen l), h)
            end;
  h ← modify p (set_prev None) h;
  h ← modify p (set_next None) h;
  Ok (EntryList (lhead l) (ltail l) (int64 (llen l - 1)), h).

(** ** The ghost frequency ring *)

(** ghostFreqRing is a fixed-size ring buffer for ghost frequency
    tracking: 256 entries, the position is a [uint8]. *)
Record ghostFreqRing : Type := GhostFreqRing {
  hashes : list N;
  freqs : list N;
  pos : N;
}.

Definition emptyRing : ghostFreqRing :=
  GhostFreqRing (replicate 256 0%N) (replicate 256 0%N) 0%N.

(** [r.add(h, freq)]. *)
Definition ring_add (r : ghostFreqRing) (h : N) (f : N) : ghostFreqRing :=
  GhostFreqRing (<[N.to_nat (pos r) := h]> (hashes r))
                (<[N.to_nat (pos r) := f]> (freqs r))
                (uint8 (pos r + 1)).

(** The scan of [r.lookup(h)]: the first slot whose hash is [h]. *)
Fixpoint ring_scan (hs fs : list N) (h : N) : option N :=
  match hs, fs with
  | x :: hs', f :: fs' => if (x =? h)%N then Some f else ring_scan hs' fs' h
  | _, _ => None
  end.

Definition ring_lookup (r : ghostFreqRing) (h : N) : option N :=
  ring_scan (hashes r) (freqs r) h.

(** ** The shard *)

(** shard is one partition of the cache.  [totalEntries] and
    [pcapacity] are [s.parent.totalEntries] and [s.parent.capacity]:
    the counter and the capacity of the cache the shard belongs to. *)
Record shard : Type := Shard {
  mem : heap;
  entries : gmap K ptr;
  small : entryList;
  main : entryList;
  ghostActive : B;
  ghostAging : B;
  ghostFreqRng : ghostFreqRing;
  ghostCap : Z;
  deathRow : list (option ptr);
  deathRowPos : Z;
  capacity : Z;
  smallThresh : Z;
  warmupComplete : bool;
  totalEntries : Z;
  pcapacity : Z;
}.

Definition set_mem (h : heap) (s : shard) : shard :=
  Shard h (entries s) (small s) (main s) (ghostActive s) (ghostAging s)
        (ghostFreqRng s) (ghostCap s) (deathRow s) (deathRowPos s)
        (capacity s) (smallThresh s) (warmupComplete s) (totalEntries s)
        (pcapacity s).
Definition set_entries (m : gmap K ptr) (s : shard) : shard :=
  Shard (mem s) m (small s) (main s) (ghostActive s) (ghostAging s)
        (ghostFreqRng s) (ghostCap s) (deathRow s) (deathRowPos s)
        (capacity s) (smallThresh s) (warmupComplete s) (totalEntries s)
        (pcapacity s).
Definition set_small (l : entryList) (s : shard) : shard :=
  Shard (mem s) (entries s) l (main s) (ghostActive s) (ghostAging s)
        (ghostFreqRng s) (ghostCap s) (deathRow s) (deathRowPos s)
        (capacity s) (smallThresh s) (warmupComplete s) (totalEntries s)
        (pcapacity s).
Definition set_main (l : entryList) (s : shard) : shard :=
  Shard (mem s) (entries s) (small s) l (ghostActive s) (ghostAging s)
        (ghostFreqRng s) (ghostCap s) (deathRow s) (deathRowPos s)
        (capacity s) (smallThresh s) (warmupComplete s) (totalEntries s)
        (pcapacity s).
Definition set_ghost (a g : B) (r : ghostFreqRing) (s : shard) : shard :=
  Shard (mem s) (entries s) (small s) (main s) a g
        r (ghostCap s) (deathRow s) (deathRowPos s)
        (capacity s) (smallThresh s) (warmupComplete s) (totalEntries s)
        (pcapacity s).
Definition set_deathRow (d : list (option ptr)) (i : Z) (s : shard) : shard :=
  Shard (mem s) (entries s) (small s) (main s) (ghostActive s) (ghostAging s)
        (ghostFreqRng s) (ghostCap s) d i
        (capacity s) (smallThresh s) (warmupComplete s) (totalEntries s)
        (pcapacity s).
Definition set_warmupComplete (b : bool) (s : shard) : shard :=
  Shard (mem s) (entries s) (small s) (main s) (ghostActive s) (ghostAging s)
        (ghostFreqRng s) (ghostCap s) (deathRow s) (deathRowPos s)
        (capacity s) (smallThresh s) b (totalEntries s)
        (pcapacity s).
Definition set_totalEntries (n : Z) (s : shard) : shard :=
  Shard (mem s) (entries s) (small s) (main s) (ghostActive s) (ghostAging s)
        (ghostFreqRng s) (ghostCap s) (deathRow s) (deathRowPos s)
        (capacity s) (smallThresh s) (warmupComplete s) n
        (pcapacity s).

(** The shard that [newS3FIFO] builds for a per-shard capacity [scap],
    in a cache of capacity [size]. *)
Definition newShard (scap size : Z) : shard :=
  Shard [] ∅ emptyList emptyList
        (newBloomFilter scap) (newBloomFilter scap) emptyRing scap
        (replicate 8 None) 0
        scap (Z.quot (int64 (scap * 247)) 1000) false 0 size.

(** [bits.Len(uint(n))], for the [n] of [newS3FIFO] (at most 2048). *)
Definition bitsLen (n : Z) : Z := if n <=? 0 then 0 else Z.log2 n + 1.

(** The number of shards [newS3FIFO] chooses, for [GOMAXPROCS] [procs]. *)
Definition numShards (procs size : Z) : Z :=
  let size := if size <=? 0 then 16384 else size in
  let n := Z.min (Z.min (Z.max (int64 (procs * 16)) (Z.quot size 256))
                        (Z.max 1 (Z.quot size 1024))) 2048 in
  Z.shiftl 1 (bitsLen n - 1).

(** The per-shard capacity [scap := (size + n - 1) / n]. *)
Definition shardCap (procs size : Z) : Z :=
  let n := numShards procs size in
  let size := if size <=? 0 then 16384 else size in
  Z.quot (int64 (int64 (size + n) - 1)) n.

(** [s.deathRow[i]], with Go's bounds check. *)
Definition slot (d : list (option ptr)) (i : Z) : res (option ptr) :=
  if (i <? 0) then Panic
  else match d !! Z.to_nat i with
       | Some x => Ok x
       | None => Panic
       end.

(** addToGhost records an evicted key for future admission decisions. *)
Definition addToGhost (h : N) (peak : N) (s : shard) : shard :=
  let s :=
    if negb (Contains (ghostActive s) h) then
      let a := Add (ghostActive s) h in
      let r := if (2 <=? peak)%N then ring_add (ghostFreqRng s) h peak
               else ghostFreqRng s in
      set_ghost a (ghostAging s) r s
    else s in
  if ghostCap s <=? bf_entries (ghostActive s) then
    set_ghost (Reset (ghostAging s)) (ghostActive s) (ghostFreqRng s) s
  else s.

(** sendToDeathRow puts an entry on death row for potential
    resurrection.  If death row is full, the oldest pending entry is
    truly evicted. *)
Definition sendToDeathRow (p : ptr) (s : shard) : res shard :=
  old ← slot (deathRow s) (deathRowPos s);
  s ← match old with
      | Some o =>
          eo ← deref (mem s) o;
          let s := set_entries (delete (key eo) (entries s)) s in
          let s := addToGhost (hash eo) (peakFreq eo) s in
          h ← modify o (set_onDeathRow false) (mem s);
          Ok (set_mem h s)
      | None => Ok s
      end;
  h ← modify p (set_onDeathRow true) (mem s);
  let s := set_mem h s in
  let s := set_deathRow (<[Z.to_nat (deathRowPos s) := Some p]> (deathRow s))
                        (Z.rem (int64 (deathRowPos s + 1)) 8) s in
  Ok (set_totalEntries (int64 (totalEntries s - 1)) s).

(** [e := l.head; e.freq.Load()]: a nil head panics. *)
Definition headEntry (l : entryList) (h : heap) : res (ptr * entry) :=
  match lhead l with
  | Some p => e ← deref h p; Ok (p, e)
  | None => Panic
  end.

(** evictFromMain evicts cold entries (freq==0) or gives warm ones a
    second chance; once-hot items (peakFreq >= 4) are demoted to the
    small queue with freq=1 instead of being evicted. *)
Fixpoint evictFromMain (fuel : nat) (s : shard) : res shard :=
  match fuel with
  | O => OutOfFuel
  | S n =>
      if 0 <? llen (main s) then
        '(p, e) ← headEntry (main s) (mem s);
        let f := freq e in
        if (f =? 0)%N then
          '(l, h) ← remove (main s) p (mem s);
          let s := set_main l (set_mem h s) in
          e ← deref (mem s) p;
          if (4 <=? peakFreq e)%N then
            h ← modify p (set_freq 1) (mem s);
            h ← modify p (set_inSmall true) h;
            '(l, h) ← pushBack (small s) p h;
            Ok (set_small l (set_mem h s))
          else sendToDeathRow p s
        else
          '(l, h) ← remove (main s) p (mem s);
          h ← modify p (set_freq (uint32 (f - 1))) h;
          '(l, h) ← pushBack l p h;
          evictFromMain n (set_main l (set_mem h s))
      else Ok s
  end.

(** evictFromSmall evicts cold entries (freq<2) or promotes warm ones to
    main. *)
Fixpoint evictFromSmall (fuel : nat) (s : shard) : res shard :=
  match fuel with
  | O => OutOfFuel
  | S n =>
      let mcap := Z.quot (int64 (capacity s * 9)) 10 in
      if 0 <? llen (small s) then
        '(p, e) ← headEntry (small s) (mem s);
        let f := freq e in
        if (f <? 2)%N then
          '(l, h) ← remove (small s) p (mem s);
          sendToDeathRow p (set_small l (set_mem h s))
        else
          '(l, h) ← remove (small s) p (mem s);
          let s := set_small l s in
          h ← modify p (set_freq 0) h;
          h ← modify p (set_inSmall false) h;
          '(l, h) ← pushBack (main s) p h;
          let s := set_main l (set_mem h s) in
          s ← (if mcap <? llen (main s) then evictFromMain n s else Ok s);
          evictFromSmall n s
      else Ok s
  end.

(** [evictFromSmall] as the specification words it: after a promotion
    that takes Main over 90% of the capacity, [evictFromMain] is
    triggered and the procedure stops.  To be compared with
    [evictFromSmall]. *)
Fixpoint evictFromSmall_spec (fuel : nat) (s : shard) : res shard :=
  match fuel with
  | O => OutOfFuel
  | S n =>
      let mcap := Z.quot (int64 (capacity s * 9)) 10 in
      if 0 <? llen (small s) then
        '(p, e) ← headEntry (small s) (mem s);
        let f := freq e in
        if (f <? 2)%N then
          '(l, h) ← remove (small s) p (mem s);
          sendToDeathRow p (set_small l (set_mem h s))
        else
          '(l, h) ← remove (small s) p (mem s);
          let s := set_small l s in
          h ← modify p (set_freq 0) h;
          h ← modify p (set_inSmall false) h;
          '(l, h) ← pushBack (main s) p h;
          let s := set_main l (set_mem h s) in
          if mcap <? llen (main s) then evictFromMain n s
          else evictFromSmall_spec n s
      else Ok s
  end.

(** The death-row scan of [resurrectFromDeathRow]: the first slot that
    holds [p] is set to nil. *)
Fixpoint clearSlot (p : ptr) (d : list (option ptr)) : list (option ptr) :=
  match d with
  | [] => []
  | x :: d' => if decide (x = Some p) then None :: d' else x :: clearSlot p d'
  end.

(** resurrectFromDeathRow brings an entry back from pending eviction.
    Resurrected items go to main queue with freq=3. *)
Definition resurrectFromDeathRow (k : K) (s : shard) : res (shard * (V * bool)) :=
  match entries s !! k with
  | None => Ok (s, (zeroV, false))
  | Some p =>
      e ← deref (mem s) p;
      if negb (onDeathRow e) then Ok (s, (zeroV, true))
      else
        let s := set_deathRow (clearSlot p (deathRow s)) (deathRowPos s) s in
        h ← modify p (set_onDeathRow false) (mem s);
        h ← modify p (set_inSmall false) h;
        h ← modify p (set_freq 3) h;
        h ← modify p (set_peakFreq 3) h;
        '(l, h) ← pushBack (main s) p h;
        let s := set_main l (set_mem h s) in
        let s := set_totalEntries (int64 (totalEntries s + 1)) s in
        e ← deref (mem s) p;
        Ok (s, (value e, true))
  end.

(** [s.get(key)], at wall-clock time [now] ([time.Now().UnixNano()]). *)
Definition get (k : K) (now : Z) (s : shard) : res (shard * (V * bool)) :=
  match entries s !! k with
  | None => Ok (s, (zeroV, false))
  | Some p =>
      e ← deref (mem s) p;
      if onDeathRow e then resurrectFromDeathRow k s
      else if negb (expiryNano e =? 0) && (expiryNano e <? now)
      then Ok (s, (zeroV, false))
      else
        h ← modify p bump (mem s);
        Ok (set_mem h s, (value e, true))
  end.

(** setWithHash adds or updates a value. hash=0 means compute when
    needed. *)
Definition setWithHash (fuel : nat) (k : K) (v : V) (exp : Z) (hsh : N)
    (s : shard) : res shard :=
  match entries s !! k with
  | Some p =>
      h ← modify p (set_value v) (mem s);
      h ← modify p (set_expiryNano exp) h;
      h ← modify p bump h;
      Ok (set_mem h s)
  | None =>
      let p := length (mem s) in
      let ent := Entry k v None None 0%N exp 0%N 0%N false false in
      let h := if (hsh =? 0)%N then hasher k else hsh in
      let s := set_mem (mem s ++ [set_hash h ent]) s in
      let full := pcapacity s <=? totalEntries s in
      if negb (warmupComplete s) && negb full then
        hp ← modify p (set_inSmall true) (mem s);
        '(l, hp) ← pushBack (small s) p hp;
        let s := set_small l (set_mem hp s) in
        let s := set_entries (<[k := p]> (entries s)) s in
        Ok (set_totalEntries (int64 (totalEntries s + 1)) s)
      else
        let s := set_warmupComplete true s in
        s ← (if full then
               let inGhost := Contains (ghostActive s) h
                              || Contains (ghostAging s) h in
               hp ← modify p (set_inSmall (negb inGhost)) (mem s);
               hp ← (if inGhost then
                       match ring_lookup (ghostFreqRng s) h with
                       | Some peak =>
                           hp ← modify p (set_freq peak) hp;
                           modify p (set_peakFreq peak) hp
                       | None => Ok hp
                       end
                     else Ok hp);
               let s := set_mem hp s in
               if (0 <? llen (main s)) && (llen (small s) <=? smallThresh s)
               then evictFromMain fuel s
               else if 0 <? llen (small s) then evictFromSmall fuel s
               else Ok s
             else
               hp ← modify p (set_inSmall true) (mem s);
               Ok (set_mem hp s));
        e ← deref (mem s) p;
        '(q, hp) ← (if inSmall e
                    then '(l, hp) ← pushBack (small s) p (mem s);
                         Ok (set_small l s, hp)
                    else '(l, hp) ← pushBack (main s) p (mem s);
                         Ok (set_main l s, hp));
        let s := set_mem hp q in
        let s := set_entries (<[k := p]> (entries s)) s in
        Ok (set_totalEntries (int64 (totalEntries s + 1)) s)
  end.

(** [s.delete(key)]. *)
Definition delete_key (k : K) (s : shard) : res shard :=
  match entries s !! k with
  | None => Ok s
  | Some p =>
      e ← deref (mem s) p;
      s ← (if inSmall e
           then '(l, h) ← remove (small s) p (mem s);
                Ok (set_small l (set_mem h s))
           else '(l, h) ← remove (main s) p (mem s);
                Ok (set_main l (set_mem h s)));
      let s := set_entries (delete k (entries s)) s in
      Ok (set_totalEntries (int64 (totalEntries s - 1)) s)
  end.

(** [s.flush()]: the shard emptied, and the number of keys it held. *)
Definition flush (s : shard) : shard * Z :=
  let n := Z.of_nat (size (entries s)) in
  let s := set_entries ∅ s in
  let s := set_small emptyList (set_main emptyList s) in
  let s := set_ghost (Reset (ghostActive s)) (Reset (ghostAging s)) emptyRing s in
  (set_deathRow (replicate 8 None) 0 s, n).

(** [c.flush()] of a cache with this one shard: the shard is flushed and
    the cache's counter is stored as 0. *)
Definition cache_flush (s : shard) : shard * Z :=
  let '(s, n) := flush s in (set_totalEntries 0 s, n).

(** ** Operations of a shard, and runs *)

Inductive op : Type :=
  | OpSet (k : K) (v : V) (exp : Z) (hsh : N)
  | OpGet (k : K) (now : Z)
  | OpDelete (k : K)
  | OpFlush.

Definition step (fuel : nat) (o : op) (s : shard) : res shard :=
  match o with
  | OpSet k v exp hsh => setWithHash fuel k v exp hsh s
  | OpGet k now => '(s, _) ← get k now s; Ok s
  | OpDelete k => delete_key k s
  | OpFlush => Ok (cache_flush s).1
  end.

Fixpoint run (fuel : nat) (ops : list op) (s : shard) : res shard :=
  match ops with
  | [] => Ok s
  | o :: ops' => s ← step fuel o s; run fuel ops' s
  end.

(** ** What the queues hold *)

(** The entry without its links. *)
Definition strip (e : entry) : entry := set_prev None (set_next None e).

(** [chain h pv q]: the entries at the addresses [q] are linked to one
    another in this order, the first one having [pv] before it and the
    last one nothing after it. *)
Fixpoint chain (h : heap) (pv : option ptr) (q : list ptr) : Prop :=
  match q with
  | [] => True
  | p :: r =>
      ∃ e, h !! p = Some e ∧ prev e = pv ∧ next e = head r
           ∧ chain h (Some p) r
  end.

(** The list [l] holds exactly the entries [q], oldest first. *)
Definition dll (h : heap) (l : entryList) (q : list ptr) : Prop :=
  chain h None q ∧ lhead l = head q ∧ ltail l = last q
  ∧ llen l = Z.of_nat (length q) ∧ NoDup q.

(** Small holds [sq] and Main holds [mq], and no entry is in both. *)
Definition queues (s : shard) (sq mq : list ptr) : Prop :=
  dll (mem s) (small s) sq ∧ dll (mem s) (main s) mq
  ∧ (∀ x, x ∈ sq → x ∉ mq).

(** The memory cannot hold [2^63 - 1] entries. *)
Definition mem_bound (s : shard) : Prop :=
  Z.of_nat (length (mem s)) < 2 ^ 63 - 1.

(** Between [s] and [s'] only the memory and the two queues changed; in
    the memory, the entry at [p] now carries the fields of [e'] and
    every other entry its old fields, links apart. *)
Definition moved (s s' : shard) (p : ptr) (e' : entry) : Prop :=
  set_mem [] (set_small emptyList (set_main emptyList s'))
  = set_mem [] (set_small emptyList (set_main emptyList s))
  ∧ length (mem s') = length (mem s)
  ∧ (∃ e1, mem s' !! p = Some e1 ∧ strip e1 = strip e')
  ∧ (∀ x e, x ≠ p → mem s !! x = Some e →
       ∃ e1, mem s' !! x = Some e1 ∧ strip e1 = strip e).

(** The ghost queue of a shard: the two filters and the ring. *)
Definition ghost (s : shard) : B * B * ghostFreqRing :=
  (ghostActive s, ghostAging s, ghostFreqRng s).

(** [s'] is [s] after the entry at [p], whose fields are those of [e],
    was sent to death row, into the slot at [deathRowPos s], which held
    [old]: the slot holds [p], the position moved on by one (modulo 8),
    the counter went down by one, and the entry has [onDeathRow] set.
    An entry [o] that held the slot is truly evicted: its key left the
    map, [addToGhost] recorded its hash and peak frequency, and its
    [onDeathRow] is cleared.  Nothing else changed, links apart. *)
Definition condemned (s s' : shard) (p : ptr) (e : entry)
    (old : option ptr) : Prop :=
  deathRow s' = <[Z.to_nat (deathRowPos s) := Some p]> (deathRow s)
  ∧ deathRowPos s' = Z.rem (int64 (deathRowPos s + 1)) 8
  ∧ totalEntries s' = int64 (totalEntries s - 1)
  ∧ (∃ e1, mem s' !! p = Some e1 ∧ strip e1 = strip (set_onDeathRow true e))
  ∧ match old with
    | None => entries s' = entries s ∧ ghost s' = ghost s
    | Some o =>
        ∃ eo, mem s !! o = Some eo
          ∧ entries s' = delete (key eo) (entries s)
          ∧ ghost s' = ghost (addToGhost (hash eo) (peakFreq eo) s)
          ∧ (o ≠ p → ∃ e1, mem s' !! o = Some e1
                       ∧ strip e1 = strip (set_onDeathRow false eo))
    end
  ∧ length (mem s') = length (mem s)
  ∧ (∀ x ex, x ≠ p → Some x ≠ old → mem s !! x = Some ex →
       ∃ e1, mem s' !! x = Some e1 ∧ strip e1 = strip ex)
  ∧ ghostCap s' = ghostCap s ∧ capacity s' = capacity s
  ∧ smallThresh s' = smallThresh s ∧ warmupComplete s' = warmupComplete s
  ∧ pcapacity s' = pcapacity s.

(** Between [h] and [h'] no entry was added or dropped, and entries
    changed in their links at most. *)
Definition relinked (h h' : heap) : Prop :=
  length h' = length h
  ∧ ∀ x e, h !! x = Some e → ∃ e1, h' !! x = Some e1 ∧ strip e1 = strip e.

(** [f] changes an entry the same way whatever its links. *)
Definition strip_congr (f : entry → entry) : Prop :=
  ∀ a b, strip a = strip b → strip (f a) = strip (f b).

(** Between [h] and [h'] the entry at [p] got the fields [f] gives it and
    the other entries kept theirs, links apart. *)
Definition retagged (f : entry → entry) (p : ptr) (h h' : heap) : Prop :=
  length h' = length h
  ∧ (∀ e, h !! p = Some e → ∃ e1, h' !! p = Some e1 ∧ strip e1 = strip (f e))
  ∧ (∀ x e, x ≠ p → h !! x = Some e →
       ∃ e1, h' !! x = Some e1 ∧ strip e1 = strip e).

(** Storing into a field that is not a counter. *)
Definition keeps_counters (f : entry → entry) : Prop :=
  ∀ e, freq (f e) = freq e ∧ peakFreq (f e) = peakFreq e.

(** The addresses reached from [p] by following [next], at most [fuel]
    of them. *)
Fixpoint walk (fuel : nat) (h : heap) (p : option ptr) : list ptr :=
  match fuel, p with
  | S n, Some x =>
      x :: match h !! x with
           | Some e => walk n h (next e)
           | None => []
           end
  | _, _ => []
  end.

(** The entries linked into a list: those reached from its head. *)
Definition linked (h : heap) (l : entryList) : list ptr :=
  walk (length h) h (lhead l).

(** The number of live entries: those in Small or in Main. *)
Definition liveCount (s : shard) : Z :=
  Z.of_nat (length (linked (mem s) (small s))
            + length (linked (mem s) (main s))).

(** The three places an entry of the map can be. *)
Definition inSmallQ (s : shard) (p : ptr) : bool :=
  bool_decide (p ∈ linked (mem s) (small s)).
Definition inMainQ (s : shard) (p : ptr) : bool :=
  bool_decide (p ∈ linked (mem s) (main s)).
Definition inDeathRow (s : shard) (p : ptr) : bool :=
  bool_decide (Some p ∈ deathRow s).

(** The entry at [p] is in exactly one of Small, Main and death row. *)
Definition oneHome (s : shard) (p : ptr) : bool :=
  match inSmallQ s p, inMainQ s p, inDeathRow s p with
  | true, false, false | false, true, false | false, false, true => true
  | _, _, _ => false
  end.

(** Every key of the map has its entry in exactly one place. *)
Definition homes_inv (s : shard) : Prop :=
  ∀ k p, entries s !! k = Some p → oneHome s p = true.

(** [chain], [dll] and [queues] as checks that run. *)
Fixpoint chainb (h : heap) (pv : option ptr) (q : list ptr) : bool :=
  match q with
  | [] => true
  | p :: r =>
      match h !! p with
      | Some e =>
          bool_decide (prev e = pv) && bool_decide (next e = head r)
          && chainb h (Some p) r
      | None => false
      end
  end.

Definition dllb (h : heap) (l : entryList) (q : list ptr) : bool :=
  chainb h None q && bool_decide (lhead l = head q)
  && bool_decide (ltail l = last q)
  && bool_decide (llen l = Z.of_nat (length q)) && bool_decide (NoDup q).

Definition queuesb (s : shard) (sq mq : list ptr) : bool :=
  dllb (mem s) (small s) sq && dllb (mem s) (main s) mq
  && bool_decide (Forall (λ x, x ∉ mq) sq).

(** The bounds on the counters of an entry. *)
Definition entry_ok (e : entry) : Prop :=
  (freq e <= peakFreq e)%N ∧ (peakFreq e <= maxFreq)%N.

(** Every entry in memory, and every frequency remembered by the ghost
    ring, is within the bounds. *)
Definition freq_inv (s : shard) : Prop :=
  Forall entry_ok (mem s)
  ∧ Forall (λ f, (f <= maxFreq)%N) (freqs (ghostFreqRng s)).

(** The sum of the frequency counters in memory: what the eviction loops
    consume. *)
Definition heat (h : heap) : nat :=
  foldr (λ e n, (N.to_nat (freq e) + n)%nat) 0%nat h.

End S3FIFO.

(** ** String keys: the hasher of the cache *)

(** wyhash constants. *)
Definition wyp0 : N := 0xa0761d6478bd642f.
Definition wyp1 : N := 0xe7037ed1a0b428db.

(** The bytes of a string. *)
Definition bytes_of (s : string) : list N :=
  map N_of_ascii (list_ascii_of_string s).

(** A little-endian load of the bytes [bs]. *)
Fixpoint le_load (bs : list N) : N :=
  match bs with
  | [] => 0
  | b :: bs' => (b + 256 * le_load bs')%N
  end.

(** The byte at offset [i]; the source reads inside the string only. *)
Definition byte_at (bs : list N) (i : nat) : N := default 0%N (bs !! i).

(** wyhashString hashes a string using wyhash. *)
Definition wyhashString (s : string) : N :=
  let bs := bytes_of s in
  let n := length bs in
  if decide (n = 0)%nat then 0%N
  else
    let '(a, b) :=
      if decide (n <= 8)%nat then
        if decide (4 <= n)%nat then
          (le_load (take 4 bs), le_load (take 4 (drop (n - 4) bs)))
        else
          (N.lor (N.lor (N.shiftl (byte_at bs 0) 16)
                        (N.shiftl (byte_at bs (Nat.div2 n)) 8))
                 (byte_at bs (n - 1)), 0%N)
      else (le_load (take 8 bs), le_load (take 8 (drop (n - 8) bs))) in
    let x := N.lxor a wyp0 in
    let y := N.lxor (N.lxor b (N.of_nat n)) wyp1 in
    let hi := ((x * y) / 2 ^ 64)%N in
    let lo := ((x * y) mod 2 ^ 64)%N in
    N.lxor hi lo.

(** ** A ghost filter for running the engine

    A filter that remembers exactly the hashes added since its last
    reset.  A bloom filter answers the same whenever it has no false
    positive; in particular an empty one contains nothing. *)
#[global] Instance exactFilter : BloomFilter (list N) := {
  newBloomFilter := fun _ => [];
  Contains := fun b h => bool_decide (h ∈ b);
  Add := fun b h => h :: b;
  Reset := fun _ => [];
  bf_entries := fun b => Z.of_nat (length b);
}.


(** ** Runs of a cache of string keys

    A cache of capacity [size < 1024] has one shard, of capacity [size]
    (see [numShards_small]); its keys are hashed by [wyhashString]. *)

Abbreviation cache := (shard (K:=string) (V:=Z) (B:=list N)).

(** [c.set(k, v, exp)], as an operation of a run. *)
Definition cset (k : string) (v : Z) (exp : Z) : op (K:=string) (V:=Z) :=
  OpSet k v exp (wyhashString k).

(** [c.get(k)] at time [now], as an operation of a run. *)
Definition cget (k : string) (now : Z) : op (K:=string) (V:=Z) := OpGet k now.

(** A run of a cache whose values are integers. *)
Definition crun (ops : list (op (K:=string) (V:=Z))) (s : cache) : res cache :=
  run 0 wyhashString (7 * (length (mem s) + length ops) + 8) ops s.

(** A new cache of capacity 1, and of capacity 2. *)
Definition cache1 : cache := newShard 1 1.
Definition cache2 : cache := newShard 2 2.

(** Key "a" is set with an expiry at 100ns, then key "b": the cache is
    full, and the entry of "a" goes to death row. *)
Definition ops_evicted : list (op (K:=string) (V:=Z)) :=
  [cset "a" 11 100; cset "b" 22 0].

(** Key "a" is set and read four times: its entry is hot, in Small. *)
Definition ops_hot : list (op (K:=string) (V:=Z)) :=
  [cset "a" 11 0; cget "a" 0; cget "a" 0; cget "a" 0; cget "a" 0].

(** In a cache of capacity 2: "a" is read twice, so the set of "c"
    promotes it to Main and sends "b" to death row. *)
Definition ops_promoted : list (op (K:=string) (V:=Z)) :=
  [cset "a" 11 0; cget "a" 0; cget "a" 0; cset "b" 22 0; cset "c" 33 0].

(** In a cache of capacity 2: the entry of "a" is on death row when "a"
    is deleted; "d" is then set and read twice, and "e" is set. *)
Definition ops_delete_panic : list (op (K:=string) (V:=Z)) :=
  [cset "a" 1 0; cset "b" 2 0; cset "c" 3 0; OpDelete "a";
   cset "d" 4 0; cget "d" 0; cget "d" 0; cset "e" 5 0].

(** In a cache of capacity 10: ten keys fill it, "k1" is read four
    times and "k2" to "k9" twice, then "k11" and "k12" are set. *)
Definition ops_demoted : list (op (K:=string) (V:=Z)) :=
  let keys := ["k1"; "k2"; "k3"; "k4"; "k5"; "k6"; "k7"; "k8"; "k9"] in
  map (λ k, cset k 1 0) (keys ++ ["k10"])
  ++ replicate 4 (cget "k1" 0)
  ++ flat_map (λ k, [cget k 0; cget k 0]) (drop 1 keys)
  ++ [cset "k11" 1 0; cset "k12" 1 0].

Definition cache10 : cache := newShard 10 10.

(** In a cache of capacity 1: nine keys are set one after the other, so
    "k1" to "k8" fill death row and "k9" is in Small. *)
Definition ops_row_full : list (op (K:=string) (V:=Z)) :=
  map (λ k, cset k 1 0)
      ["k1"; "k2"; "k3"; "k4"; "k5"; "k6"; "k7"; "k8"; "k9"].

(** The entry of key "k9" after that run. *)
Definition entry_k9 : entry (K:=string) (V:=Z) :=
  Entry "k9" 1 None None (wyhashString "k9") 0 0 0 true false.

(** The entry of key "a" in the runs above: at address 0, with the
    given expiry, counters and flags, and linked to nothing. *)
Definition entry_a (exp : Z) (f pk : N) (ins row : bool)
    : entry (K:=string) (V:=Z) :=
  Entry "a" 11 None None (wyhashString "a") exp f pk ins row.

(** The state after a run, for runs that return. *)
Definition after (ops : list (op (K:=string) (V:=Z))) (s : cache) : cache :=
  match crun ops s with
  | Ok s' => s'
  | _ => s
  end.

(** ** The local-file store *)

Module LocalFS.

(** *** Key validation *)

Definition maxKeyLength : nat := 127.

Inductive keyError : Type :=
  | KeyTooLong (n : nat)
  | InvalidCharacter (ch : N).

(** Go's decoding of a string into runes, which [for _, ch := range s]
    performs: [utf8.DecodeRuneInString]. *)
Definition RuneError : N := 0xFFFD.

(** The table [first] of unicode/utf8 for a leading byte above ASCII:
    the size of the sequence and the range accepted for its second
    byte; [None] for an invalid leading byte. *)
Definition first (s0 : N) : option (nat * N * N) :=
  if (s0 <? 0xC2)%N then None
  else if (s0 <? 0xE0)%N then Some (2%nat, 0x80%N, 0xBF%N)
  else if (s0 =? 0xE0)%N then Some (3%nat, 0xA0%N, 0xBF%N)
  else if (s0 <? 0xED)%N then Some (3%nat, 0x80%N, 0xBF%N)
  else if (s0 =? 0xED)%N then Some (3%nat, 0x80%N, 0x9F%N)
  else if (s0 <? 0xF0)%N then Some (3%nat, 0x80%N, 0xBF%N)
  else if (s0 =? 0xF0)%N then Some (4%nat, 0x90%N, 0xBF%N)
  else if (s0 <? 0xF4)%N then Some (4%nat, 0x80%N, 0xBF%N)
  else if (s0 =? 0xF4)%N then Some (4%nat, 0x80%N, 0x8F%N)
  else None.

(** A continuation byte. *)
Definition cont (b : N) : bool := (0x80 <=? b)%N && (b <=? 0xBF)%N.

(** The leading bits of a rune of [sz] bytes, from its first two. *)
Definition lead (sz : nat) (s0 s1 : N) : N :=
  match sz with
  | 2%nat => N.lor (N.shiftl (N.land s0 0x1F) 6) (N.land s1 0x3F)
  | 3%nat => N.lor (N.shiftl (N.land s0 0x0F) 12) (N.shiftl (N.land s1 0x3F) 6)
  | _ => N.lor (N.shiftl (N.land s0 0x07) 18) (N.shiftl (N.land s1 0x3F) 12)
  end.

(** The first rune of [bs] and the number of bytes it takes. *)
Definition decodeRune (bs : list N) : N * nat :=
  match bs with
  | [] => (RuneError, 0%nat)
  | s0 :: rest =>
      if (s0 <? 0x80)%N then (s0, 1%nat)
      else
        match first s0 with
        | None => (RuneError, 1%nat)
        | Some (sz, lo, hi) =>
            if (length bs <? sz)%nat then (RuneError, 1%nat)
            else
              match rest with
              | [] => (RuneError, 1%nat)
              | s1 :: rest =>
                  if (s1 <? lo)%N || (hi <? s1)%N then (RuneError, 1%nat)
                  else if (sz <=? 2)%nat then (lead 2 s0 s1, 2%nat)
                  else
                    match rest with
                    | [] => (RuneError, 1%nat)
                    | s2 :: rest =>
                        if negb (cont s2) then (RuneError, 1%nat)
                        else if (sz <=? 3)%nat
                        then (N.lor (lead 3 s0 s1) (N.land s2 0x3F), 3%nat)
                        else
                          match rest with
                          | [] => (RuneError, 1%nat)
                          | s3 :: _ =>
                              if negb (cont s3) then (RuneError, 1%nat)
                              else (N.lor (N.lor (lead 4 s0 s1)
                                             (N.shiftl (N.land s2 0x3F) 6))
                                          (N.land s3 0x3F), 4%nat)
                          end
                    end
              end
        end
  end.

(** The test of [ValidateKey] on a rune: true when the rune is none of
    a-z, A-Z, 0-9, dash, underscore, period and colon. *)
Definition invalid (ch : N) : bool :=
  ((ch <? 97) || (122 <? ch))%N && ((ch <? 65) || (90 <? ch))%N
  && ((ch <? 48) || (57 <? ch))%N
  && negb (ch =? 45)%N && negb (ch =? 95)%N && negb (ch =? 46)%N
  && negb (ch =? 58)%N.

(** The loop [for _, ch := range s]: [skip] counts the bytes still to
    pass of the rune decoded last. *)
Fixpoint scan (skip : nat) (bs : list N) : option keyError :=
  match bs with
  | [] => None
  | _ :: rest =>
      match skip with
      | S k => scan k rest
      | O =>
          let '(ch, size) := decodeRune bs in
          if invalid ch then Some (InvalidCharacter ch)
          else scan (size - 1) rest
      end
  end.

(** ValidateKey checks if a key is valid for file persistence; [s] is
    the textual form [fmt.Sprintf("%v", key)] of the key, and [None] is
    the nil error. *)
Definition ValidateKey (s : string) : option keyError :=
  let n := String.length s in
  if (maxKeyLength <? n)%nat then Some (KeyTooLong n)
  else scan 0 (bytes_of s).

(** The characters the specification lets a key consist of: A-Z, a-z,
    0-9, '-', '_', '.', ':'. *)
Definition allowedByte (b : N) : Prop :=
  (65 <= b <= 90 ∨ 97 <= b <= 122 ∨ 48 <= b <= 57
   ∨ b = 45 ∨ b = 95 ∨ b = 46 ∨ b = 58)%N.

(** The keys the specification accepts. *)
Definition specValid (s : string) : Prop :=
  s ≠ EmptyString ∧ (String.length s ≤ 127)%nat
  ∧ Forall allowedByte (bytes_of s).

(** The numbers below [n], to check a property of bytes by running it. *)
Definition below (n : nat) : list N := map N.of_nat (seq 0 n).

(** A rune decoded from a sequence that starts above ASCII is above
    ASCII: the check, on the first two bytes. *)
Definition lead_high (s0 s1 : N) : bool :=
  match first s0 with
  | None => true
  | Some (sz, lo, hi) =>
      (s1 <? lo)%N || (hi <? s1)%N || (128 <=? lead sz s0 s1)%N
  end.

(** *** Reading a record *)

(** The errors of the os package that [Get] tells apart. *)
Inductive oserror : Type :=
  | ErrNotExist
  | ErrPermission
  | ErrIO.

Definition IsNotExist (e : oserror) : bool :=
  match e with
  | ErrNotExist => true
  | _ => false
  end.

(** Go errors: of the os, of the gob decoder, wrapped by
    [fmt.Errorf("...: %w", err)], joined by [errors.Join]. *)
#[warnings="-register-all"] Inductive error : Type :=
  | OsError (e : oserror)
  | DecodeError
  | Wrap (msg : string) (e : error)
  | Joined (es : list error).

(** [errors.Join(errs...)]: nil when every error is nil. *)
Definition errors_Join (es : list (option error)) : option error :=
  match omap id es with
  | [] => None
  | l => Some (Joined l)
  end.

(** The file system, as [Get] uses it: [os.Open] followed by the reads
    of the decoder, [f.Close], [os.Remove]. *)
Class FileSystem (FS : Type) := {
  fs_open : FS → string → oserror + list N;
  fs_close : FS → string → option oserror;
  fs_remove : FS → string → FS * option oserror;
}.

(** A file system of plain files: a file is there or not, closing
    succeeds, and removing fails only on a file that is not there. *)
#[global] Instance plainFiles : FileSystem (gmap string (list N)) := {
  fs_open := λ fs fn,
    match fs !! fn with
    | Some bytes => inr bytes
    | None => inl ErrNotExist
    end;
  fs_close := λ _ _, None;
  fs_remove := λ fs fn,
    match fs !! fn with
    | Some _ => (delete fn fs, None)
    | None => (fs, Some ErrNotExist)
    end;
}.

Section Store.

Context {K V : Type} {FS : Type} `{FileSystem FS}.

(** Entry represents a cache entry with its metadata for serialization.
    An instant is in nanoseconds since Go's zero [time.Time]. *)
Record Entry : Type := MkEntry {
  Key : K;
  Value : V;
  Expiry : Z;
  UpdatedAt : Z;
}.

(** The zero value of [V]. *)
Variable zeroV : V.
(** [filepath.Join(s.Dir, s.keyToFilename(key))]. *)
Variable Location : K → string.
(** [gob.NewDecoder(r).Decode(&e)] on the content of a file; [None] is a
    decode error. *)
Variable decode : list N → option Entry.

(** The results of [Get]: value, expiry, found, err. *)
Record result : Type := Result {
  r_value : V;
  r_expiry : Z;
  r_found : bool;
  r_err : option error;
}.

Definition miss (err : option error) : result := Result zeroV 0 false err.

(** Get retrieves a value from a file, at time [now]. *)
Definition Get (now : Z) (key : K) (fs : FS) : FS * result :=
  let fn := Location key in
  match fs_open fs fn with
  | inl err =>
      if IsNotExist err then (fs, miss None)
      else (fs, miss (Some (Wrap "open file" (OsError err))))
  | inr bytes =>
      let dec := decode bytes in
      let closeErr := fs_close fs fn in
      match dec with
      | None =>
          let '(fs, rmErr) := fs_remove fs fn in
          (fs, miss (errors_Join [Some (Wrap "decode file" DecodeError);
                                  OsError <$> closeErr;
                                  OsError <$> rmErr]))
      | Some e =>
          match closeErr with
          | Some ce => (fs, miss (Some (Wrap "close file" (OsError ce))))
          | None =>
              if negb (Expiry e =? 0) && (Expiry e <? now) then
                let '(fs, rmErr) := fs_remove fs fn in
                match rmErr with
                | Some re =>
                    if negb (IsNotExist re)
                    then (fs, miss (Some (Wrap "remove expired file"
                                            (OsError re))))
                    else (fs, miss None)
                | None => (fs, miss None)
                end
              else (fs, Result (Value e) (Expiry e) true None)
          end
      end
  end.

(** The call is a plain miss: not found, and no error. *)
Definition plain_miss (r : result) : Prop :=
  r_found r = false ∧ r_err r = None.

End Store.

(** A store of integer values on plain files, whose decoder takes a
    record of two bytes, a value and an expiry, and nothing else. *)
Definition toyDecode (bs : list N) : option (Entry (K:=string) (V:=Z)) :=
  match bs with
  | [v; x] => Some (MkEntry "k" (Z.of_N v) (Z.of_N x) 0)
  | _ => None
  end.

Definition toyLocation (k : string) : string := String.append "/cache/" k.

(** A disk whose record for "k" is one stray byte. *)
Definition badDisk : gmap string (list N) := {[ "/cache/k" := [7%N] ]}.

End LocalFS.

(** ** Routing to a shard *)

(** [c.shardMask = uint64(n - 1)], for a cache of [n] shards. *)
Definition shardMask (n : Z) : N := Z.to_N ((n - 1) mod 2 ^ 64).

(** shardIdx returns the shard index for a hash value. *)
Definition shardIdx (mask : N) (h : N) : Z := int64 (Z.of_N (N.land h mask)).

(** The size [newS3FIFO] works with: 16384 when none is configured. *)
Definition effectiveSize (size : Z) : Z := if size <=? 0 then 16384 else size.

(** The ghost ring as [newS3FIFO] and [flush] leave it, and as [add]
    keeps it: 256 slots, the position inside. *)
Definition ring_ok (r : ghostFreqRing) : Prop :=
  length (hashes r) = 256%nat ∧ length (freqs r) = 256%nat
  ∧ (pos r < 256)%N.

(** ** The structure of a shard *)

(** [m] does not panic, and what it returns satisfies [P]. *)
Definition safely {A : Type} (m : res A) (P : A → Prop) : Prop :=
  match m with
  | Ok a => P a
  | Panic => False
  | OutOfFuel => True
  end.

Section Structure.

Context {K : Type} `{Countable K} {V : Type}.
Context {B : Type} `{BloomFilter B}.

(** The entries on death row. *)
Definition onRow (s : shard (K:=K) (V:=V) (B:=B)) : list ptr :=
  omap id (deathRow s).

(** The entries the shard holds: in Small, in Main, on death row, and
    in [ex], the entries an operation has unlinked and not yet placed. *)
Definition homes (s : shard (K:=K) (V:=V) (B:=B)) (sq mq ex : list ptr)
    : list ptr :=
  sq ++ mq ++ onRow s ++ ex.

(** The structure of a shard: the queues are well-formed lists, death
    row has its eight slots, no entry is held twice, the flags say where
    an entry is, the map holds exactly the entries held, under their
    keys, and the counter counts the entries that are not on death
    row. *)
Record shard_inv (s : shard (K:=K) (V:=V) (B:=B)) (sq mq ex : list ptr)
    : Prop := ShardInv {
  inv_queues : queues s sq mq;
  inv_row_len : length (deathRow s) = 8%nat;
  inv_row_pos : 0 <= deathRowPos s < 8;
  inv_nodup : NoDup (homes s sq mq ex);
  inv_valid : ∀ p, p ∈ homes s sq mq ex → is_Some (mem s !! p);
  inv_small : ∀ p e, p ∈ sq → mem s !! p = Some e →
                inSmall e = true ∧ onDeathRow e = false;
  inv_main : ∀ p e, p ∈ mq → mem s !! p = Some e →
               inSmall e = false ∧ onDeathRow e = false;
  inv_row : ∀ p e, p ∈ onRow s → mem s !! p = Some e → onDeathRow e = true;
  inv_map : ∀ k p, entries s !! k = Some p
              ↔ p ∈ homes s sq mq ex ∧ ∃ e, mem s !! p = Some e ∧ key e = k;
  inv_total : totalEntries s = Z.of_nat (length sq + length mq + length ex);
}.

End Structure.

Section Evolution.

Context {K : Type} `{Countable K} {V : Type}.
Context {B : Type} `{BloomFilter B}.

(** From [s] to [s'] the memory kept its size, the entries outside [X]
    kept their fields, links apart, and no key appeared in the map. *)
Definition within (X : list ptr) (s s' : shard (K:=K) (V:=V) (B:=B)) : Prop :=
  length (mem s') = length (mem s)
  ∧ (∀ x e, x ∉ X → mem s !! x = Some e →
       ∃ e', mem s' !! x = Some e' ∧ strip e' = strip e)
  ∧ (∀ k, entries s !! k = None → entries s' !! k = None).

(** [s'] has the structure of a shard, holds no entry that [s] did not
    hold, and left everything else in memory as it was. *)
Definition evolves (s : shard (K:=K) (V:=V) (B:=B)) (sq mq ex : list ptr)
    (s' : shard (K:=K) (V:=V) (B:=B)) (sq' mq' ex' : list ptr) : Prop :=
  shard_inv s' sq' mq' ex'
  ∧ within (homes s sq mq ex) s s'
  ∧ (∀ x, x ∈ homes s' sq' mq' ex' → x ∈ homes s sq mq ex).

(** The entry at [p] has been made for the key [k], with the value [v]
    and the expiry [exp], and is not yet part of the shard. *)
Definition pending (k : K) (v : V) (exp : Z) (p : ptr)
    (s : shard (K:=K) (V:=V) (B:=B)) : Prop :=
  ∃ sq mq e,
    shard_inv s sq mq [] ∧ (p ∉ homes s sq mq [])
    ∧ mem s !! p = Some e ∧ key e = k ∧ value e = v ∧ expiryNano e = exp
    ∧ onDeathRow e = false ∧ entries s !! k = None.

(** The shard has its structure, with nothing unlinked. *)
Definition wf (s : shard (K:=K) (V:=V) (B:=B)) : Prop :=
  ∃ sq mq, shard_inv s sq mq [].

(** The map has the key [k], and its entry carries the value [v] and the
    expiry [exp]. *)
Definition bound_to (k : K) (v : V) (exp : Z)
    (s : shard (K:=K) (V:=V) (B:=B)) : Prop :=
  ∃ p e, entries s !! k = Some p ∧ mem s !! p = Some e
         ∧ value e = v ∧ expiryNano e = exp.

(** The key [k] is in the map and its entry is on death row. *)
Definition doomed (s : shard (K:=K) (V:=V) (B:=B)) (k : K) : bool :=
  match entries s !! k with
  | Some p =>
      match mem s !! p with
      | Some e => onDeathRow e
      | None => false
      end
  | None => false
  end.

(** The operation is not the deletion of a key whose entry is on death
    row. *)
Definition spares (o : op (K:=K) (V:=V))
    (s : shard (K:=K) (V:=V) (B:=B)) : bool :=
  match o with
  | OpDelete k => negb (doomed s k)
  | _ => true
  end.

(** [s.entries.Size()], the shard's part of [len]. *)
Definition entriesSize (s : shard (K:=K) (V:=V) (B:=B)) : Z :=
  Z.of_nat (size (entries s)).

End Evolution.

Section Runs.

Context {K : Type} `{Countable K} {V : Type}.
Context {B : Type} `{BloomFilter B}.
Variable zeroV : V.
Variable hasher : K → N.

(** No operation of the run deletes a key whose entry is on death row
    at that point. *)
Fixpoint tame (fuel : nat) (ops : list (op (K:=K) (V:=V)))
    (s : shard (K:=K) (V:=V) (B:=B)) : bool :=
  match ops with
  | [] => true
  | o :: ops' =>
      spares o s
      && match step zeroV hasher fuel o s with
         | Ok s' => tame fuel ops' s'
         | _ => true
         end
  end.

End Runs.

(** ** The local-file store: writing *)

Module LocalFSWrite.
Import LocalFS.

(** The file system, as [Set] uses it besides [f.Close] and [os.Remove]:
    [os.MkdirAll], [os.Create], the writes of the gob encoder and of
    [w.Flush] into the file created ([None] when both returned nil), and
    [os.Rename].  [E] is the type of the records. *)
Class FileSystemW (FS E : Type) := {
  fs_mkdirAll : FS → string → FS * option oserror;
  fs_create : FS → string → FS * option oserror;
  fs_encode : FS → string → E → FS * option error;
  fs_rename : FS → string → string → FS * option oserror;
}.

(** Plain files written with the encoder [enc]: directories need no
    making, creating a file empties it, encoding stores the bytes, and a
    rename moves a file that is there over its target. *)
Definition plainWrites {E : Type} (enc : E → list N)
    : FileSystemW (gmap string (list N)) E := {|
  fs_mkdirAll := λ fs _, (fs, None);
  fs_create := λ fs fn, (<[fn := []]> fs, None);
  fs_encode := λ fs fn e, (<[fn := enc e]> fs, None);
  fs_rename := λ fs old new,
    match fs !! old with
    | Some bytes => (<[new := bytes]> (delete old fs), None)
    | None => (fs, Some ErrNotExist)
    end;
|}.

(** A full disk: as [plainWrites], but the writes of the encoder fail
    and leave the file as it is. *)
Definition fullDisk {E : Type} : FileSystemW (gmap string (list N)) E := {|
  fs_mkdirAll := λ fs _, (fs, None);
  fs_create := λ fs fn, (<[fn := []]> fs, None);
  fs_encode := λ fs _ _, (fs, Some (OsError ErrIO));
  fs_rename := λ fs old new,
    match fs !! old with
    | Some bytes => (<[new := bytes]> (delete old fs), None)
    | None => (fs, Some ErrNotExist)
    end;
|}.

Section Store.

Context {K V : Type} {FS : Type} {fsr : FileSystem FS}.
Context {fsw : FileSystemW FS (Entry (K:=K) (V:=V))}.

(** [filepath.Join(s.Dir, s.keyToFilename(key))]. *)
Variable Location : K → string.
(** [filepath.Dir]. *)
Variable Dir : string → string.

(** The subdirectory of [Set] is made, unless [s.subdirsMade] has it;
    [made] is the set of the directories that map holds. *)
Definition ensureDir (made : gset string) (dir : string) (fs : FS)
    : gset string * FS * option oserror :=
  if decide (dir ∈ made) then (made, fs, None)
  else
    let '(fs, err) := fs_mkdirAll fs dir in
    match err with
    | Some e => (made, fs, Some e)
    | None => ({[dir]} ∪ made, fs, None)
    end.

(** Set saves a value to a file, at time [now]. *)
Definition Store_Set (made : gset string) (now : Z) (key : K) (value : V)
    (expiry : Z) (fs : FS) : gset string * FS * option error :=
  let fn := Location key in
  let dir := Dir fn in
  let '(made, fs, err) := ensureDir made dir fs in
  match err with
  | Some e => (made, fs, Some (Wrap "create subdirectory" (OsError e)))
  | None =>
      let e := MkEntry key value expiry now in
      let tmp := String.append fn ".tmp" in
      let '(fs, err) := fs_create fs tmp in
      match err with
      | Some ce => (made, fs, Some (Wrap "create temp file" (OsError ce)))
      | None =>
          let '(fs, encErr) := fs_encode fs tmp e in
          let closeErr := fs_close fs tmp in
          match encErr with
          | Some ee =>
              let '(fs, rmErr) := fs_remove fs tmp in
              (made, fs, errors_Join [Some (Wrap "encode entry" ee);
                                      OsError <$> rmErr])
          | None =>
              match closeErr with
              | Some ce =>
                  let '(fs, rmErr) := fs_remove fs tmp in
                  (made, fs,
                   errors_Join [Some (Wrap "close temp file" (OsError ce));
                                OsError <$> rmErr])
              | None =>
                  let '(fs, err) := fs_rename fs tmp fn in
                  match err with
                  | Some re =>
                      let '(fs, rmErr) := fs_remove fs tmp in
                      (made, fs,
                       errors_Join [Some (Wrap "rename file" (OsError re));
                                    OsError <$> rmErr])
                  | None => (made, fs, None)
                  end
              end
          end
      end
  end.

(** Delete removes a file. *)
Definition Delete (key : K) (fs : FS) : FS * option error :=
  let '(fs, err) := fs_remove fs (Location key) in
  match err with
  | Some e =>
      if negb (IsNotExist e) then (fs, Some (Wrap "remove file" (OsError e)))
      else (fs, None)
  | None => (fs, None)
  end.

End Store.

(** The encoder of the toy store: the value and the expiry, a byte
    each. *)
Definition toyEncode (e : Entry (K:=string) (V:=Z)) : list N :=
  [Z.to_N (Value e); Z.to_N (Expiry e)].

End LocalFSWrite.

(** Three keys are set in a cache of capacity 10. *)
Definition ops_three : list (op (K:=string) (V:=Z)) :=
  [cset "a" 1 0; cset "b" 2 0; cset "c" 3 0].

(** * Proofs *)

Lemma int64_small z : - 2 ^ 63 <= z < 2 ^ 63 -> int64 z = z.
Proof.
  intros Hz. unfold int64.
  rewrite Z.mod_small by lia. lia.
Qed.

Lemma uint32_le n : (uint32 n <= n)%N.
Proof. unfold uint32. apply N.Div0.mod_le. Qed.

Lemma uint32_small n : (n < 2 ^ 32)%N -> uint32 n = n.
Proof. intros Hn. unfold uint32. by apply N.mod_small. Qed.

Lemma bind_Ok {A C} (m : res A) (f : A → res C) (c : C) :
  m ≫= f = Ok c ↔ ∃ a, m = Ok a ∧ f a = Ok c.
Proof.
  destruct m as [a| |]; simpl; split.
  - intros Hf. by exists a.
  - by intros (a' & [= <-] & Hf).
  - discriminate.
  - by intros (? & ? & ?).
  - discriminate.
  - by intros (? & ? & ?).
Qed.

Lemma res_bind_Ok {A C} (a : A) (f : A → res C) : Ok a ≫= f = f a.
Proof. done. Qed.

(** Splits a hypothesis [m ≫= f = Ok c] into the two calls. *)
Tactic Notation "bind_inv" hyp(Hb) "as" simple_intropattern(a) ident(Ha) :=
  apply bind_Ok in Hb; destruct Hb as (a & Ha & Hb).

Section Memory.

Context {K : Type} `{Countable K} {V : Type}.
Implicit Types (h : list (entry (K:=K) (V:=V))) (e : entry (K:=K) (V:=V)).

Lemma deref_Ok h p e : deref h p = Ok e ↔ h !! p = Some e.
Proof.
  unfold deref. destruct (h !! p); split; intros Hd; by inversion Hd.
Qed.

Lemma modify_Ok p f h h' :
  modify p f h = Ok h' ↔ ∃ e, h !! p = Some e ∧ h' = <[p := f e]> h.
Proof.
  unfold modify. rewrite bind_Ok. split.
  - intros (e & He%deref_Ok & [= <-]). eauto.
  - intros (e & He & ->). exists e. by rewrite deref_Ok.
Qed.

Lemma modify_length p f h h' : modify p f h = Ok h' → length h' = length h.
Proof. intros (e & _ & ->)%modify_Ok. apply length_insert. Qed.

Lemma modify_lookup p f h h' e :
  modify p f h = Ok h' → h !! p = Some e → h' !! p = Some (f e).
Proof.
  intros (e' & He' & ->)%modify_Ok He. simplify_eq.
  apply list_lookup_insert_eq. by eapply lookup_lt_Some.
Qed.

Lemma modify_lookup_ne p f h h' x :
  modify p f h = Ok h' → x ≠ p → h' !! x = h !! x.
Proof.
  intros (e' & He' & ->)%modify_Ok Hx. by apply list_lookup_insert_ne.
Qed.

Lemma modify_valid p f h e : h !! p = Some e → modify p f h = Ok (<[p := f e]> h).
Proof. intros He. apply modify_Ok. eauto. Qed.

Lemma relinked_refl h : relinked h h.
Proof. split; eauto. Qed.

Lemma relinked_trans h1 h2 h3 : relinked h1 h2 → relinked h2 h3 → relinked h1 h3.
Proof.
  intros [Hl1 H1] [Hl2 H2]. split; [congruence|].
  intros x e He. destruct (H1 x e He) as (e1 & He1 & Hs1).
  destruct (H2 x e1 He1) as (e2 & He2 & Hs2).
  exists e2. split; [done|]. congruence.
Qed.

(** A store into a link field. *)
Lemma modify_relinked p f h h' :
  (∀ e, strip (f e) = strip e) → modify p f h = Ok h' → relinked h h'.
Proof.
  intros Hf (e & He & ->)%modify_Ok. split; [apply length_insert|].
  intros x e' He'. destruct (decide (x = p)) as [->|Hne].
  - assert (e' = e) as -> by congruence.
    exists (f e). split; [|apply Hf].
    apply list_lookup_insert_eq. by eapply lookup_lt_Some.
  - exists e'. by rewrite list_lookup_insert_ne.
Qed.

Lemma strip_set_prev x e : strip (set_prev x e) = strip e.
Proof. done. Qed.
Lemma strip_set_next x e : strip (set_next x e) = strip e.
Proof. done. Qed.

Lemma pushBack_relinked l p h l' h' :
  pushBack l p h = Ok (l', h') → relinked h h'.
Proof.
  unfold pushBack. intros Hp.
  bind_inv Hp as h1 H1. bind_inv Hp as h2 H2. bind_inv Hp as [l3 h3] H3.
  injection Hp as <- <-.
  apply (modify_relinked _ _ _ _ (strip_set_prev _)) in H1.
  apply (modify_relinked _ _ _ _ (strip_set_next _)) in H2.
  pose proof (relinked_trans _ _ _ H1 H2) as H12.
  destruct (ltail l) as [t|].
  - bind_inv H3 as h4 H4. injection H3 as <- <-.
    apply (modify_relinked _ _ _ _ (strip_set_next _)) in H4.
    by eapply relinked_trans.
  - by injection H3 as <- <-.
Qed.

Lemma remove_relinked l p h l' h' :
  remove l p h = Ok (l', h') → relinked h h'.
Proof.
  unfold remove. intros Hp.
  bind_inv Hp as e1 H1. bind_inv Hp as [l2 h2] H2.
  bind_inv Hp as e3 H3. bind_inv Hp as [l4 h4] H4.
  bind_inv Hp as h5 H5. bind_inv Hp as h6 H6. injection Hp as <- <-.
  assert (relinked h h2) as R2.
  { destruct (prev e1) as [pp|].
    - bind_inv H2 as h7 H7. injection H2 as <- <-.
      by apply (modify_relinked _ _ _ _ (strip_set_next _)) in H7.
    - injection H2 as <- <-. apply relinked_refl. }
  assert (relinked h2 h4) as R4.
  { destruct (next e3) as [pn|].
    - bind_inv H4 as h7 H7. injection H4 as <- <-.
      by apply (modify_relinked _ _ _ _ (strip_set_prev _)) in H7.
    - injection H4 as <- <-. apply relinked_refl. }
  apply (modify_relinked _ _ _ _ (strip_set_prev _)) in H5.
  apply (modify_relinked _ _ _ _ (strip_set_next _)) in H6.
  eauto using relinked_trans.
Qed.

(** Relinking does not touch the counters. *)
Lemma relinked_counters h h' x e e' :
  relinked h h' → h !! x = Some e → h' !! x = Some e' →
  freq e' = freq e ∧ peakFreq e' = peakFreq e.
Proof.
  intros [_ Hr] He He'. destruct (Hr x e He) as (e1 & He1 & Hs).
  assert (e1 = e') as -> by congruence. split.
  - change (freq (strip e') = freq (strip e)). by rewrite Hs.
  - change (peakFreq (strip e') = peakFreq (strip e)). by rewrite Hs.
Qed.

Lemma relinked_lookup_inv h h' x e' :
  relinked h h' → h' !! x = Some e' →
  ∃ e, h !! x = Some e ∧ strip e' = strip e.
Proof.
  intros [Hl Hr] He'.
  destruct (lookup_lt_is_Some_2 h x) as [e He].
  { rewrite <- Hl. by eapply lookup_lt_Some. }
  destruct (Hr x e He) as (e1 & He1 & Hs).
  assert (e1 = e') as -> by congruence. eauto.
Qed.

Lemma relinked_ok h h' :
  relinked h h' → Forall entry_ok h → Forall entry_ok h'.
Proof.
  intros Hr Hall. apply Forall_lookup. intros x e' He'.
  destruct (relinked_lookup_inv _ _ _ _ Hr He') as (e & He & _).
  destruct (relinked_counters _ _ _ _ _ Hr He He') as [Hf Hp].
  destruct (Forall_lookup_1 _ _ _ _ Hall He) as [H1 H2].
  unfold entry_ok. by rewrite Hf, Hp.
Qed.

End Memory.

(** ** The bounds on the counters *)

Section FreqBounds.

Context {K : Type} `{Countable K} {V : Type}.
Context {B : Type} `{BloomFilter B}.
Variable zeroV : V.
Variable hasher : K → N.

#[local] Abbreviation entryT := (entry (K:=K) (V:=V)).
#[local] Abbreviation shardT := (shard (K:=K) (V:=V) (B:=B)).
Implicit Types (h : list entryT) (e : entryT) (s : shardT).

Lemma modify_Forall (P : entryT → Prop) p f h h' :
  modify p f h = Ok h' → (∀ e, h !! p = Some e → P e → P (f e)) →
  Forall P h → Forall P h'.
Proof.
  intros (e & He & ->)%modify_Ok Hf Hall.
  apply Forall_insert; [done|]. apply Hf; [done|].
  by eapply Forall_lookup_1.
Qed.

Lemma keeps_counters_ok f e : keeps_counters f → entry_ok e → entry_ok (f e).
Proof.
  unfold entry_ok. intros Hf [H1 H2]. destruct (Hf e) as [-> ->]. by split.
Qed.

Lemma keeps_set_prev x : keeps_counters (set_prev (K:=K) (V:=V) x).
Proof. by intros e. Qed.
Lemma keeps_set_next x : keeps_counters (set_next (K:=K) (V:=V) x).
Proof. by intros e. Qed.
Lemma keeps_set_inSmall x : keeps_counters (set_inSmall (K:=K) (V:=V) x).
Proof. by intros e. Qed.
Lemma keeps_set_onDeathRow x : keeps_counters (set_onDeathRow (K:=K) (V:=V) x).
Proof. by intros e. Qed.
Lemma keeps_set_value x : keeps_counters (set_value (K:=K) (V:=V) x).
Proof. by intros e. Qed.
Lemma keeps_set_expiryNano x : keeps_counters (set_expiryNano (K:=K) (V:=V) x).
Proof. by intros e. Qed.

Lemma modify_keeps p f h h' :
  keeps_counters f → modify p f h = Ok h' →
  Forall entry_ok h → Forall entry_ok h'.
Proof.
  intros Hf Hm. eapply modify_Forall; [done|].
  intros e _. by apply keeps_counters_ok.
Qed.

Lemma bump_ok e : entry_ok e → entry_ok (bump e).
Proof.
  unfold entry_ok, bump, maxFreq. intros [H1 H2].
  destruct (N.ltb_spec (freq e) 7) as [Hlt|Hge]; [|done].
  rewrite uint32_small by (change (2 ^ 32)%N with 4294967296%N; lia).
  cbn [peakFreq set_freq].
  destruct (N.ltb_spec (peakFreq e) (freq e + 1)); cbn; lia.
Qed.

Lemma pushBack_ok l p h l' h' :
  pushBack l p h = Ok (l', h') → Forall entry_ok h → Forall entry_ok h'.
Proof. intros Hp. eapply relinked_ok. by eapply pushBack_relinked. Qed.

Lemma remove_ok l p h l' h' :
  remove l p h = Ok (l', h') → Forall entry_ok h → Forall entry_ok h'.
Proof. intros Hp. eapply relinked_ok. by eapply remove_relinked. Qed.

Lemma ring_scan_elem hs fs x f : ring_scan hs fs x = Some f → f ∈ fs.
Proof.
  revert fs. induction hs as [|y hs IH]; intros [|g fs]; simpl; try done.
  destruct (y =? x)%N.
  - intros [= ->]. apply list_elem_of_here.
  - intros Hs. apply list_elem_of_further. by apply IH.
Qed.

(** Swapping the memory of a shard for one within the bounds. *)
Lemma freq_inv_mem s s' :
  freq_inv s → Forall entry_ok (mem s') →
  ghostFreqRng s' = ghostFreqRng s → freq_inv s'.
Proof. intros [_ Hr] Hm Heq. split; [done|]. by rewrite Heq. Qed.

Lemma addToGhost_inv x peak s :
  (peak <= maxFreq)%N → freq_inv s → freq_inv (addToGhost x peak s).
Proof.
  intros Hpeak [Hm Hr]. unfold addToGhost.
  set (s1 := if negb (Contains (ghostActive s) x) then _ else s).
  assert (freq_inv s1) as [Hm1 Hr1].
  { subst s1. destruct (negb _); [|by split].
    split; [done|]. simpl. destruct (2 <=? peak)%N; [|done].
    simpl. by apply Forall_insert. }
  destruct (ghostCap s1 <=? _); by split.
Qed.

Lemma sendToDeathRow_inv p s s' :
  sendToDeathRow p s = Ok s' → freq_inv s → freq_inv s'.
Proof.
  unfold sendToDeathRow. intros Hs Hinv.
  bind_inv Hs as old Hold. bind_inv Hs as s1 Hs1. bind_inv Hs as h2 Hh2.
  injection Hs as <-.
  assert (freq_inv s1) as Hinv1.
  { destruct old as [o|]; [|by injection Hs1 as <-].
    bind_inv Hs1 as eo Heo. bind_inv Hs1 as h3 Hh3. injection Hs1 as <-.
    apply deref_Ok in Heo.
    assert (entry_ok eo) as [_ Hpk].
    { destruct Hinv as [Hm _]. by eapply Forall_lookup_1. }
    pose proof (addToGhost_inv (hash eo) (peakFreq eo)
      (set_entries (delete (key eo) (entries s)) s) Hpk) as Hg.
    destruct Hg as [Hm Hr]; [done|].
    split; [|done]. simpl.
    by eapply modify_keeps; [apply (keeps_set_onDeathRow false)|done|]. }
  eapply freq_inv_mem; [exact Hinv1| |done]. simpl.
  destruct Hinv1 as [Hm _].
  by eapply modify_keeps; [apply (keeps_set_onDeathRow true)|done|].
Qed.

Lemma headEntry_Ok l h p e :
  headEntry l h = Ok (p, e) ↔ lhead l = Some p ∧ h !! p = Some e.
Proof.
  unfold headEntry. destruct (lhead l) as [x|]; [|by split; [|intros []]].
  rewrite bind_Ok. split.
  - intros (e' & He'%deref_Ok & [= <- <-]). done.
  - intros [[= ->] He]. exists e. by rewrite deref_Ok.
Qed.

Lemma evictFromMain_inv fuel s s' :
  evictFromMain fuel s = Ok s' → freq_inv s → freq_inv s'.
Proof.
  revert s. induction fuel as [|n IH]; intros s; [done|]. simpl.
  destruct (0 <? llen (main s)); [|by intros [= <-]].
  intros Hs Hinv. bind_inv Hs as [p e] Hhd.
  apply headEntry_Ok in Hhd as [Hhd He].
  pose proof Hinv as [Hm Hr].
  destruct (freq e =? 0)%N eqn:Hf.
  - bind_inv Hs as [l h] Hrm. bind_inv Hs as e1 He1. simpl in He1.
    apply deref_Ok in He1.
    pose proof (remove_ok _ _ _ _ _ Hrm Hm) as Hm1.
    destruct (N.leb_spec 4 (peakFreq e1)) as [Hpk|Hpk].
    + bind_inv Hs as h2 Hh2. bind_inv Hs as h3 Hh3.
      bind_inv Hs as [l4 h4] Hh4. injection Hs as <-. simpl in *.
      eapply freq_inv_mem; [exact Hinv| |done]. simpl.
      eapply pushBack_ok; [done|].
      eapply modify_keeps; [apply (keeps_set_inSmall true)|done|].
      eapply modify_Forall; [done| |done].
      intros e2 He2 [H1 H2]. simplify_eq. unfold entry_ok. simpl.
      split; [lia|done].
    + apply sendToDeathRow_inv in Hs; [done|].
      by eapply freq_inv_mem; [exact Hinv| |].
  - bind_inv Hs as [l h] Hrm. bind_inv Hs as h2 Hh2.
    bind_inv Hs as [l3 h3] Hh3.
    apply IH in Hs; [done|].
    eapply freq_inv_mem; [exact Hinv| |done]. simpl.
    eapply pushBack_ok; [done|].
    eapply modify_Forall; [done| |by eapply remove_ok].
    intros e2 He2 [H1 H2]. unfold entry_ok. simpl. split; [|done].
    destruct (relinked_counters _ _ _ _ _ (remove_relinked _ _ _ _ _ Hrm)
                He He2) as [Hf2 _].
    pose proof (uint32_le (freq e - 1)). lia.
Qed.

Lemma evictFromSmall_inv fuel s s' :
  evictFromSmall fuel s = Ok s' → freq_inv s → freq_inv s'.
Proof.
  revert s. induction fuel as [|n IH]; intros s; [done|]. simpl.
  destruct (0 <? llen (small s)); [|by intros [= <-]].
  intros Hs Hinv. bind_inv Hs as [p e] Hhd.
  apply headEntry_Ok in Hhd as [Hhd He].
  pose proof Hinv as [Hm Hr].
  destruct (freq e <? 2)%N.
  - bind_inv Hs as [l h] Hrm.
    apply sendToDeathRow_inv in Hs; [done|].
    eapply freq_inv_mem; [exact Hinv| |done]. simpl. by eapply remove_ok.
  - bind_inv Hs as [l h] Hrm. bind_inv Hs as h2 Hh2. bind_inv Hs as h3 Hh3.
    bind_inv Hs as [l4 h4] Hh4. bind_inv Hs as s5 Hs5. simpl in *.
    apply IH in Hs; [done|].
    assert (freq_inv (set_main l4 (set_mem h4 (set_small l s)))) as Hinv4.
    { eapply freq_inv_mem; [exact Hinv| |done]. simpl.
      eapply pushBack_ok; [done|].
      eapply modify_keeps; [apply (keeps_set_inSmall false)|done|].
      eapply modify_Forall; [done| |by eapply remove_ok].
      intros e2 _ [H1 H2]. unfold entry_ok. simpl. split; [lia|done]. }
    destruct (_ <? llen l4).
    + by eapply evictFromMain_inv.
    + by injection Hs5 as <-.
Qed.

Lemma resurrectFromDeathRow_inv k s s' r :
  resurrectFromDeathRow zeroV k s = Ok (s', r) → freq_inv s → freq_inv s'.
Proof.
  unfold resurrectFromDeathRow. intros Hs Hinv.
  destruct (entries s !! k) as [p|]; [|by injection Hs as <- <-].
  bind_inv Hs as e He. destruct (negb (onDeathRow e)).
  { by injection Hs as <- <-. }
  simpl in Hs.
  bind_inv Hs as h1 Hh1. bind_inv Hs as h2 Hh2. bind_inv Hs as h3 Hh3.
  bind_inv Hs as h4 Hh4. bind_inv Hs as [l5 h5] Hh5. simpl in Hs.
  bind_inv Hs as e6 He6. injection Hs as <- <-.
  eapply freq_inv_mem; [exact Hinv| |done]. simpl.
  destruct Hinv as [Hm _].
  eapply pushBack_ok; [done|].
  apply modify_Ok in Hh3 as (e3 & He3 & ->).
  apply modify_Ok in Hh4 as (e4 & He4 & ->).
  rewrite list_lookup_insert_eq in He4 by by eapply lookup_lt_Some.
  injection He4 as <-. rewrite list_insert_insert_eq.
  apply Forall_insert.
  - eapply modify_keeps; [apply (keeps_set_inSmall false)|done|].
    by eapply modify_keeps; [apply (keeps_set_onDeathRow false)|done|].
  - unfold entry_ok, maxFreq. simpl. lia.
Qed.

Lemma get_inv k now s s' r :
  get zeroV k now s = Ok (s', r) → freq_inv s → freq_inv s'.
Proof.
  unfold get. intros Hs Hinv.
  destruct (entries s !! k) as [p|]; [|by injection Hs as <- <-].
  bind_inv Hs as e He. destruct (onDeathRow e).
  { by eapply resurrectFromDeathRow_inv. }
  destruct (_ && _); [by injection Hs as <- <-|].
  bind_inv Hs as h1 Hh1. injection Hs as <- <-.
  eapply freq_inv_mem; [exact Hinv| |done]. simpl.
  destruct Hinv as [Hm _].
  eapply modify_Forall; [done| |done]. intros e2 _. apply bump_ok.
Qed.

Lemma delete_key_inv k s s' :
  delete_key k s = Ok s' → freq_inv s → freq_inv s'.
Proof.
  unfold delete_key. intros Hs Hinv.
  destruct (entries s !! k) as [p|]; [|by injection Hs as <-].
  bind_inv Hs as e He. bind_inv Hs as s1 Hs1. injection Hs as <-.
  pose proof Hinv as [Hm _].
  destruct (inSmall e); bind_inv Hs1 as [l h] Hrm; injection Hs1 as <-;
    (eapply freq_inv_mem; [exact Hinv| |done]); simpl; by eapply remove_ok.
Qed.

Lemma emptyRing_ok : Forall (λ f, (f <= maxFreq)%N) (freqs emptyRing).
Proof. apply Forall_replicate. unfold maxFreq. lia. Qed.

Lemma cache_flush_inv s : freq_inv s → freq_inv (cache_flush s).1.
Proof. intros [Hm _]. split; [done|]. apply emptyRing_ok. Qed.

Lemma newShard_inv scap size : freq_inv (newShard (B:=B) (K:=K) (V:=V) scap size).
Proof. split; [constructor|]. apply emptyRing_ok. Qed.

Lemma setWithHash_inv fuel k v exp hsh s s' :
  setWithHash hasher fuel k v exp hsh s = Ok s' → freq_inv s → freq_inv s'.
Proof.
  unfold setWithHash. intros Hs Hinv. pose proof Hinv as [Hm Hr].
  destruct (entries s !! k) as [p|].
  { bind_inv Hs as h1 Hh1. bind_inv Hs as h2 Hh2. bind_inv Hs as h3 Hh3.
    injection Hs as <-.
    eapply freq_inv_mem; [exact Hinv| |done]. simpl.
    eapply modify_Forall; [done|intros ? _; apply bump_ok|].
    eapply modify_keeps; [apply (keeps_set_expiryNano exp)|done|].
    by eapply modify_keeps; [apply (keeps_set_value v)|done|]. }
  set (h := if (hsh =? 0)%N then hasher k else hsh) in Hs.
  set (ent := set_hash h _) in Hs.
  assert (Forall entry_ok (mem s ++ [ent])) as Hm0.
  { apply Forall_app. split; [done|]. apply Forall_singleton.
    unfold entry_ok, maxFreq. simpl. lia. }
  simpl in Hs.
  destruct (negb (warmupComplete s) && negb (pcapacity s <=? totalEntries s)).
  { bind_inv Hs as h1 Hh1. bind_inv Hs as [l2 h2] Hh2. injection Hs as <-.
    eapply freq_inv_mem; [exact Hinv| |done]. simpl.
    eapply pushBack_ok; [done|].
    by eapply modify_keeps; [apply (keeps_set_inSmall true)|done|]. }
  bind_inv Hs as s1 Hs1. bind_inv Hs as e2 He2. bind_inv Hs as [q3 h3] Hq3.
  injection Hs as <-.
  assert (freq_inv s1) as Hinv1.
  { destruct (pcapacity s <=? totalEntries s).
    - bind_inv Hs1 as h4 Hh4. bind_inv Hs1 as h5 Hh5. simpl in Hs1.
      assert (freq_inv (set_mem h5 (set_warmupComplete true
                (set_mem (mem s ++ [ent]) s)))) as Hinv5.
      { eapply freq_inv_mem; [exact Hinv| |done]. simpl.
        eapply modify_keeps in Hm0;
          [|apply (keeps_set_inSmall (negb (Contains (ghostActive s) h
                                            || Contains (ghostAging s) h)))
           |exact Hh4].
        destruct (_ || _); [|by injection Hh5 as <-].
        destruct (ring_lookup _ h) as [peak|] eqn:Hpk;
          [|by injection Hh5 as <-].
        apply ring_scan_elem in Hpk.
        pose proof (proj1 (Forall_forall _ _) Hr _ Hpk) as Hle.
        simpl in Hle.
        bind_inv Hh5 as h6 Hh6.
        apply modify_Ok in Hh6 as (e6 & He6 & ->).
        apply modify_Ok in Hh5 as (e7 & He7 & ->).
        rewrite list_lookup_insert_eq in He7 by by eapply lookup_lt_Some.
        injection He7 as <-. rewrite list_insert_insert_eq.
        apply Forall_insert; [done|]. unfold entry_ok. simpl. split; [lia|done]. }
      destruct (_ && _); [by eapply evictFromMain_inv|].
      destruct (0 <? llen (small s)); [by eapply evictFromSmall_inv|].
      by injection Hs1 as <-.
    - bind_inv Hs1 as h4 Hh4. injection Hs1 as <-.
      eapply freq_inv_mem; [exact Hinv| |done]. simpl.
      by eapply modify_keeps; [apply (keeps_set_inSmall true)|done|]. }
  eapply freq_inv_mem; [exact Hinv1| |]; simpl.
  - destruct Hinv1 as [Hm1 _].
    destruct (inSmall e2); bind_inv Hq3 as [l h4] Hpb; injection Hq3 as <- <-;
      by eapply pushBack_ok.
  - by destruct (inSmall e2); bind_inv Hq3 as [l h4] Hpb; injection Hq3 as <- <-.
Qed.

Lemma step_inv fuel o s s' :
  step zeroV hasher fuel o s = Ok s' → freq_inv s → freq_inv s'.
Proof.
  destruct o as [k v exp hsh|k now|k|]; simpl.
  - apply setWithHash_inv.
  - intros Hs. bind_inv Hs as [s1 r] Hg. injection Hs as <-.
    by eapply get_inv.
  - apply delete_key_inv.
  - intros [= <-]. apply cache_flush_inv.
Qed.

Lemma run_inv fuel ops s s' :
  run zeroV hasher fuel ops s = Ok s' → freq_inv s → freq_inv s'.
Proof.
  revert s. induction ops as [|o ops IH]; intros s; simpl.
  - by intros [= <-].
  - intros Hs Hinv. bind_inv Hs as s1 Hs1.
    eapply IH; [done|]. by eapply step_inv.
Qed.

(** C7: after any sequence of set, get, delete and flush on a new shard
    (with the evictions and resurrections they cause), every entry of
    the map has [0 ≤ freq ≤ 7] and [freq ≤ peakFreq ≤ 7]. *)
Theorem freq_bounds_after_run fuel ops scap size s k p e :
  run zeroV hasher fuel ops (newShard scap size) = Ok s →
  entries s !! k = Some p → mem s !! p = Some e →
  (0 <= freq e <= 7)%N ∧ (freq e <= peakFreq e <= 7)%N.
Proof.
  intros Hrun _ He.
  apply run_inv in Hrun; [|apply newShard_inv].
  destruct Hrun as [Hm _].
  destruct (Forall_lookup_1 _ _ _ _ Hm He) as [H1 H2].
  unfold maxFreq in *. lia.
Qed.

End FreqBounds.

(** ** The loops return *)

Section Termination.

Context {K : Type} `{Countable K} {V : Type}.
Context {B : Type} `{BloomFilter B}.
Variable zeroV : V.
Variable hasher : K → N.

#[local] Abbreviation entryT := (entry (K:=K) (V:=V)).
#[local] Abbreviation shardT := (shard (K:=K) (V:=V) (B:=B)).
Implicit Types (h : list entryT) (e : entryT) (s : shardT).

Lemma bind_fuel {A C} (m : res A) (f : A → res C) :
  m ≠ OutOfFuel → (∀ a, m = Ok a → f a ≠ OutOfFuel) → m ≫= f ≠ OutOfFuel.
Proof. destruct m as [a| |]; simpl; intros Hm Hf; auto. Qed.

Lemma deref_fuel h p : deref h p ≠ OutOfFuel.
Proof. unfold deref. by destruct (h !! p). Qed.

Lemma modify_fuel p f h : modify p f h ≠ OutOfFuel.
Proof. unfold modify, deref. by destruct (h !! p). Qed.

Create HintDb fuel.
#[local] Hint Resolve deref_fuel modify_fuel : fuel.

(** Discharges [m ≠ OutOfFuel] for straight-line code. *)
Ltac straight :=
  solve [ repeat first
    [ done
    | solve [auto with fuel]
    | apply bind_fuel; [|intros ? ?; cbn beta]
    | match goal with
      | |- context [match ?x with _ => _ end] => destruct x
      end
    | progress intros ] ].

Lemma pushBack_fuel l p h : pushBack l p h ≠ OutOfFuel.
Proof. unfold pushBack. straight. Qed.

Lemma remove_fuel l p h : remove l p h ≠ OutOfFuel.
Proof. unfold remove. straight. Qed.

Lemma sendToDeathRow_fuel p s : sendToDeathRow p s ≠ OutOfFuel.
Proof.
  unfold sendToDeathRow. apply bind_fuel.
  { unfold slot. destruct (_ <? 0); [done|]. by destruct (_ !! _). }
  intros [o|] _; straight.
Qed.

Lemma headEntry_fuel l h : headEntry l h ≠ OutOfFuel.
Proof. unfold headEntry. straight. Qed.

#[local] Hint Resolve pushBack_fuel remove_fuel sendToDeathRow_fuel
  headEntry_fuel : fuel.

(** *** The heat of the memory *)

Lemma heat_app h1 h2 : heat (h1 ++ h2) = (heat h1 + heat h2)%nat.
Proof.
  induction h1 as [|e h1 IH]; simpl; [done|].
  change (foldr _ 0%nat (h1 ++ h2)) with (heat (h1 ++ h2)). rewrite IH.
  change (foldr _ 0%nat h1) with (heat h1). lia.
Qed.

Lemma heat_insert h p e e' :
  h !! p = Some e →
  (heat (<[p := e']> h) + N.to_nat (freq e)
   = heat h + N.to_nat (freq e'))%nat.
Proof.
  revert p. induction h as [|x h IH]; intros [|p]; simpl; try done.
  - intros [= ->]. lia.
  - intros He. specialize (IH p He). unfold heat in *. simpl in *. lia.
Qed.

Lemma relinked_heat h h' : relinked h h' → heat h' = heat h.
Proof.
  intros [Hl Hr]. revert h' Hl Hr.
  induction h as [|e h IH]; intros [|e' h'] Hl Hr; simpl in *; try done.
  destruct (Hr 0%nat e eq_refl) as (e1 & [= <-] & Hs).
  assert (freq e' = freq e) as ->.
  { change (freq (strip e') = freq (strip e)). by rewrite Hs. }
  f_equal. apply IH; [lia|]. intros x e2 He2. apply (Hr (S x) e2 He2).
Qed.

Lemma heat_bound h : Forall entry_ok h → (heat h ≤ 7 * length h)%nat.
Proof.
  induction 1 as [|e h [H1 H2] _ IH]; simpl; [done|].
  fold (heat h). unfold maxFreq in H2. lia.
Qed.

Lemma modify_keeps_heat p f h h' :
  keeps_counters f → modify p f h = Ok h' → heat h' = heat h.
Proof.
  intros Hf (e & He & ->)%modify_Ok.
  pose proof (heat_insert h p e (f e) He) as Hh.
  destruct (Hf e) as [Hfe _]. rewrite Hfe in Hh. lia.
Qed.

Lemma sendToDeathRow_heat p s s' :
  sendToDeathRow p s = Ok s' →
  heat (mem s') = heat (mem s) ∧ length (mem s') = length (mem s).
Proof.
  unfold sendToDeathRow. intros Hs.
  bind_inv Hs as old Hold. bind_inv Hs as s1 Hs1. bind_inv Hs as h2 Hh2.
  injection Hs as <-. simpl.
  rewrite (modify_keeps_heat _ _ _ _ (keeps_set_onDeathRow true) Hh2).
  rewrite (modify_length _ _ _ _ Hh2).
  destruct old as [o|]; [|by injection Hs1 as <-].
  bind_inv Hs1 as eo Heo. bind_inv Hs1 as h3 Hh3. injection Hs1 as <-.
  simpl.
  rewrite (modify_keeps_heat _ _ _ _ (keeps_set_onDeathRow false) Hh3).
  rewrite (modify_length _ _ _ _ Hh3).
  unfold addToGhost. simpl.
  by repeat (match goal with |- context [if ?c then _ else _] => destruct c end;
             simpl).
Qed.

Lemma pushBack_heat l p h l' h' :
  pushBack l p h = Ok (l', h') → heat h' = heat h ∧ length h' = length h.
Proof.
  intros Hr%pushBack_relinked. split; [by apply relinked_heat|apply Hr].
Qed.

Lemma remove_heat l p h l' h' :
  remove l p h = Ok (l', h') → heat h' = heat h ∧ length h' = length h.
Proof.
  intros Hr%remove_relinked. split; [by apply relinked_heat|apply Hr].
Qed.

(** One pass of [evictFromMain] heats the memory by one at most (a
    demotion stores [freq = 1]). *)
Lemma evictFromMain_heat fuel s s' :
  evictFromMain fuel s = Ok s' →
  (heat (mem s') ≤ heat (mem s) + 1)%nat ∧ length (mem s') = length (mem s).
Proof.
  revert s. induction fuel as [|n IH]; intros s; [done|]. simpl.
  destruct (0 <? llen (main s)); [|intros [= <-]; split; [lia|done]].
  intros Hs. bind_inv Hs as [p e] Hhd.
  apply headEntry_Ok in Hhd as [Hhd He].
  destruct (freq e =? 0)%N eqn:Hf.
  - bind_inv Hs as [l h] Hrm. bind_inv Hs as e1 He1. simpl in He1.
    apply deref_Ok in He1. apply remove_heat in Hrm as [Hh Hl].
    destruct (4 <=? peakFreq e1)%N.
    + bind_inv Hs as h2 Hh2. bind_inv Hs as h3 Hh3.
      bind_inv Hs as [l4 h4] Hh4. injection Hs as <-. simpl in *.
      apply pushBack_heat in Hh4 as [-> ->].
      rewrite (modify_keeps_heat _ _ _ _ (keeps_set_inSmall true) Hh3).
      rewrite (modify_length _ _ _ _ Hh3), (modify_length _ _ _ _ Hh2).
      apply modify_Ok in Hh2 as (e2 & He2 & ->).
      pose proof (heat_insert h p e2 (set_freq 1 e2) He2) as Hi.
      simpl in Hi. split; [lia|done].
    + apply sendToDeathRow_heat in Hs as [-> ->]. simpl. split; [lia|done].
  - bind_inv Hs as [l h] Hrm. bind_inv Hs as h2 Hh2.
    bind_inv Hs as [l3 h3] Hh3. apply IH in Hs as [Hs1 Hs2]. simpl in *.
    pose proof (λ e', relinked_counters _ _ _ _ e'
                        (remove_relinked _ _ _ _ _ Hrm) He) as Hc.
    apply remove_heat in Hrm as [Hh Hl].
    apply pushBack_heat in Hh3 as [Hh3 Hl3].
    rewrite (modify_length _ _ _ _ Hh2) in Hl3.
    apply modify_Ok in Hh2 as (e2 & He2 & ->).
    pose proof (heat_insert h p e2 (set_freq (uint32 (freq e - 1)) e2) He2)
      as Hi. simpl in Hi.
    destruct (Hc e2 He2) as [Hc1 _].
    pose proof (uint32_le (freq e - 1)).
    apply N.eqb_neq in Hf. split; [lia|congruence].
Qed.

(** With more fuel than heat, [evictFromMain] returns or panics. *)
Lemma evictFromMain_returns fuel s :
  (heat (mem s) < fuel)%nat → evictFromMain fuel s ≠ OutOfFuel.
Proof.
  revert s. induction fuel as [|n IH]; intros s Hlt; [lia|]. simpl.
  destruct (0 <? llen (main s)); [|done].
  apply bind_fuel; [auto with fuel|]. intros [p e] Hhd.
  apply headEntry_Ok in Hhd as [Hhd He].
  destruct (freq e =? 0)%N eqn:Hf.
  - straight.
  - apply bind_fuel; [auto with fuel|]. intros [l h] Hrm.
    apply bind_fuel; [auto with fuel|]. intros h2 Hh2.
    apply bind_fuel; [auto with fuel|]. intros [l3 h3] Hh3.
    apply IH. simpl.
    pose proof (λ e', relinked_counters _ _ _ _ e'
                        (remove_relinked _ _ _ _ _ Hrm) He) as Hc.
    apply remove_heat in Hrm as [Hh Hl].
    apply pushBack_heat in Hh3 as [Hh3 Hl3].
    apply modify_Ok in Hh2 as (e2 & He2 & ->).
    pose proof (heat_insert h p e2 (set_freq (uint32 (freq e - 1)) e2) He2)
      as Hi. simpl in Hi.
    destruct (Hc e2 He2) as [Hc1 _].
    pose proof (uint32_le (freq e - 1)).
    apply N.eqb_neq in Hf. lia.
Qed.

Lemma evictFromSmall_heat fuel s s' :
  evictFromSmall fuel s = Ok s' →
  (heat (mem s') ≤ heat (mem s))%nat ∧ length (mem s') = length (mem s).
Proof.
  revert s. induction fuel as [|n IH]; intros s; [done|]. simpl.
  destruct (0 <? llen (small s)); [|by intros [= <-]].
  intros Hs. bind_inv Hs as [p e] Hhd.
  apply headEntry_Ok in Hhd as [Hhd He].
  destruct (N.ltb_spec (freq e) 2) as [Hf|Hf].
  - bind_inv Hs as [l h] Hrm. apply remove_heat in Hrm as [Hh Hl].
    apply sendToDeathRow_heat in Hs as [-> ->]. simpl. split; [lia|done].
  - bind_inv Hs as [l h] Hrm. bind_inv Hs as h2 Hh2. bind_inv Hs as h3 Hh3.
    bind_inv Hs as [l4 h4] Hh4. bind_inv Hs as s5 Hs5. simpl in *.
    apply IH in Hs as [Hs1 Hs2].
    pose proof (λ e', relinked_counters _ _ _ _ e'
                        (remove_relinked _ _ _ _ _ Hrm) He) as Hc.
    apply remove_heat in Hrm as [Hh Hl].
    apply pushBack_heat in Hh4 as [Hh4 Hl4].
    rewrite (modify_keeps_heat _ _ _ _ (keeps_set_inSmall false) Hh3) in Hh4.
    rewrite (modify_length _ _ _ _ Hh3), (modify_length _ _ _ _ Hh2) in Hl4.
    apply modify_Ok in Hh2 as (e2 & He2 & ->).
    pose proof (heat_insert h p e2 (set_freq 0 e2) He2) as Hi. simpl in Hi.
    destruct (Hc e2 He2) as [Hc1 _].
    assert ((heat (mem s5) ≤ heat h4 + 1)%nat ∧ length (mem s5) = length h4)
      as [H5 H6].
    { destruct (_ <? llen l4).
      - by apply evictFromMain_heat in Hs5.
      - injection Hs5 as <-. simpl. split; [lia|done]. }
    split; [lia|congruence].
Qed.

(** With more fuel than heat, [evictFromSmall] returns or panics. *)
Lemma evictFromSmall_returns fuel s :
  (heat (mem s) < fuel)%nat → evictFromSmall fuel s ≠ OutOfFuel.
Proof.
  revert s. induction fuel as [|n IH]; intros s Hlt; [lia|]. simpl.
  destruct (0 <? llen (small s)); [|done].
  apply bind_fuel; [auto with fuel|]. intros [p e] Hhd.
  apply headEntry_Ok in Hhd as [Hhd He].
  destruct (N.ltb_spec (freq e) 2) as [Hf|Hf].
  - straight.
  - apply bind_fuel; [auto with fuel|]. intros [l h] Hrm.
    apply bind_fuel; [auto with fuel|]. intros h2 Hh2.
    apply bind_fuel; [auto with fuel|]. intros h3 Hh3.
    apply bind_fuel; [auto with fuel|]. intros [l4 h4] Hh4. simpl.
    pose proof (λ e', relinked_counters _ _ _ _ e'
                        (remove_relinked _ _ _ _ _ Hrm) He) as Hc.
    apply remove_heat in Hrm as [Hh Hl].
    apply pushBack_heat in Hh4 as [Hh4 Hl4].
    rewrite (modify_keeps_heat _ _ _ _ (keeps_set_inSmall false) Hh3) in Hh4.
    apply modify_Ok in Hh2 as (e2 & He2 & ->).
    pose proof (heat_insert h p e2 (set_freq 0 e2) He2) as Hi. simpl in Hi.
    destruct (Hc e2 He2) as [Hc1 _].
    apply bind_fuel.
    + destruct (_ <? llen l4); [|done].
      apply evictFromMain_returns. simpl. lia.
    + intros s5 Hs5. apply IH.
      destruct (_ <? llen l4).
      * apply evictFromMain_heat in Hs5 as [Hs5 _]. simpl in Hs5. lia.
      * injection Hs5 as <-. simpl. lia.
Qed.

Lemma get_fuel k now s : get zeroV k now s ≠ OutOfFuel.
Proof. unfold get, resurrectFromDeathRow. straight. Qed.

Lemma delete_key_fuel k s : delete_key k s ≠ OutOfFuel.
Proof. unfold delete_key. straight. Qed.

Lemma modify_heat_le p f h h' (b : N) :
  (∀ e, (freq (f e) <= freq e + b)%N) → modify p f h = Ok h' →
  (heat h' ≤ heat h + N.to_nat b)%nat.
Proof.
  intros Hf (e & He & ->)%modify_Ok.
  pose proof (heat_insert h p e (f e) He) as Hh.
  specialize (Hf e). lia.
Qed.

(** [setWithHash] returns or panics, when the fuel exceeds the heat by
    the largest frequency the ghost ring can restore. *)
Lemma setWithHash_returns fuel k v exp hsh s :
  freq_inv s → (heat (mem s) + 7 < fuel)%nat →
  setWithHash hasher fuel k v exp hsh s ≠ OutOfFuel.
Proof.
  intros [Hm Hr] Hfuel. unfold setWithHash.
  destruct (entries s !! k) as [p|]; [straight|].
  set (h := if (hsh =? 0)%N then hasher k else hsh).
  set (ent := set_hash h _). simpl.
  destruct (negb (warmupComplete s) && negb (pcapacity s <=? totalEntries s));
    [straight|].
  apply bind_fuel; [|straight].
  destruct (pcapacity s <=? totalEntries s); [|straight].
  apply bind_fuel; [auto with fuel|]. intros h4 Hh4.
  apply bind_fuel; [straight|]. intros h5 Hh5. simpl.
  assert (heat h5 ≤ heat (mem s) + 7)%nat as Hheat.
  { apply (modify_keeps_heat _ _ _ _ (keeps_set_inSmall _)) in Hh4.
    rewrite heat_app in Hh4. simpl in Hh4.
    destruct (_ || _); [|injection Hh5 as <-; lia].
    destruct (ring_lookup _ h) as [peak|] eqn:Hpk; [|injection Hh5 as <-; lia].
    apply ring_scan_elem in Hpk.
    pose proof (proj1 (Forall_forall _ _) Hr _ Hpk) as Hle.
    simpl in Hle. unfold maxFreq in Hle.
    bind_inv Hh5 as h6 Hh6.
    apply (modify_heat_le _ _ _ _ peak) in Hh6; [|intros e; simpl; lia].
    apply (modify_heat_le _ _ _ _ 0) in Hh5; [|intros e; simpl; lia].
    lia. }
  destruct (_ && _).
  - apply evictFromMain_returns. simpl. lia.
  - destruct (0 <? llen (small s)); [|done].
    apply evictFromSmall_returns. simpl. lia.
Qed.

Lemma setWithHash_length fuel k v exp hsh s s' :
  setWithHash hasher fuel k v exp hsh s = Ok s' →
  (length (mem s') ≤ length (mem s) + 1)%nat.
Proof.
  unfold setWithHash. intros Hs.
  destruct (entries s !! k) as [p|].
  { bind_inv Hs as h1 Hh1. bind_inv Hs as h2 Hh2. bind_inv Hs as h3 Hh3.
    injection Hs as <-. simpl.
    apply modify_length in Hh1, Hh2, Hh3. lia. }
  set (h := if (hsh =? 0)%N then hasher k else hsh) in Hs.
  set (ent := set_hash h _) in Hs. simpl in Hs.
  assert (length (mem s ++ [ent]) = (length (mem s) + 1)%nat) as Hl0.
  { by rewrite length_app. }
  destruct (negb (warmupComplete s) && negb (pcapacity s <=? totalEntries s)).
  { bind_inv Hs as h1 Hh1. bind_inv Hs as [l2 h2] Hh2. injection Hs as <-.
    simpl. apply modify_length in Hh1. apply pushBack_heat in Hh2 as [_ Hl2].
    lia. }
  bind_inv Hs as s1 Hs1. bind_inv Hs as e2 He2. bind_inv Hs as [q3 h3] Hq3.
  injection Hs as <-. simpl.
  assert (length (mem s1) = (length (mem s) + 1)%nat) as Hl1.
  { destruct (pcapacity s <=? totalEntries s).
    - bind_inv Hs1 as h4 Hh4. bind_inv Hs1 as h5 Hh5. simpl in Hs1.
      apply modify_length in Hh4.
      assert (length h5 = length h4) as Hl5.
      { destruct (_ || _); [|by injection Hh5 as <-].
        destruct (ring_lookup _ h); [|by injection Hh5 as <-].
        bind_inv Hh5 as h6 Hh6. apply modify_length in Hh6, Hh5. lia. }
      destruct (_ && _).
      + apply evictFromMain_heat in Hs1 as [_ Hl]. simpl in Hl. lia.
      + destruct (0 <? llen (small s)).
        * apply evictFromSmall_heat in Hs1 as [_ Hl]. simpl in Hl. lia.
        * injection Hs1 as <-. simpl. lia.
    - bind_inv Hs1 as h4 Hh4. injection Hs1 as <-. simpl.
      apply modify_length in Hh4. lia. }
  destruct (inSmall e2); bind_inv Hq3 as [l h4] Hpb; injection Hq3 as <- <-;
    apply pushBack_heat in Hpb as [_ Hl]; lia.
Qed.

Lemma step_length fuel o s s' :
  step zeroV hasher fuel o s = Ok s' →
  (length (mem s') ≤ length (mem s) + 1)%nat.
Proof.
  destruct o as [k v exp hsh|k now|k|]; simpl.
  - apply setWithHash_length.
  - intros Hs. bind_inv Hs as [s1 r] Hg. injection Hs as <-.
    unfold get in Hg.
    destruct (entries s !! k) as [p|]; [|injection Hg as <- <-; lia].
    bind_inv Hg as e He. destruct (onDeathRow e).
    + unfold resurrectFromDeathRow in Hg.
      destruct (entries s !! k) as [p'|]; [|injection Hg as <- <-; lia].
      bind_inv Hg as e' He'.
      destruct (negb (onDeathRow e')); [injection Hg as <- <-; lia|].
      simpl in Hg.
      bind_inv Hg as h1 Hh1. bind_inv Hg as h2 Hh2. bind_inv Hg as h3 Hh3.
      bind_inv Hg as h4 Hh4. bind_inv Hg as [l5 h5] Hh5. simpl in Hg.
      bind_inv Hg as e6 He6. injection Hg as <- <-. simpl.
      apply modify_length in Hh1, Hh2, Hh3, Hh4.
      apply pushBack_heat in Hh5 as [_ Hl5]. lia.
    + destruct (_ && _); [injection Hg as <- <-; lia|].
      bind_inv Hg as h1 Hh1. injection Hg as <- <-. simpl.
      apply modify_length in Hh1. lia.
  - unfold delete_key. intros Hs.
    destruct (entries s !! k) as [p|]; [|injection Hs as <-; lia].
    bind_inv Hs as e He. bind_inv Hs as s1 Hs1. injection Hs as <-. simpl.
    destruct (inSmall e); bind_inv Hs1 as [l h] Hrm; injection Hs1 as <-;
      apply remove_heat in Hrm as [_ Hl]; simpl; lia.
  - intros [= <-]. simpl. lia.
Qed.

Lemma step_returns fuel o s :
  freq_inv s → (heat (mem s) + 7 < fuel)%nat →
  step zeroV hasher fuel o s ≠ OutOfFuel.
Proof.
  intros Hinv Hfuel. destruct o as [k v exp hsh|k now|k|]; simpl.
  - by apply setWithHash_returns.
  - apply bind_fuel; [apply get_fuel|]. by intros [s1 r] _.
  - apply delete_key_fuel.
  - done.
Qed.

(** A run never exhausts a fuel that covers seven hits for every entry
    the memory can hold by its end. *)
Lemma run_returns fuel ops s :
  freq_inv s →
  (7 * (length (mem s) + length ops) + 7 < fuel)%nat →
  run zeroV hasher fuel ops s ≠ OutOfFuel.
Proof.
  revert s. induction ops as [|o ops IH]; intros s Hinv Hfuel; [done|].
  simpl in *. pose proof (heat_bound _ (proj1 Hinv)) as Hb.
  apply bind_fuel.
  - apply step_returns; [done|lia].
  - intros s1 Hs1. apply IH.
    + by eapply step_inv.
    + apply step_length in Hs1. lia.
Qed.

End Termination.

(** ** The intrusive lists *)

Section Queues.

Context {K : Type} `{Countable K} {V : Type}.

#[local] Abbreviation entryT := (entry (K:=K) (V:=V)).
Implicit Types (h : list entryT) (e : entryT) (q r : list ptr).

(** A chain only depends on the links of its own entries. *)
Lemma chain_frame h h' pv q :
  chain h pv q →
  (∀ x e, x ∈ q → h !! x = Some e →
     ∃ e1, h' !! x = Some e1 ∧ prev e1 = prev e ∧ next e1 = next e) →
  chain h' pv q.
Proof.
  revert pv. induction q as [|p q IH]; intros pv; simpl; [done|].
  intros (e & He & Hp & Hn & Hc) Hfr.
  destruct (Hfr p e (list_elem_of_here _ _) He) as (e1 & He1 & Hp1 & Hn1).
  exists e1. repeat split; [done|congruence|congruence|].
  apply IH; [done|]. intros x e2 Hx. apply Hfr. by apply list_elem_of_further.
Qed.

Lemma chain_frame_eq h h' pv q :
  chain h pv q → (∀ x, x ∈ q → h' !! x = h !! x) → chain h' pv q.
Proof.
  intros Hc Heq. eapply chain_frame; [done|].
  intros x e Hx He. exists e. by rewrite Heq.
Qed.

Lemma chain_valid h pv q x : chain h pv q → x ∈ q → is_Some (h !! x).
Proof.
  revert pv. induction q as [|p q IH]; intros pv; simpl.
  - by intros _ ?%elem_of_nil.
  - intros (e & He & _ & _ & Hc) [->|Hx]%elem_of_cons; eauto.
Qed.

(** A list holds no more entries than the memory. *)
Lemma dll_length h l q : dll h l q → (length q ≤ length h)%nat.
Proof.
  intros (Hc & _ & _ & _ & Hnd).
  assert (q ⊆+ seq 0 (length h)) as Hsub.
  { apply NoDup_submseteq; [done|]. intros x Hx.
    apply elem_of_seq. split; [lia|].
    destruct (chain_valid _ _ _ _ Hc Hx) as [e He].
    apply lookup_lt_Some in He. lia. }
  apply submseteq_length in Hsub. by rewrite length_seq in Hsub.
Qed.

Lemma dll_frame_eq h h' l q :
  dll h l q → (∀ x, x ∈ q → h' !! x = h !! x) → dll h' l q.
Proof.
  intros (Hc & ?) Heq. split; [|done]. by eapply chain_frame_eq.
Qed.

(** A store into a field that is not a link keeps every list. *)
Lemma dll_modify h h' l q p f :
  (∀ e, prev (f e) = prev e ∧ next (f e) = next e) →
  modify p f h = Ok h' → dll h l q → dll h' l q.
Proof.
  intros Hf (e & He & ->)%modify_Ok (Hc & ?). split; [|done].
  eapply chain_frame; [done|]. intros x e1 _ He1.
  destruct (decide (x = p)) as [->|Hne].
  - assert (e1 = e) as -> by congruence. exists (f e).
    split; [|apply Hf]. apply list_lookup_insert_eq. by eapply lookup_lt_Some.
  - exists e1. by rewrite list_lookup_insert_ne.
Qed.

(** Following [next] from the head of a list reaches its entries. *)
Lemma chain_walk h pv q fuel :
  chain h pv q → (length q ≤ fuel)%nat → walk fuel h (head q) = q.
Proof.
  revert pv fuel. induction q as [|p r IH]; intros pv fuel Hc Hlen.
  - by destruct fuel.
  - destruct fuel as [|n]; [simpl in Hlen; lia|].
    simpl in Hc. destruct Hc as (e & He & _ & Hn & Hc).
    simpl. rewrite He, Hn. f_equal. eapply IH; [done|]. simpl in Hlen. lia.
Qed.

Lemma dll_linked h l q : dll h l q → linked h l = q.
Proof.
  intros Hdll. pose proof (dll_length _ _ _ Hdll) as Hlen.
  destruct Hdll as (Hc & Hhd & _). unfold linked. rewrite Hhd.
  by eapply chain_walk.
Qed.

(** Unlinking the head of a list. *)
Lemma remove_head h l p r :
  dll h l (p :: r) → Z.of_nat (length h) < 2 ^ 63 - 1 →
  ∃ l' h', remove l p h = Ok (l', h') ∧ dll h' l' r
    ∧ (∀ x, x ∉ p :: r → h' !! x = h !! x)
    ∧ (∃ e1, h' !! p = Some e1 ∧ prev e1 = None ∧ next e1 = None).
Proof.
  intros Hdll Hbound. pose proof (dll_length _ _ _ Hdll) as Hlen.
  destruct Hdll as (Hc & Hhd & Htl & Hll & Hnd). simpl in Hc, Hlen.
  destruct Hc as (e & He & Hp & Hn & Hc).
  apply NoDup_cons in Hnd as [Hpr Hnd].
  assert (int64 (llen l - 1) = Z.of_nat (length r)) as Hl'.
  { rewrite Hll, int64_small; simpl length; lia. }
  unfold remove. rewrite (proj2 (deref_Ok h p e) He). simpl.
  rewrite Hp. simpl. rewrite (proj2 (deref_Ok h p e) He). simpl.
  rewrite Hn. destruct r as [|n r']; simpl.
  - rewrite (modify_valid p _ h e He). simpl.
    erewrite modify_valid;
      [|apply list_lookup_insert_eq; by eapply lookup_lt_Some].
    simpl. rewrite list_insert_insert_eq.
    eexists _, _. split; [done|]. split; [|split].
    + repeat split; simpl; done.
    + intros x Hx. apply list_lookup_insert_ne.
      intros ->. apply Hx, list_elem_of_here.
    + eexists. split; [apply list_lookup_insert_eq; by eapply lookup_lt_Some|].
      done.
  - simpl in Hc. destruct Hc as (en & Hen & Hpn & Hnn & Hc).
    apply NoDup_cons in Hnd as [Hnr Hnd].
    assert (p ≠ n) as Hpn'.
    { intros ->. apply Hpr, list_elem_of_here. }
    rewrite (modify_valid n _ h en Hen). simpl.
    assert (<[n:=set_prev (prev e) en]> h !! p = Some e) as He2.
    { by rewrite list_lookup_insert_ne. }
    rewrite (modify_valid p _ _ e He2). simpl.
    erewrite modify_valid;
      [|apply list_lookup_insert_eq; rewrite length_insert;
        by eapply lookup_lt_Some].
    simpl. rewrite list_insert_insert_eq.
    eexists _, _. split; [done|]. split; [|split].
    + split; [|split; [done|split; [exact Htl|split; [done|by constructor]]]].
      exists (set_prev (prev e) en). split.
      { rewrite list_lookup_insert_ne by done.
        apply list_lookup_insert_eq. by eapply lookup_lt_Some. }
      split; [by rewrite Hp|]. split; [done|].
      eapply chain_frame_eq; [done|]. intros x Hx.
      rewrite !list_lookup_insert_ne; [done| |].
      * intros ->. done.
      * intros ->. apply Hpr. by apply list_elem_of_further.
    + intros x Hx. rewrite !list_lookup_insert_ne; [done| |].
      * intros ->. apply Hx. apply list_elem_of_further, list_elem_of_here.
      * intros ->. apply Hx, list_elem_of_here.
    + eexists. split.
      { apply list_lookup_insert_eq. rewrite length_insert.
        by eapply lookup_lt_Some. }
      done.
Qed.

Lemma last_elem q t : last q = Some t → t ∈ q.
Proof.
  intros Hl. apply list_elem_of_lookup. exists (pred (length q)).
  by rewrite <- last_lookup.
Qed.

(** Linking [p] after the last entry of a chain. *)
Lemma chain_snoc h h' pv q p e' :
  chain h pv q → NoDup q →
  h' !! p = Some e' →
  prev e' = match last q with Some t => Some t | None => pv end →
  next e' = None →
  (∀ x ex, x ∈ q → h !! x = Some ex →
     h' !! x = Some (if decide (last q = Some x)
                     then set_next (Some p) ex else ex)) →
  chain h' pv (q ++ [p]).
Proof.
  revert pv. induction q as [|x r IH]; intros pv Hc Hnd He' Hp Hn Hq.
  - simpl in *. exists e'. by rewrite He', Hp, Hn.
  - simpl in Hc. destruct Hc as (ex & Hex & Hpx & Hnx & Hc).
    apply NoDup_cons in Hnd as [Hxr Hnd].
    pose proof (Hq x ex (list_elem_of_here _ _) Hex) as Hx'.
    rewrite last_cons in Hp, Hq, Hx'.
    destruct (last r) as [t|] eqn:Hlast.
    + assert (t ∈ r) as Ht by by apply last_elem.
      assert (Some t ≠ Some x) as Htx.
      { intros [= ->]. done. }
      rewrite decide_False in Hx' by done.
      simpl. exists ex. split; [done|]. split; [done|]. split.
      { rewrite Hnx. by destruct r. }
      apply IH; try done.
      intros y ey Hy Hey.
      apply Hq; [by apply list_elem_of_further|done].
    + assert (r = []) as ->.
      { destruct r as [|y r'] using rev_ind; [done|].
        by rewrite last_snoc in Hlast. }
      rewrite decide_True in Hx' by done.
      simpl. eexists. split; [exact Hx'|]. split; [done|]. split; [done|].
      exists e'. by rewrite He', Hp, Hn.
Qed.

(** Linking [p], which is in no list, at the tail of a list. *)
Lemma pushBack_tail h l q p e :
  dll h l q → p ∉ q → h !! p = Some e →
  Z.of_nat (length h) < 2 ^ 63 - 1 →
  ∃ l' h', pushBack l p h = Ok (l', h') ∧ dll h' l' (q ++ [p])
    ∧ (∀ x, x ∉ p :: q → h' !! x = h !! x).
Proof.
  intros Hdll Hpq He Hbound. pose proof (dll_length _ _ _ Hdll) as Hlen.
  destruct Hdll as (Hc & Hhd & Htl & Hll & Hnd).
  assert (NoDup (q ++ [p])) as Hnd'.
  { apply NoDup_app. split; [done|]. split; [|apply NoDup_singleton].
    intros x Hx Hx'%list_elem_of_singleton. by subst. }
  assert (length (q ++ [p]) ≤ length h)%nat as Hlen'.
  { assert (q ++ [p] ⊆+ seq 0 (length h)) as Hsub.
    { apply NoDup_submseteq; [done|]. intros x Hx.
      apply elem_of_seq. split; [lia|]. simpl.
      apply elem_of_app in Hx as [Hx|Hx%list_elem_of_singleton].
      - destruct (chain_valid _ _ _ _ Hc Hx) as [ex Hex].
        by apply lookup_lt_Some in Hex.
      - subst. by apply lookup_lt_Some in He. }
    apply submseteq_length in Hsub. by rewrite length_seq in Hsub. }
  rewrite length_app in Hlen'. simpl in Hlen'.
  assert (int64 (llen l + 1) = Z.of_nat (length (q ++ [p]))) as Hl'.
  { rewrite Hll, int64_small; rewrite ?length_app; simpl length; lia. }
  pose proof (lookup_lt_Some _ _ _ He) as Hplt.
  unfold pushBack. rewrite (modify_valid p _ h e He). simpl.
  erewrite modify_valid; [|by apply list_lookup_insert_eq].
  simpl. rewrite list_insert_insert_eq.
  set (e' := set_next None (set_prev (ltail l) e)).
  destruct (ltail l) as [t|] eqn:Htail.
  - symmetry in Htl. pose proof (last_elem _ _ Htl) as Htq.
    assert (t ≠ p) as Htp by (by intros ->).
    destruct (chain_valid _ _ _ _ Hc Htq) as [et Het].
    erewrite modify_valid; [|by rewrite list_lookup_insert_ne].
    simpl. eexists _, _. split; [done|]. split.
    + split; [|split; [|split; [|split; [done|done]]]]; simpl.
      * eapply chain_snoc; try done.
        -- rewrite list_lookup_insert_ne by done.
           by apply list_lookup_insert_eq.
        -- by rewrite Htl.
        -- done.
        -- intros x ex Hx Hex. rewrite Htl.
           destruct (decide (Some t = Some x)) as [[= <-]|Hne].
           ++ assert (ex = et) as -> by congruence.
              apply list_lookup_insert_eq. rewrite length_insert.
              by eapply lookup_lt_Some.
           ++ rewrite !list_lookup_insert_ne; [done| |].
              ** by intros ->.
              ** intros ->. by apply Hne.
      * rewrite Hhd. destruct q; [done|done].
      * by rewrite last_snoc.
    + intros x Hx. rewrite !list_lookup_insert_ne; [done| |].
      * intros ->. apply Hx, list_elem_of_here.
      * intros ->. apply Hx. by apply list_elem_of_further.
  - assert (q = []) as ->.
    { destruct q as [|y r'] using rev_ind; [done|].
      by rewrite last_snoc in Htl. }
    simpl. eexists _, _. split; [done|]. split.
    + split; [|done]. simpl. exists e'.
      split; [by apply list_lookup_insert_eq|done].
    + intros x Hx. apply list_lookup_insert_ne.
      intros ->. apply Hx, list_elem_of_here.
Qed.

Lemma relinked_retagged p h h' : relinked h h' → retagged id p h h'.
Proof. intros [Hl Hr]. split; [done|]. split; eauto. Qed.

Lemma modify_retagged f p h h' :
  modify p f h = Ok h' → retagged f p h h'.
Proof.
  intros (e & He & ->)%modify_Ok. split; [apply length_insert|]. split.
  - intros e1 He1. assert (e1 = e) as -> by congruence. exists (f e).
    split; [|done]. apply list_lookup_insert_eq. by eapply lookup_lt_Some.
  - intros x e1 Hx He1. exists e1. by rewrite list_lookup_insert_ne.
Qed.

Lemma retagged_trans f g p h1 h2 h3 :
  strip_congr g →
  retagged f p h1 h2 → retagged g p h2 h3 → retagged (g ∘ f) p h1 h3.
Proof.
  intros Hg (Hl1 & Hp1 & Hx1) (Hl2 & Hp2 & Hx2).
  split; [congruence|]. split.
  - intros e He. destruct (Hp1 e He) as (e1 & He1 & Hs1).
    destruct (Hp2 e1 He1) as (e2 & He2 & Hs2).
    exists e2. split; [done|]. rewrite Hs2. by apply Hg.
  - intros x e Hx He. destruct (Hx1 x e Hx He) as (e1 & He1 & Hs1).
    destruct (Hx2 x e1 Hx He1) as (e2 & He2 & Hs2).
    exists e2. split; [done|]. congruence.
Qed.

Lemma strip_congr_id : strip_congr (@id entryT).
Proof. by intros a b. Qed.

Lemma strip_congr_set_freq x : strip_congr (set_freq (K:=K) (V:=V) x).
Proof. intros [] [] [=]. simpl in *. by subst. Qed.
Lemma strip_congr_set_peakFreq x : strip_congr (set_peakFreq (K:=K) (V:=V) x).
Proof. intros [] [] [=]. simpl in *. by subst. Qed.
Lemma strip_congr_set_inSmall x : strip_congr (set_inSmall (K:=K) (V:=V) x).
Proof. intros [] [] [=]. simpl in *. by subst. Qed.
Lemma strip_congr_set_onDeathRow x :
  strip_congr (set_onDeathRow (K:=K) (V:=V) x).
Proof. intros [] [] [=]. simpl in *. by subst. Qed.

Lemma strip_congr_compose (f g : entryT → entryT) :
  strip_congr f → strip_congr g → strip_congr (g ∘ f).
Proof. intros Hf Hg a b Hab. simpl. by apply Hg, Hf. Qed.

End Queues.

(** ** One turn of the eviction loops *)

Section Eviction.

Context {K : Type} `{Countable K} {V : Type}.
Context {B : Type} `{BloomFilter B}.
Variable zeroV : V.
Variable hasher : K → N.

#[local] Abbreviation entryT := (entry (K:=K) (V:=V)).
#[local] Abbreviation shardT := (shard (K:=K) (V:=V) (B:=B)).
Implicit Types (h : list entryT) (e : entryT) (s : shardT)
  (q : list ptr).

(** Unlinking the head of one list leaves the other list alone. *)
Lemma unlink_head h la lb p qa qb :
  dll h la (p :: qa) → dll h lb qb → (∀ x, x ∈ p :: qa → x ∉ qb) →
  Z.of_nat (length h) < 2 ^ 63 - 1 →
  ∃ la' h1, remove la p h = Ok (la', h1)
    ∧ dll h1 la' qa ∧ dll h1 lb qb ∧ relinked h h1.
Proof.
  intros Ha Hb Hdis Hbound.
  destruct (remove_head h la p qa Ha Hbound) as (la' & h1 & Hrm & Ha' & Hfr & _).
  exists la', h1. split; [done|]. split; [done|]. split.
  - eapply dll_frame_eq; [done|]. intros x Hx. apply Hfr.
    intros Hx'. by apply (Hdis x).
  - by eapply remove_relinked.
Qed.

(** Linking an entry at the tail of one list leaves the other alone. *)
Lemma link_tail h la lb p qa qb :
  dll h la qa → dll h lb qb → p ∉ qa → p ∉ qb → (∀ x, x ∈ qa → x ∉ qb) →
  is_Some (h !! p) → Z.of_nat (length h) < 2 ^ 63 - 1 →
  ∃ lb' h1, pushBack lb p h = Ok (lb', h1)
    ∧ dll h1 la qa ∧ dll h1 lb' (qb ++ [p]) ∧ relinked h h1.
Proof.
  intros Ha Hb Hpa Hpb Hdis [e He] Hbound.
  destruct (pushBack_tail h lb qb p e Hb Hpb He Hbound)
    as (lb' & h1 & Hpush & Hb' & Hfr).
  exists lb', h1. split; [done|]. split; [|split; [done|]].
  - eapply dll_frame_eq; [done|]. intros x Hx. apply Hfr.
    intros [->|Hx']%elem_of_cons; [done|]. by apply (Hdis x).
  - by eapply pushBack_relinked.
Qed.

Lemma relinked_valid h h' p : relinked h h' → is_Some (h !! p) → is_Some (h' !! p).
Proof. intros [_ Hr] [e He]. destruct (Hr p e He) as (e1 & He1 & _). eauto. Qed.

Lemma modify_exists p (f : entryT → entryT) h :
  is_Some (h !! p) → ∃ h', modify p f h = Ok h'.
Proof. intros [e He]. eexists. by apply modify_valid. Qed.

Lemma modify_is_Some p x (f : entryT → entryT) h h' :
  modify p f h = Ok h' → is_Some (h !! x) → is_Some (h' !! x).
Proof.
  intros (e & He & ->)%modify_Ok Hx.
  apply lookup_lt_is_Some. rewrite length_insert. by apply lookup_lt_is_Some.
Qed.

(** What [moved] asks of the memory follows from a retagging. *)
Lemma retagged_moved s s' p f e :
  set_mem [] (set_small emptyList (set_main emptyList s'))
  = set_mem [] (set_small emptyList (set_main emptyList s)) →
  mem s !! p = Some e → retagged f p (mem s) (mem s') →
  moved s s' p (f e).
Proof.
  intros Heq He (Hl & Hp & Hx). split; [done|]. split; [done|].
  split; [by apply Hp|]. done.
Qed.

Lemma retagged_ext (f g : entryT → entryT) p h h' :
  (∀ e, f e = g e) → retagged f p h h' → retagged g p h h'.
Proof.
  intros Hfg (Hl & Hp & Hx). split; [done|]. split; [|done].
  intros e He. rewrite <- Hfg. by apply Hp.
Qed.

(** Two stores through the same pointer. *)
Lemma modify_modify p (f g : entryT → entryT) h :
  modify p f h ≫= modify p g = modify p (g ∘ f) h.
Proof.
  unfold modify, deref. destruct (h !! p) as [e|] eqn:He; simpl; [|done].
  rewrite list_lookup_insert_eq by by eapply lookup_lt_Some.
  simpl. by rewrite list_insert_insert_eq.
Qed.

(** Relinking around a store: unlink, store, link. *)
Lemma retagged_sandwich (f : entryT → entryT) p h h1 h2 h3 :
  strip_congr f →
  relinked h h1 → modify p f h1 = Ok h2 → relinked h2 h3 →
  retagged f p h h3.
Proof.
  intros Hf H1 H2 H3.
  apply (relinked_retagged p) in H1, H3. apply modify_retagged in H2.
  pose proof (retagged_trans _ _ _ _ _ _ Hf H1 H2) as H12.
  pose proof (retagged_trans _ _ _ _ _ _ strip_congr_id H12 H3) as H13.
  by eapply retagged_ext; [|exact H13].
Qed.

(** The head of one list is unlinked, stored into, and linked at the
    tail of the other list. *)
Lemma transfer (f : entryT → entryT) h la lb p qa qb :
  dll h la (p :: qa) → dll h lb qb → (∀ x, x ∈ p :: qa → x ∉ qb) →
  Z.of_nat (length h) < 2 ^ 63 - 1 →
  (∀ e, prev (f e) = prev e ∧ next (f e) = next e) → strip_congr f →
  ∃ la' h1 h2 lb' h3,
    remove la p h = Ok (la', h1) ∧ modify p f h1 = Ok h2
    ∧ pushBack lb p h2 = Ok (lb', h3)
    ∧ dll h3 la' qa ∧ dll h3 lb' (qb ++ [p]) ∧ retagged f p h h3.
Proof.
  intros Ha Hb Hdis Hbound Hlinks Hf.
  assert (is_Some (h !! p)) as Hp.
  { destruct Ha as (Hc & _). eapply chain_valid; [done|]. apply list_elem_of_here. }
  assert (p ∉ qa) as Hpa.
  { destruct Ha as (_ & _ & _ & _ & Hnd). by apply NoDup_cons in Hnd as []. }
  destruct (unlink_head _ _ _ _ _ _ Ha Hb Hdis Hbound)
    as (la' & h1 & Hrm & Ha1 & Hb1 & Hr1).
  pose proof (relinked_valid _ _ p Hr1 Hp) as Hp1.
  destruct (modify_exists p f h1 Hp1) as [h2 Hh2].
  pose proof (dll_modify _ _ _ _ _ _ Hlinks Hh2 Ha1) as Ha2.
  pose proof (dll_modify _ _ _ _ _ _ Hlinks Hh2 Hb1) as Hb2.
  destruct (link_tail h2 la' lb p qa qb) as (lb' & h3 & Hpush & Ha3 & Hb3 & Hr3);
    try done.
  - apply Hdis, list_elem_of_here.
  - intros x Hx. by apply Hdis, list_elem_of_further.
  - by eapply modify_is_Some.
  - apply modify_length in Hh2. destruct Hr1 as [Hl1 _]. lia.
  - exists la', h1, h2, lb', h3. repeat (split; [done|]).
    by eapply retagged_sandwich.
Qed.

(** The head of a list is unlinked, stored into, and linked at the tail
    of the same list. *)
Lemma recycle (f : entryT → entryT) h la lb p qa qb :
  dll h la (p :: qa) → dll h lb qb → (∀ x, x ∈ p :: qa → x ∉ qb) →
  Z.of_nat (length h) < 2 ^ 63 - 1 →
  (∀ e, prev (f e) = prev e ∧ next (f e) = next e) → strip_congr f →
  ∃ la' h1 h2 la'' h3,
    remove la p h = Ok (la', h1) ∧ modify p f h1 = Ok h2
    ∧ pushBack la' p h2 = Ok (la'', h3)
    ∧ dll h3 la'' (qa ++ [p]) ∧ dll h3 lb qb ∧ retagged f p h h3.
Proof.
  intros Ha Hb Hdis Hbound Hlinks Hf.
  assert (is_Some (h !! p)) as Hp.
  { destruct Ha as (Hc & _). eapply chain_valid; [done|]. apply list_elem_of_here. }
  assert (p ∉ qa) as Hpa.
  { destruct Ha as (_ & _ & _ & _ & Hnd). by apply NoDup_cons in Hnd as []. }
  destruct (unlink_head _ _ _ _ _ _ Ha Hb Hdis Hbound)
    as (la' & h1 & Hrm & Ha1 & Hb1 & Hr1).
  pose proof (relinked_valid _ _ p Hr1 Hp) as Hp1.
  destruct (modify_exists p f h1 Hp1) as [h2 Hh2].
  pose proof (dll_modify _ _ _ _ _ _ Hlinks Hh2 Ha1) as Ha2.
  pose proof (dll_modify _ _ _ _ _ _ Hlinks Hh2 Hb1) as Hb2.
  destruct (link_tail h2 lb la' p qb qa) as (la'' & h3 & Hpush & Hb3 & Ha3 & Hr3);
    try done.
  - apply Hdis, list_elem_of_here.
  - intros x Hx Hx'. by apply (Hdis x); [apply list_elem_of_further|].
  - by eapply modify_is_Some.
  - apply modify_length in Hh2. destruct Hr1 as [Hl1 _]. lia.
  - exists la', h1, h2, la'', h3. repeat (split; [done|]).
    by eapply retagged_sandwich.
Qed.

Lemma modify_split p (f g : entryT → entryT) h h2 :
  modify p (g ∘ f) h = Ok h2 →
  ∃ hx, modify p f h = Ok hx ∧ modify p g hx = Ok h2.
Proof.
  rewrite <- modify_modify. intros Hm. bind_inv Hm as hx Hx. eauto.
Qed.

Lemma queues_head_main s sq mq p e :
  queues s sq (p :: mq) → mem s !! p = Some e →
  (0 <? llen (main s)) = true ∧ headEntry (main s) (mem s) = Ok (p, e).
Proof.
  intros (_ & (_ & Hhd & _ & Hll & _) & _) He. split.
  - apply Z.ltb_lt. rewrite Hll. simpl length. lia.
  - by apply headEntry_Ok.
Qed.

Lemma queues_head_small s sq mq p e :
  queues s (p :: sq) mq → mem s !! p = Some e →
  (0 <? llen (small s)) = true ∧ headEntry (small s) (mem s) = Ok (p, e).
Proof.
  intros ((_ & Hhd & _ & Hll & _) & _ & _) He. split.
  - apply Z.ltb_lt. rewrite Hll. simpl length. lia.
  - by apply headEntry_Ok.
Qed.

(** Main's head is cold and was once hot: it is demoted to Small. *)
Lemma evictFromMain_demote n s sq mq p e :
  mem_bound s → queues s sq (p :: mq) → mem s !! p = Some e →
  freq e = 0%N → (4 <= peakFreq e)%N →
  ∃ s', evictFromMain (S n) s = Ok s'
    ∧ queues s' (sq ++ [p]) mq
    ∧ moved s s' p (set_inSmall true (set_freq 1 e)).
Proof.
  intros Hbound Hq He Hf Hpk.
  destruct (queues_head_main _ _ _ _ _ Hq He) as [Hlen Hhd].
  destruct Hq as (Hs & Hm & Hdis).
  destruct (transfer (set_inSmall true ∘ set_freq 1)
              (mem s) (main s) (small s) p mq sq) as
    (l1 & h1 & h2 & l3 & h3 & Hrm & Hmod & Hpush & Hm3 & Hs3 & Hret);
    try done.
  { intros x Hx Hx'. by apply (Hdis x). }
  { apply strip_congr_compose;
      [apply strip_congr_set_freq|apply strip_congr_set_inSmall]. }
  apply modify_split in Hmod as (hx & Hx1 & Hx2).
  destruct (relinked_valid _ _ p (remove_relinked _ _ _ _ _ Hrm)
              (ex_intro _ e He)) as [e1 He1].
  destruct (relinked_counters _ _ _ _ _ (remove_relinked _ _ _ _ _ Hrm) He He1)
    as [_ Hpk1].
  eexists. split; [|split].
  - simpl. rewrite Hlen, Hhd. simpl. rewrite Hf. simpl. rewrite Hrm. simpl.
    rewrite (proj2 (deref_Ok _ _ _) He1). simpl.
    rewrite Hpk1, (proj2 (N.leb_le _ _) Hpk).
    rewrite Hx1. simpl. rewrite Hx2. simpl. rewrite Hpush. simpl. done.
  - split; [done|]. split; [done|]. simpl.
    intros x [Hx|Hx%list_elem_of_singleton]%elem_of_app.
    + intros Hx'. apply (Hdis x Hx). by apply list_elem_of_further.
    + subst. destruct Hm as (_ & _ & _ & _ & Hnd).
      by apply NoDup_cons in Hnd as [].
  - by apply (retagged_moved _ _ _ (set_inSmall true ∘ set_freq 1)).
Qed.

(** Main's head is cold and was never hot: it goes to death row. *)
Lemma evictFromMain_cold n s sq mq p e :
  mem_bound s → queues s sq (p :: mq) → mem s !! p = Some e →
  freq e = 0%N → (peakFreq e < 4)%N →
  ∃ s1, queues s1 sq mq ∧ moved s s1 p e
    ∧ evictFromMain (S n) s = sendToDeathRow p s1.
Proof.
  intros Hbound Hq He Hf Hpk.
  destruct (queues_head_main _ _ _ _ _ Hq He) as [Hlen Hhd].
  destruct Hq as (Hs & Hm & Hdis).
  destruct (unlink_head (mem s) (main s) (small s) p mq sq)
    as (l1 & h1 & Hrm & Hm1 & Hs1 & Hr1); try done.
  { intros x Hx Hx'. by apply (Hdis x). }
  destruct (relinked_valid _ _ p Hr1 (ex_intro _ e He)) as [e1 He1].
  destruct (relinked_counters _ _ _ _ _ Hr1 He He1) as [_ Hpk1].
  exists (set_main l1 (set_mem h1 s)). split; [|split].
  - split; [done|]. split; [done|]. simpl.
    intros x Hx Hx'. apply (Hdis x Hx). by apply list_elem_of_further.
  - apply (retagged_moved _ _ _ id); [done|done|].
    by apply relinked_retagged.
  - simpl. rewrite Hlen, Hhd. simpl. rewrite Hf. simpl. rewrite Hrm. simpl.
    rewrite (proj2 (deref_Ok _ _ _) He1). simpl.
    rewrite Hpk1. by rewrite (proj2 (N.leb_gt _ _) Hpk).
Qed.

(** Main's head is warm: it gets a second chance and the loop goes on. *)
Lemma evictFromMain_warm n s sq mq p e :
  mem_bound s → queues s sq (p :: mq) → mem s !! p = Some e →
  freq e ≠ 0%N → (freq e < 2 ^ 32)%N →
  ∃ s1, queues s1 sq (mq ++ [p]) ∧ moved s s1 p (set_freq (freq e - 1) e)
    ∧ evictFromMain (S n) s = evictFromMain n s1.
Proof.
  intros Hbound Hq He Hf Hf32.
  destruct (queues_head_main _ _ _ _ _ Hq He) as [Hlen Hhd].
  destruct Hq as (Hs & Hm & Hdis).
  destruct (recycle (set_freq (freq e - 1))
              (mem s) (main s) (small s) p mq sq) as
    (l1 & h1 & h2 & l3 & h3 & Hrm & Hmod & Hpush & Hm3 & Hs3 & Hret);
    try done.
  { intros x Hx Hx'. by apply (Hdis x). }
  { apply strip_congr_set_freq. }
  exists (set_main l3 (set_mem h3 s)). split; [|split].
  - split; [done|]. split; [done|]. simpl.
    intros x Hx [Hx'|Hx'%list_elem_of_singleton]%elem_of_app.
    + apply (Hdis x Hx). by apply list_elem_of_further.
    + subst. apply (Hdis p Hx), list_elem_of_here.
  - by apply (retagged_moved _ _ _ (set_freq (freq e - 1))).
  - simpl. rewrite Hlen, Hhd. simpl.
    rewrite (proj2 (N.eqb_neq _ _) Hf). rewrite Hrm. simpl.
    rewrite uint32_small by lia. rewrite Hmod. simpl. by rewrite Hpush.
Qed.

(** [addToGhost] touches the ghost queue only, and what it stores there
    depends on the ghost queue and its capacity only. *)
Lemma addToGhost_keeps hsh peak s :
  mem (addToGhost hsh peak s) = mem s
  ∧ entries (addToGhost hsh peak s) = entries s
  ∧ small (addToGhost hsh peak s) = small s
  ∧ main (addToGhost hsh peak s) = main s
  ∧ deathRow (addToGhost hsh peak s) = deathRow s
  ∧ deathRowPos (addToGhost hsh peak s) = deathRowPos s
  ∧ totalEntries (addToGhost hsh peak s) = totalEntries s
  ∧ ghostCap (addToGhost hsh peak s) = ghostCap s
  ∧ capacity (addToGhost hsh peak s) = capacity s
  ∧ smallThresh (addToGhost hsh peak s) = smallThresh s
  ∧ warmupComplete (addToGhost hsh peak s) = warmupComplete s
  ∧ pcapacity (addToGhost hsh peak s) = pcapacity s.
Proof.
  unfold addToGhost.
  destruct (negb (Contains (ghostActive s) hsh));
    match goal with |- context [if ?c then _ else _] => destruct c end; done.
Qed.

Lemma addToGhost_ghost hsh peak s s0 :
  ghost s = ghost s0 → ghostCap s = ghostCap s0 →
  ghost (addToGhost hsh peak s) = ghost (addToGhost hsh peak s0).
Proof.
  unfold ghost, addToGhost. intros [= Ha Hg Hr] Hc. rewrite Ha, Hg, Hr.
  destruct (negb (Contains (ghostActive s0) hsh)); simpl; rewrite ?Hc, ?Ha.
  - match goal with |- context [if ?c then _ else _] => destruct c end; done.
  - match goal with |- context [if ?c then _ else _] => destruct c end;
      simpl; by rewrite ?Ha, ?Hg, ?Hr.
Qed.

Lemma strip_fields e1 e2 :
  strip e1 = strip e2 →
  key e1 = key e2 ∧ hash e1 = hash e2 ∧ peakFreq e1 = peakFreq e2.
Proof.
  intros Hs.
  change (key (strip e1) = key (strip e2) ∧ hash (strip e1) = hash (strip e2)
          ∧ peakFreq (strip e1) = peakFreq (strip e2)).
  by rewrite Hs.
Qed.

Lemma dll_links h h' l q :
  dll h l q →
  (∀ x e, h !! x = Some e →
     ∃ e1, h' !! x = Some e1 ∧ prev e1 = prev e ∧ next e1 = next e) →
  dll h' l q.
Proof.
  intros (Hc & ?) Hfr. split; [|done].
  eapply chain_frame; [done|]. intros x e _. apply Hfr.
Qed.

(** What [sendToDeathRow] does to a shard: the entry lands in the slot
    at [deathRowPos] with [onDeathRow] set and the counter goes down; the
    entry that held the slot is evicted for good.  Small and Main and
    the links of every entry stay as they are. *)
Lemma sendToDeathRow_sends p s e old :
  mem s !! p = Some e → 0 <= deathRowPos s →
  deathRow s !! Z.to_nat (deathRowPos s) = Some old →
  (∀ o, old = Some o → is_Some (mem s !! o)) →
  ∃ s', sendToDeathRow p s = Ok s'
    ∧ small s' = small s ∧ main s' = main s
    ∧ condemned s s' p e old
    ∧ (∀ x ex, mem s !! x = Some ex →
         ∃ e1, mem s' !! x = Some e1 ∧ prev e1 = prev ex ∧ next e1 = next ex).
Proof.
  intros He Hpos Hslot Hold. unfold sendToDeathRow, slot.
  destruct (Z.ltb_spec (deathRowPos s) 0) as [|_]; [lia|].
  rewrite Hslot. rewrite res_bind_Ok. cbv beta iota.
  pose proof (lookup_lt_Some _ _ _ He) as Hlt.
  destruct old as [o|].
  - destruct (Hold o eq_refl) as [eo Heo].
    pose proof (lookup_lt_Some _ _ _ Heo) as Hlto.
    rewrite (proj2 (deref_Ok (mem s) o eo) Heo). rewrite res_bind_Ok. cbv beta iota zeta.
    destruct (addToGhost_keeps (hash eo) (peakFreq eo)
                (set_entries (delete (key eo) (entries s)) s))
      as (Gm & Ge & Gs & Gmn & Gd & Gp & Gt & Gc & Gcap & Gth & Gw & Gpc).
    simpl in Gm, Ge, Gs, Gmn, Gd, Gp, Gt, Gc, Gcap, Gth, Gw, Gpc.
    set (sd := set_entries (delete (key eo) (entries s)) s) in *.
    assert (ghost (addToGhost (hash eo) (peakFreq eo) sd)
            = ghost (addToGhost (hash eo) (peakFreq eo) s)) as Gg
      by (by apply addToGhost_ghost).
    set (sg := addToGhost (hash eo) (peakFreq eo) sd) in *.
    assert (mem sg !! o = Some eo) as Heo' by (by rewrite Gm).
    rewrite (modify_valid o (set_onDeathRow false) (mem sg) eo Heo').
    rewrite res_bind_Ok. cbv beta iota.
    set (h1 := <[o := set_onDeathRow false eo]> (mem sg)).
    set (e' := if decide (o = p) then set_onDeathRow false e else e).
    assert (h1 !! p = Some e') as He'.
    { unfold h1, e'. rewrite Gm. destruct (decide (o = p)) as [->|Hne].
      - rewrite list_lookup_insert_eq by done. congruence.
      - by rewrite list_lookup_insert_ne. }
    rewrite res_bind_Ok. cbv beta iota.
    change (mem (set_mem h1 sg)) with h1.
    rewrite (modify_valid p (set_onDeathRow true) h1 e' He').
    rewrite res_bind_Ok. cbv beta iota zeta.
    eexists. split; [done|]. simpl.
    assert (length h1 = length (mem s)) as Hl1.
    { unfold h1. by rewrite length_insert, Gm. }
    split; [done|]. split; [done|]. split.
    + unfold condemned. simpl. rewrite Gd, Gp, Gt, Ge, Gc, Gcap, Gth, Gw, Gpc.
      split; [done|]. split; [done|]. split; [done|]. split.
      { eexists. split; [apply list_lookup_insert_eq; lia|].
        unfold e'. by destruct (decide (o = p)). }
      split.
      { exists eo. split; [done|]. split; [done|]. split; [done|].
        intros Hne. exists (set_onDeathRow false eo). split; [|done].
        rewrite list_lookup_insert_ne by done. unfold h1.
        apply list_lookup_insert_eq. by rewrite Gm. }
      split; [by rewrite length_insert|].
      split; [|done].
      intros x ex Hxp Hxo Hx. exists ex. split; [|done].
      rewrite list_lookup_insert_ne by done. unfold h1.
      rewrite list_lookup_insert_ne by congruence. by rewrite Gm.
    + intros x ex Hx. destruct (decide (x = p)) as [->|Hxp].
      * eexists. split; [apply list_lookup_insert_eq; lia|].
        assert (ex = e) as -> by congruence.
        unfold e'. by destruct (decide (o = p)).
      * rewrite list_lookup_insert_ne by done. unfold h1.
        destruct (decide (x = o)) as [->|Hxo].
        -- eexists. split; [apply list_lookup_insert_eq; by rewrite Gm|].
           assert (ex = eo) as -> by congruence. done.
        -- exists ex. rewrite list_lookup_insert_ne by done. by rewrite Gm.
  - rewrite res_bind_Ok. cbv beta iota.
    rewrite (modify_valid p (set_onDeathRow true) (mem s) e He).
    rewrite res_bind_Ok. cbv beta iota zeta.
    eexists. split; [done|]. simpl.
    split; [done|]. split; [done|]. split.
    + unfold condemned. simpl.
      split; [done|]. split; [done|]. split; [done|]. split.
      { eexists. split; [apply list_lookup_insert_eq; lia|done]. }
      split; [done|]. split; [by rewrite length_insert|]. split; [|done].
      intros x ex Hxp _ Hx. exists ex. by rewrite list_lookup_insert_ne.
    + intros x ex Hx. destruct (decide (x = p)) as [->|Hxp].
      * eexists. split; [apply list_lookup_insert_eq; lia|].
        by assert (ex = e) as -> by congruence.
      * exists ex. by rewrite list_lookup_insert_ne.
Qed.

(** Sending to death row after the entry was unlinked from its queue. *)
Lemma condemned_moved s s1 s' p e e1 old :
  moved s s1 p e → mem s !! p = Some e →
  mem s1 !! p = Some e1 → strip e1 = strip e →
  (∀ o, old = Some o → is_Some (mem s !! o)) →
  condemned s1 s' p e1 old → condemned s s' p e old.
Proof.
  intros (Hfr & Hlen & _ & Hoth) He He1 Hs1 Hold.
  assert (deathRow s1 = deathRow s ∧ deathRowPos s1 = deathRowPos s
          ∧ totalEntries s1 = totalEntries s ∧ entries s1 = entries s
          ∧ ghost s1 = ghost s ∧ ghostCap s1 = ghostCap s
          ∧ capacity s1 = capacity s ∧ smallThresh s1 = smallThresh s
          ∧ warmupComplete s1 = warmupComplete s ∧ pcapacity s1 = pcapacity s)
    as (Ed & Ep & Et & Ee & Eg & Ec & Ecap & Eth & Ew & Epc).
  { unfold ghost. destruct s, s1. simpl in *. injection Hfr as <-.
    repeat split; congruence. }
  intros (Cd & Cp & Ct & (ep & Hep & Hsp) & Cold & Cl & Cx
          & Cg & Cc & Cth & Cw & Cpc).
  unfold condemned. rewrite <- Ed, <- Ep, <- Et.
  split; [done|]. split; [done|]. split; [done|]. split.
  { exists ep. split; [done|]. rewrite Hsp.
    by apply (strip_congr_set_onDeathRow true). }
  split.
  { destruct old as [o|]; [|destruct Cold; split; congruence].
    destruct Cold as (eo1 & Heo1 & Cent & Cgh & Cflag).
    destruct (Hold o eq_refl) as [eo Heo].
    assert (strip eo1 = strip eo) as Hso.
    { destruct (decide (o = p)) as [->|Hne]; [congruence|].
      destruct (Hoth o eo Hne Heo) as (e2 & He2 & Hs2). congruence. }
    destruct (strip_fields _ _ Hso) as (Hk & Hh & Hpk).
    exists eo. split; [done|]. split; [congruence|]. split.
    - rewrite Cgh, Hh, Hpk. by apply addToGhost_ghost.
    - intros Hne. destruct (Cflag Hne) as (e2 & He2 & Hs2).
      exists e2. split; [done|]. rewrite Hs2.
      by apply (strip_congr_set_onDeathRow false). }
  split; [congruence|]. split; [|repeat split; congruence].
  intros x ex Hxp Hxo Hx.
  destruct (Hoth x ex Hxp Hx) as (e2 & He2 & Hs2).
  destruct (Cx x e2 Hxp Hxo He2) as (e3 & He3 & Hs3).
  exists e3. split; [done|]. congruence.
Qed.

(** A cold head, once unlinked, goes to death row and eviction stops. *)
Lemma unlinked_to_death_row s s1 sq mq p e old :
  queues s1 sq mq → moved s s1 p e → mem s !! p = Some e →
  0 <= deathRowPos s →
  deathRow s !! Z.to_nat (deathRowPos s) = Some old →
  (∀ o, old = Some o → is_Some (mem s !! o)) →
  ∃ s', sendToDeathRow p s1 = Ok s' ∧ queues s' sq mq
    ∧ condemned s s' p e old.
Proof.
  intros (Hs & Hm & Hdis) Hmv He Hpos Hslot Hold.
  pose proof Hmv as (Hfr & Hlen & (e1 & He1 & Hs1) & Hoth).
  assert (deathRow s1 = deathRow s ∧ deathRowPos s1 = deathRowPos s)
    as [Ed Ep].
  { destruct s, s1. simpl in *. injection Hfr as <-. split; congruence. }
  assert (∀ o, old = Some o → is_Some (mem s1 !! o)) as Hold1.
  { intros o Ho. apply lookup_lt_is_Some. rewrite Hlen.
    apply lookup_lt_is_Some. by apply Hold. }
  destruct (sendToDeathRow_sends p s1 e1 old)
    as (s' & Hsend & Hsm & Hmn & Hc & Hlinks); try done; try congruence.
  exists s'. split; [done|]. split.
  - split; [|split; [|done]].
    + rewrite Hsm. by eapply dll_links.
    + rewrite Hmn. by eapply dll_links.
  - by eapply condemned_moved.
Qed.

(** C5: one turn of [evictFromMain] on a non-empty Main, by the
    counters of the head entry [e] at [p]: cold and once hot
    ([freq = 0], [peakFreq ≥ 4]), it moves to Small's tail with
    [freq = 1] and [inSmall] set, and the procedure stops; cold and never
    hot, it is unlinked and sent to death row, and the procedure stops:
    whatever the fuel, the call returns a shard in which the entry has
    left Main and sits in the death-row slot at [deathRowPos] with
    [onDeathRow] set, [totalEntries] is one less, and the entry [old]
    that held the slot is evicted for good ([condemned]); warm
    ([freq > 0]), it moves to Main's tail with [freq - 1] and the loop
    continues.  In the code death row is an array of pointers and
    [deathRowPos] an index of it; here, for the death-row case, the
    position is a valid index of [deathRow] and the slot's occupant, if
    any, is an entry of the memory, as [shard_inv] has it. *)
Theorem evictFromMain_turn n s sq mq p e :
  mem_bound s → queues s sq (p :: mq) → mem s !! p = Some e →
  (freq e < 2 ^ 32)%N →
  (freq e = 0%N → (4 <= peakFreq e)%N →
     ∃ s', evictFromMain (S n) s = Ok s'
       ∧ queues s' (sq ++ [p]) mq
       ∧ moved s s' p (set_inSmall true (set_freq 1 e)))
  ∧ (freq e = 0%N → (peakFreq e < 4)%N →
     ∀ old, 0 <= deathRowPos s →
       deathRow s !! Z.to_nat (deathRowPos s) = Some old →
       (∀ o, old = Some o → is_Some (mem s !! o)) →
       ∃ s', evictFromMain (S n) s = Ok s'
         ∧ queues s' sq mq
         ∧ condemned s s' p e old)
  ∧ ((0 < freq e)%N →
     ∃ s1, queues s1 sq (mq ++ [p])
       ∧ moved s s1 p (set_freq (freq e - 1) e)
       ∧ evictFromMain (S n) s = evictFromMain n s1).
Proof.
  intros Hbound Hq He Hf32. split; [|split].
  - by apply evictFromMain_demote.
  - intros Hf Hpk old Hpos Hslot Hold.
    destruct (evictFromMain_cold n s sq mq p e) as (s1 & Hq1 & Hmv & ->);
      try done.
    by eapply unlinked_to_death_row.
  - intros Hpos. apply evictFromMain_warm; try done. lia.
Qed.

(** Small's head is cold: it goes to death row. *)
Lemma evictFromSmall_cold n s sq mq p e :
  mem_bound s → queues s (p :: sq) mq → mem s !! p = Some e →
  (freq e < 2)%N →
  ∃ s1, queues s1 sq mq ∧ moved s s1 p e
    ∧ evictFromSmall (S n) s = sendToDeathRow p s1.
Proof.
  intros Hbound Hq He Hf.
  destruct (queues_head_small _ _ _ _ _ Hq He) as [Hlen Hhd].
  destruct Hq as (Hs & Hm & Hdis).
  destruct (unlink_head (mem s) (small s) (main s) p sq mq)
    as (l1 & h1 & Hrm & Hs1 & Hm1 & Hr1); try done.
  exists (set_small l1 (set_mem h1 s)). split; [|split].
  - split; [done|]. split; [done|]. simpl.
    intros x Hx. by apply Hdis, list_elem_of_further.
  - apply (retagged_moved _ _ _ id); [done|done|].
    by apply relinked_retagged.
  - simpl. rewrite Hlen, Hhd. simpl.
    rewrite (proj2 (N.ltb_lt _ _) Hf). by rewrite Hrm.
Qed.

(** Small's head is warm: it is promoted to Main, and the loop goes on,
    after [evictFromMain] when Main is over 90% of the capacity. *)
Lemma evictFromSmall_warm n s sq mq p e :
  mem_bound s → queues s (p :: sq) mq → mem s !! p = Some e →
  (2 <= freq e)%N →
  ∃ s1, queues s1 sq (mq ++ [p])
    ∧ moved s s1 p (set_inSmall false (set_freq 0 e))
    ∧ evictFromSmall (S n) s
      = (s2 ← (if Z.quot (int64 (capacity s * 9)) 10 <? llen (main s1)
               then evictFromMain n s1 else Ok s1);
         evictFromSmall n s2).
Proof.
  intros Hbound Hq He Hf.
  destruct (queues_head_small _ _ _ _ _ Hq He) as [Hlen Hhd].
  destruct Hq as (Hs & Hm & Hdis).
  destruct (transfer (set_inSmall false ∘ set_freq 0)
              (mem s) (small s) (main s) p sq mq) as
    (l1 & h1 & h2 & l3 & h3 & Hrm & Hmod & Hpush & Hs3 & Hm3 & Hret);
    try done.
  { apply strip_congr_compose;
      [apply strip_congr_set_freq|apply strip_congr_set_inSmall]. }
  apply modify_split in Hmod as (hx & Hx1 & Hx2).
  exists (set_main l3 (set_mem h3 (set_small l1 s))). split; [|split].
  - split; [done|]. split; [done|]. simpl.
    intros x Hx [Hx'|Hx'%list_elem_of_singleton]%elem_of_app.
    + by apply (Hdis x); [apply list_elem_of_further|].
    + subst. destruct Hs as (_ & _ & _ & _ & Hnd).
      by apply NoDup_cons in Hnd as [].
  - by apply (retagged_moved _ _ _ (set_inSmall false ∘ set_freq 0)).
  - simpl. rewrite Hlen, Hhd. simpl.
    rewrite (proj2 (N.ltb_ge _ _) Hf). rewrite Hrm. simpl.
    rewrite Hx1. simpl. rewrite Hx2. simpl. by rewrite Hpush.
Qed.

(** C4, amended: one turn of [evictFromSmall] on a non-empty Small, by
    the [freq] of the head entry [e] at [p]: below 2, it is unlinked and
    sent to death row, and the procedure stops: whatever the fuel, the
    call returns a shard in which the entry has left Small and sits in
    the death-row slot at [deathRowPos] with [onDeathRow] set,
    [totalEntries] is one less, and the entry [old] that held the slot
    is evicted for good ([condemned]); otherwise it moves to Main's tail
    with [freq = 0] and [inSmall] cleared, [evictFromMain] runs if Main
    is then over 90% of the capacity, and in both cases the loop
    continues with the next head of Small.  In the code death row is
    an array of pointers and [deathRowPos] an index of it; here, for the
    death-row case, the position is a valid index of [deathRow] and the
    slot's occupant, if any, is an entry of the memory, as [shard_inv]
    has it. *)
Theorem evictFromSmall_turn n s sq mq p e :
  mem_bound s → queues s (p :: sq) mq → mem s !! p = Some e →
  ((freq e < 2)%N →
     ∀ old, 0 <= deathRowPos s →
       deathRow s !! Z.to_nat (deathRowPos s) = Some old →
       (∀ o, old = Some o → is_Some (mem s !! o)) →
       ∃ s', evictFromSmall (S n) s = Ok s'
         ∧ queues s' sq mq
         ∧ condemned s s' p e old)
  ∧ ((2 <= freq e)%N →
     ∃ s1, queues s1 sq (mq ++ [p])
       ∧ moved s s1 p (set_inSmall false (set_freq 0 e))
       ∧ evictFromSmall (S n) s
         = (s2 ← (if Z.quot (int64 (capacity s * 9)) 10 <? llen (main s1)
                  then evictFromMain n s1 else Ok s1);
            evictFromSmall n s2)).
Proof.
  intros Hbound Hq He. split.
  - intros Hf old Hpos Hslot Hold.
    destruct (evictFromSmall_cold n s sq mq p e) as (s1 & Hq1 & Hmv & ->);
      try done.
    by eapply unlinked_to_death_row.
  - by apply evictFromSmall_warm.
Qed.

Lemma clearSlot_insert p (d : list (option ptr)) i :
  d !! i = Some (Some p) → (∀ j, d !! j = Some (Some p) → j = i) →
  clearSlot p d = <[i := None]> d.
Proof.
  revert i. induction d as [|x d IH]; intros i Hi Huniq; [done|]. simpl.
  destruct (decide (x = Some p)) as [->|Hx].
  - by rewrite <- (Huniq 0%nat eq_refl).
  - destruct i as [|i]; [by injection Hi|]. simpl. f_equal.
    apply IH; [done|]. intros j Hj. by injection (Huniq (S j) Hj).
Qed.

(** C6: a get on a key whose entry [e], at [p], is on death row (in
    slot [i], and in no queue) returns its value with found = true;
    afterwards slot [i] is nil, the cache's counter is one higher, Main
    holds the entry at its tail, and the entry has [onDeathRow] and
    [inSmall] false and [freq = peakFreq = 3]; nothing else changed. *)
Theorem get_resurrects k now s sq mq p e i :
  mem_bound s → queues s sq mq → p ∉ sq → p ∉ mq →
  entries s !! k = Some p → mem s !! p = Some e → onDeathRow e = true →
  deathRow s !! i = Some (Some p) →
  (∀ j, deathRow s !! j = Some (Some p) → j = i) →
  ∃ s', get zeroV k now s = Ok (s', (value e, true))
    ∧ deathRow s' = <[i := None]> (deathRow s)
    ∧ totalEntries s' = int64 (totalEntries s + 1)
    ∧ queues s' sq (mq ++ [p])
    ∧ moved (set_totalEntries (int64 (totalEntries s + 1))
               (set_deathRow (<[i := None]> (deathRow s)) (deathRowPos s) s))
            s' p
            (set_peakFreq 3 (set_freq 3
               (set_inSmall false (set_onDeathRow false e)))).
Proof.
  intros Hbound (Hs & Hm & Hdis) Hps Hpm Hk He Hrow Hi Huniq.
  set (f := set_peakFreq (K:=K) (V:=V) 3 ∘ set_freq 3 ∘ set_inSmall false
            ∘ set_onDeathRow false).
  assert (∀ e0, prev (f e0) = prev e0 ∧ next (f e0) = next e0) as Hlinks by done.
  assert (strip_congr f) as Hf.
  { repeat apply strip_congr_compose; auto using strip_congr_set_onDeathRow,
      strip_congr_set_inSmall, strip_congr_set_freq, strip_congr_set_peakFreq. }
  pose proof (modify_valid p f _ e He) as Hmod.
  set (h1 := <[p := f e]> (mem s)) in Hmod.
  pose proof (dll_modify _ _ _ _ _ _ Hlinks Hmod Hs) as Hs1.
  pose proof (dll_modify _ _ _ _ _ _ Hlinks Hmod Hm) as Hm1.
  destruct (link_tail h1 (small s) (main s) p sq mq)
    as (l2 & h2 & Hpush & Hs2 & Hm2 & Hr2); try done.
  { eapply modify_is_Some; [done|]. eauto. }
  { subst h1. rewrite length_insert. done. }
  pose proof (modify_retagged _ _ _ _ Hmod) as Hret1.
  pose proof (retagged_trans _ _ _ _ _ _ strip_congr_id Hret1
                (relinked_retagged p _ _ Hr2)) as Hret.
  apply (retagged_ext _ f) in Hret; [|done].
  destruct Hret as (Hl & Hp & Hx).
  destruct (Hp e He) as (e2 & He2 & Hs2').
  assert (value e2 = value e) as Hval.
  { change (value (strip e2) = value (strip (f e))). by rewrite Hs2'. }
  exists (set_totalEntries (int64 (totalEntries s + 1))
            (set_main l2 (set_mem h2
               (set_deathRow (<[i := None]> (deathRow s)) (deathRowPos s) s)))).
  split; [|split; [done|split; [done|split]]].
  - unfold get. rewrite Hk. rewrite (proj2 (deref_Ok _ _ _) He). simpl.
    rewrite Hrow. unfold resurrectFromDeathRow.
    rewrite Hk. rewrite (proj2 (deref_Ok _ _ _) He). simpl.
    rewrite Hrow. simpl. rewrite (clearSlot_insert _ _ _ Hi Huniq).
    unfold f in Hmod.
    apply modify_split in Hmod as (h3 & H1 & Hmod).
    apply modify_split in Hmod as (h4 & H2 & Hmod).
    apply modify_split in Hmod as (h5 & H3 & H4).
    rewrite H1. simpl. rewrite H2. simpl. rewrite H3. simpl.
    rewrite H4. simpl. rewrite Hpush. simpl.
    rewrite (proj2 (deref_Ok _ _ _) He2). simpl. by rewrite Hval.
  - split; [done|]. split; [done|]. simpl.
    intros x Hx' [Hx''|Hx''%list_elem_of_singleton]%elem_of_app.
    + by apply (Hdis x).
    + by subst.
  - split; [done|]. split; [done|]. split; [eauto|]. done.
Qed.

(** Following [next] only reads the [next] fields. *)
Lemma walk_next fuel h h' start :
  (∀ x, next <$> (h' !! x) = next <$> (h !! x)) →
  walk fuel h' start = walk fuel h start.
Proof.
  intros Hnext. revert start. induction fuel as [|n IH]; intros [x|]; simpl;
    try done.
  f_equal. specialize (Hnext x).
  destruct (h' !! x) as [e'|], (h !! x) as [e|]; simpl in Hnext; try done.
  injection Hnext as ->. apply IH.
Qed.

Lemma bump_fields e :
  bump e = set_peakFreq (peakFreq (bump e)) (set_freq (freq (bump e)) e).
Proof.
  unfold bump. destruct (freq e <? maxFreq)%N; [|by destruct e].
  simpl. destruct (peakFreq e <? _)%N; by destruct e.
Qed.

(** C10: a set of a key that is present only stores into the entry's
    [value], [expiryNano], [freq] and [peakFreq]: the shard is otherwise
    the same (the map, both queues, death row, the ghost, the counter),
    every other entry is untouched, the entry keeps its links and its
    [inSmall] and [onDeathRow] flags, and Small and Main link the same
    entries in the same order. *)
Theorem setWithHash_present fuel k v exp hsh s p e :
  entries s !! k = Some p → mem s !! p = Some e →
  let e' := bump (set_expiryNano exp (set_value v e)) in
  let s' := set_mem (<[p := e']> (mem s)) s in
  setWithHash hasher fuel k v exp hsh s = Ok s'
  ∧ e' = set_peakFreq (peakFreq e') (set_freq (freq e')
           (set_expiryNano exp (set_value v e)))
  ∧ linked (mem s') (small s') = linked (mem s) (small s)
  ∧ linked (mem s') (main s') = linked (mem s) (main s)
  ∧ entries s' = entries s ∧ deathRow s' = deathRow s
  ∧ totalEntries s' = totalEntries s.
Proof.
  intros Hk He e' s'.
  pose proof (lookup_lt_Some _ _ _ He) as Hlt.
  assert (setWithHash hasher fuel k v exp hsh s = Ok s') as Hset.
  { unfold setWithHash. rewrite Hk.
    rewrite (modify_valid p _ _ e He). simpl.
    erewrite modify_valid; [|by apply list_lookup_insert_eq]. simpl.
    erewrite modify_valid;
      [|apply list_lookup_insert_eq; by rewrite length_insert]. simpl.
    by rewrite !list_insert_insert_eq. }
  assert (∀ x, next <$> (<[p := e']> (mem s) !! x) = next <$> (mem s !! x))
    as Hnext.
  { intros x. destruct (decide (x = p)) as [->|Hne].
    - rewrite list_lookup_insert_eq, He by done. simpl.
      subst e'. by rewrite bump_fields.
    - by rewrite list_lookup_insert_ne. }
  split; [done|]. split.
  { subst e'. apply bump_fields. }
  unfold linked. subst s'. simpl. rewrite length_insert.
  by rewrite !(walk_next _ _ _ _ Hnext).
Qed.

End Eviction.


(** ** The checks that run are sound *)

Section Checks.

Context {K : Type} `{Countable K} {V : Type} {B : Type} `{BloomFilter B}.

Lemma chainb_sound (h : list (entry (K:=K) (V:=V))) pv q :
  chainb h pv q = true → chain h pv q.
Proof.
  revert pv. induction q as [|p r IH]; intros pv; simpl; [done|].
  destruct (h !! p) as [e|]; [|done].
  intros [[Hp%bool_decide_eq_true Hn%bool_decide_eq_true]%andb_true_iff
            Hc]%andb_true_iff.
  exists e. eauto.
Qed.

Lemma dllb_sound (h : list (entry (K:=K) (V:=V))) l q :
  dllb h l q = true → dll h l q.
Proof.
  unfold dllb, dll. rewrite !andb_true_iff, !bool_decide_eq_true.
  intros ((((Hc & ?) & ?) & ?) & ?). by apply chainb_sound in Hc.
Qed.

Lemma queuesb_sound (s : shard (K:=K) (V:=V) (B:=B)) sq mq :
  queuesb s sq mq = true → queues s sq mq.
Proof.
  unfold queuesb, queues. rewrite !andb_true_iff, bool_decide_eq_true.
  intros ((Hs%dllb_sound & Hm%dllb_sound) & Hdis).
  split; [done|]. split; [done|]. by apply Forall_forall.
Qed.

End Checks.

(** ** Runs of a cache of string keys *)

(** A cache smaller than 1024 entries has one shard, of its capacity. *)
Lemma numShards_small procs size :
  1 <= procs < 2 ^ 59 → 0 < size < 1024 →
  numShards procs size = 1 ∧ shardCap procs size = size.
Proof.
  intros Hp Hs. assert (numShards procs size = 1) as Hn.
  { unfold numShards. destruct (Z.leb_spec size 0); [lia|].
    rewrite int64_small by lia.
    rewrite (Z.quot_small size 1024) by lia.
    assert (0 <= Z.quot size 256) by (apply Z.quot_pos; lia).
    rewrite (Z.max_l 1 0) by lia.
    rewrite (Z.min_r _ 1) by lia. by rewrite (Z.min_l 1 2048) by lia. }
  split; [done|]. unfold shardCap. rewrite Hn.
  destruct (Z.leb_spec size 0); [lia|].
  rewrite (int64_small (size + 1)) by lia.
  rewrite int64_small by lia. rewrite Z.quot_1_r. lia.
Qed.

(** The fuel of [crun] is enough: a run returns or panics. *)
Lemma crun_returns ops s : freq_inv s → crun ops s ≠ OutOfFuel.
Proof. intros Hinv. apply run_returns; [done|lia]. Qed.

(** C1: in a cache of capacity 1, "a" is set with an expiry at 100ns and
    is pushed to death row by the set of "b"; a get of "a" at 200ns
    nevertheless returns its value with found = true. *)
Theorem expired_entry_on_death_row_is_found :
  let s := after ops_evicted cache1 in
  crun ops_evicted cache1 = Ok s
  ∧ entries s !! "a" = Some 0%nat
  ∧ expiryNano <$> mem s !! 0%nat = Some 100
  ∧ inDeathRow s 0 = true
  ∧ snd <$> get 0 "a" 200 s = Ok (11, true).
Proof. intros s. repeat apply conj; vm_compute; reflexivity. Qed.

(** C2: in a cache of capacity 1, after "a" and "b" are set every key
    has its entry in exactly one place, the entry of "a" being on death
    row; the delete of "a" then unlinks it from Small, where it is not:
    Small loses its head, and "b", still in the map, is left in none of
    Small, Main and death row. *)
Theorem delete_on_death_row_orphans :
  let s := after ops_evicted cache1 in
  let s' := after (ops_evicted ++ [OpDelete "a"]) cache1 in
  crun ops_evicted cache1 = Ok s
  ∧ homes_inv s
  ∧ entries s !! "a" = Some 0%nat ∧ inDeathRow s 0 = true
  ∧ delete_key "a" s = Ok s'
  ∧ entries s' !! "b" = Some 1%nat
  ∧ inSmallQ s' 1 = false ∧ inMainQ s' 1 = false ∧ inDeathRow s' 1 = false
  ∧ ¬ homes_inv s'.
Proof.
  intros s s'.
  assert (entries s' !! "b" = Some 1%nat) as Hb by (vm_compute; reflexivity).
  repeat apply conj; try (vm_compute; reflexivity).
  - apply map_Forall_to_list, (bool_decide_unpack _). vm_compute. exact I.
  - intros Hinv. specialize (Hinv "b" 1%nat Hb).
    vm_compute in Hinv. discriminate.
Qed.

(** After such a delete the engine can crash: in a cache of capacity 2
    this run ends in a nil dereference, in [evictFromSmall]. *)
Lemma delete_on_death_row_panics : crun ops_delete_panic cache2 = Panic.
Proof. vm_compute. reflexivity. Qed.

(** C3: in a cache of capacity 1, "a" and "b" are set and "a", then on
    death row, is read: warmup is over and two entries are live, one in
    Small and one in Main. *)
Theorem resurrection_exceeds_capacity :
  let s := after (ops_evicted ++ [cget "a" 0]) cache1 in
  crun (ops_evicted ++ [cget "a" 0]) cache1 = Ok s
  ∧ warmupComplete s = true ∧ pcapacity s = 1
  ∧ queuesb s [1%nat] [0%nat] = true
  ∧ liveCount s = 2 ∧ totalEntries s = 2.
Proof. intros s. repeat apply conj; vm_compute; reflexivity. Qed.

(** The demotion of a once-hot head of Main also adds an entry without
    evicting one: eleven live entries in a cache of capacity 10. *)
Lemma demotion_exceeds_capacity :
  let s := after ops_demoted cache10 in
  crun ops_demoted cache10 = Ok s
  ∧ warmupComplete s = true ∧ pcapacity s = 10
  ∧ liveCount s = 11 ∧ totalEntries s = 11.
Proof. intros s. repeat apply conj; vm_compute; reflexivity. Qed.

(** C4 as the specification states it fails: with the hot entry of "a" alone in Small of a
    cache of capacity 1, the promotion takes Main over 90% of the
    capacity and [evictFromMain] demotes the entry back to Small; the
    procedure does not stop there but sends it to death row. *)
Lemma evictFromSmall_goes_on :
  let s := after ops_hot cache1 in
  crun ops_hot cache1 = Ok s
  ∧ deathRow <$> evictFromSmall 8 s = Ok (Some 0%nat :: replicate 7 None)
  ∧ deathRow <$> evictFromSmall_spec 8 s = Ok (replicate 8 None)
  ∧ evictFromSmall 8 s ≠ evictFromSmall_spec 8 s.
Proof.
  intros s. repeat apply conj; try (vm_compute; reflexivity).
  intros Heq. apply (f_equal (fmap deathRow)) in Heq.
  vm_compute in Heq. discriminate.
Qed.

(** ** The theorems at work on the runs *)

(** C7 on the run [ops_hot]: the entry of "a" has [freq = peakFreq = 4]. *)
Lemma freq_bounds_after_run_witness :
  let e := entry_a 0 4 4 true false in
  (0 <= freq e <= 7)%N ∧ (freq e <= peakFreq e <= 7)%N.
Proof.
  intros e.
  apply (freq_bounds_after_run 0 wyhashString
           (7 * (0 + length ops_hot) + 8) ops_hot 1 1
           (after ops_hot cache1) "a" 0%nat e);
    vm_compute; reflexivity.
Defined.

(** C5 on the state after [ops_promoted]: Main's head, the entry of "a",
    is cold and never was hot, so it is sent to death row, into the
    free slot 1. *)
Lemma evictFromMain_turn_witness :
  let s := after ops_promoted cache2 in
  ∃ s', evictFromMain 1 s = Ok s'
    ∧ queues s' [2%nat] []
    ∧ condemned s s' 0 (entry_a 0 0 2 false false) None.
Proof.
  intros s.
  destruct (evictFromMain_turn 0 s [2%nat] [] 0%nat (entry_a 0 0 2 false false))
    as (_ & Hcold & _).
  - unfold mem_bound. vm_compute. reflexivity.
  - apply queuesb_sound. vm_compute. reflexivity.
  - vm_compute. reflexivity.
  - vm_compute. reflexivity.
  - apply Hcold.
    + vm_compute. reflexivity.
    + vm_compute. reflexivity.
    + vm_compute. discriminate.
    + vm_compute. reflexivity.
    + intros o Ho. discriminate Ho.
Defined.

(** C4, amended, on the state after [ops_hot]: Small's head, the entry
    of "a", is warm, so it is promoted and the loop goes on; and on the
    state after [ops_row_full]: Small's head, the entry of "k9", is
    cold, so it is sent to death row, into slot 0, and the entry of
    "k1", which held the slot, is evicted for good. *)
Lemma evictFromSmall_turn_witness :
  (let s := after ops_hot cache1 in
   ∃ s1, queues s1 [] [0%nat]
     ∧ moved s s1 0 (set_inSmall false (set_freq 0 (entry_a 0 4 4 true false)))
     ∧ evictFromSmall 2 s
       = (s2 ← (if Z.quot (int64 (capacity s * 9)) 10 <? llen (main s1)
                then evictFromMain 1 s1 else Ok s1);
          evictFromSmall 1 s2))
  ∧ (let s := after ops_row_full cache1 in
     ∃ s', evictFromSmall 1 s = Ok s'
       ∧ queues s' [] []
       ∧ condemned s s' 8 entry_k9 (Some 0%nat)).
Proof.
  split.
  - intros s.
    destruct (evictFromSmall_turn 1 s [] [] 0%nat (entry_a 0 4 4 true false))
      as (_ & Hwarm).
    + unfold mem_bound. vm_compute. reflexivity.
    + apply queuesb_sound. vm_compute. reflexivity.
    + vm_compute. reflexivity.
    + apply Hwarm. vm_compute. discriminate.
  - intros s.
    destruct (evictFromSmall_turn 0 s [] [] 8%nat entry_k9) as (Hcold & _).
    + unfold mem_bound. vm_compute. reflexivity.
    + apply queuesb_sound. vm_compute. reflexivity.
    + vm_compute. reflexivity.
    + apply Hcold.
      * vm_compute. reflexivity.
      * vm_compute. discriminate.
      * vm_compute. reflexivity.
      * intros o [= <-]. vm_compute. eauto.
Defined.

(** C10 on the state after [ops_hot]: "a" is set again. *)
Lemma setWithHash_present_witness :
  let s := after ops_hot cache1 in
  let e' := bump (set_expiryNano 50 (set_value 12 (entry_a 0 4 4 true false))) in
  let s' := set_mem (<[0%nat := e']> (mem s)) s in
  setWithHash wyhashString 0 "a" 12 50 (wyhashString "a") s = Ok s'
  ∧ e' = set_peakFreq (peakFreq e') (set_freq (freq e')
           (set_expiryNano 50 (set_value 12 (entry_a 0 4 4 true false))))
  ∧ linked (mem s') (small s') = linked (mem s) (small s)
  ∧ linked (mem s') (main s') = linked (mem s) (main s)
  ∧ entries s' = entries s ∧ deathRow s' = deathRow s
  ∧ totalEntries s' = totalEntries s.
Proof.
  intros s.
  apply (setWithHash_present wyhashString 0 "a" 12 50 (wyhashString "a") s
           0%nat (entry_a 0 4 4 true false)); vm_compute; reflexivity.
Defined.

(** C6 on the state after [ops_evicted]: the entry of "a" is in slot 0 of
    death row, and a get of "a" resurrects it. *)
Lemma get_resurrects_witness :
  let s := after ops_evicted cache1 in
  let e := entry_a 100 0 0 true true in
  ∃ s', get 0 "a" 200 s = Ok (s', (11, true))
    ∧ deathRow s' = <[0%nat := None]> (deathRow s)
    ∧ totalEntries s' = int64 (totalEntries s + 1)
    ∧ queues s' [1%nat] [0%nat]
    ∧ moved (set_totalEntries (int64 (totalEntries s + 1))
               (set_deathRow (<[0%nat := None]> (deathRow s)) (deathRowPos s) s))
            s' 0
            (set_peakFreq 3 (set_freq 3
               (set_inSmall false (set_onDeathRow false e)))).
Proof.
  intros s e.
  apply (get_resurrects 0 "a" 200 s [1%nat] [] 0%nat e 0%nat).
  - unfold mem_bound. vm_compute. reflexivity.
  - apply queuesb_sound. vm_compute. reflexivity.
  - apply (bool_decide_unpack _). vm_compute. exact I.
  - apply (bool_decide_unpack _). vm_compute. exact I.
  - vm_compute. reflexivity.
  - vm_compute. reflexivity.
  - reflexivity.
  - vm_compute. reflexivity.
  - assert (deathRow s = Some 0%nat :: replicate 7 None) as ->
      by (vm_compute; reflexivity).
    intros j Hj. destruct j as [|j]; [reflexivity|].
    change (replicate 7 (@None ptr) !! j = Some (Some 0%nat)) in Hj.
    apply lookup_replicate in Hj as [Hj _]. discriminate.
Defined.

(** ** The local-file store *)

Module LocalFSFacts.
Import LocalFS.

Lemma lor_ge (a b : N) : (a <= N.lor a b)%N.
Proof.
  assert (N.lor a b = (a + N.ldiff b a)%N) as ->; [|lia].
  rewrite N.add_nocarry_lxor.
  - apply N.bits_inj. intros n.
    rewrite N.lor_spec, N.lxor_spec, N.ldiff_spec.
    by destruct (N.testbit a n), (N.testbit b n).
  - apply N.bits_inj. intros n.
    rewrite N.land_spec, N.ldiff_spec, N.bits_0.
    by destruct (N.testbit a n), (N.testbit b n).
Qed.

Lemma below_forall (P : N → bool) (n : nat) :
  forallb P (below n) = true → ∀ x, (x < N.of_nat n)%N → P x = true.
Proof.
  intros Hall x Hx. rewrite forallb_forall in Hall. apply Hall.
  unfold below. apply in_map_iff. exists (N.to_nat x).
  split; [lia|]. apply in_seq. lia.
Qed.

Lemma lead_high_all s0 s1 : lead_high s0 s1 = true.
Proof.
  destruct (N.lt_ge_cases s0 256) as [H0|H0].
  - destruct (N.lt_ge_cases s1 256) as [H1|H1].
    + revert s1 H1. change 256%N with (N.of_nat 256).
      apply (below_forall (λ b, lead_high s0 b)).
      revert s0 H0. change 256%N with (N.of_nat 256).
      apply (below_forall (λ a, forallb (λ b, lead_high a b) (below 256))).
      vm_compute. reflexivity.
    + unfold lead_high. destruct (first s0) as [[[sz lo] hi]|] eqn:Hf; [|done].
      assert (hi <= 0xBF)%N as Hhi.
      { unfold first in Hf.
        repeat (match type of Hf with
                | (if ?c then _ else _) = _ => destruct c
                end; try (injection Hf as <- <- <-; lia)); done. }
      rewrite (proj2 (N.ltb_lt hi s1)) by lia.
      by rewrite orb_true_r.
  - unfold lead_high, first.
    repeat (match goal with
            | |- context [(s0 <? ?c)%N] =>
                rewrite (proj2 (N.ltb_ge s0 c)) by lia
            | |- context [(s0 =? ?c)%N] =>
                rewrite (proj2 (N.eqb_neq s0 c)) by lia
            end). done.
Qed.

(** A sequence that starts above ASCII decodes to a rune above ASCII. *)
Lemma decodeRune_high s0 rest :
  (0x80 <= s0)%N → (0x80 <= (decodeRune (s0 :: rest)).1)%N.
Proof.
  intros Hs0. unfold decodeRune.
  rewrite (proj2 (N.ltb_ge s0 0x80)) by done.
  assert (0x80 <= RuneError)%N as Herr by (unfold RuneError; lia).
  pose proof (lead_high_all s0) as Hlead. unfold lead_high in Hlead.
  destruct (first s0) as [[[sz lo] hi]|] eqn:Hfirst; [|done].
  assert (sz = 2 ∨ sz = 3 ∨ sz = 4)%nat as Hsz.
  { unfold first in Hfirst.
    repeat (match type of Hfirst with
            | (if ?c then _ else _) = _ => destruct c
            end; try (injection Hfirst as <- <- <-; lia)); done. }
  destruct (_ <? sz)%nat; [done|].
  destruct rest as [|s1 rest]; [done|]. specialize (Hlead s1).
  destruct ((s1 <? lo)%N || (hi <? s1)%N); [done|]. simpl in Hlead.
  apply N.leb_le in Hlead.
  destruct Hsz as [-> | [-> | ->]]; simpl.
  - done.
  - destruct rest as [|s2 rest]; [done|]. destruct (negb (cont s2)); [done|].
    simpl. etrans; [exact Hlead|apply lor_ge].
  - destruct rest as [|s2 rest]; [done|]. destruct (negb (cont s2)); [done|].
    destruct rest as [|s3 rest]; [done|]. destruct (negb (cont s3)); [done|].
    simpl. etrans; [exact Hlead|]. etrans; [apply lor_ge|].
    etrans; [apply lor_ge|]. done.
Qed.

(** The test of the code is the character set of the specification. *)
Lemma invalid_spec ch : invalid ch = false ↔ allowedByte ch.
Proof.
  unfold invalid, allowedByte.
  repeat match goal with
         | |- context [(?a <? ?b)%N] => destruct (N.ltb_spec a b)
         | |- context [(?a =? ?b)%N] => destruct (N.eqb_spec a b)
         end; simpl; split; intros Hx; try done; lia.
Qed.

Lemma scan_spec bs : scan 0 bs = None ↔ Forall allowedByte bs.
Proof.
  induction bs as [|b bs IH].
  { split; [intros _; constructor|reflexivity]. }
  cbn [scan]. destruct (decodeRune (b :: bs)) as [ch size] eqn:Hdec.
  destruct (N.lt_ge_cases b 0x80) as [Hb|Hb].
  - unfold decodeRune in Hdec.
    rewrite (proj2 (N.ltb_lt b 0x80)) in Hdec by done.
    injection Hdec as <- <-. simpl.
    rewrite Forall_cons, <- invalid_spec, <- IH.
    destruct (invalid b); [|split; [done|by intros [_ ?]]].
    split; [done|]. by intros [? _].
  - pose proof (decodeRune_high b bs Hb) as Hhigh.
    rewrite Hdec in Hhigh. simpl in Hhigh.
    assert (invalid ch = true) as ->.
    { destruct (invalid ch) eqn:Hi; [done|].
      apply invalid_spec in Hi. unfold allowedByte in Hi. lia. }
    split; [done|]. intros [Hallowed _]%Forall_cons.
    unfold allowedByte in Hallowed. lia.
Qed.

(** [ValidateKey] accepts exactly the keys of at most 127 bytes made of
    the characters A-Z, a-z, 0-9, '-', '_', '.', ':'. *)
Lemma ValidateKey_spec s :
  ValidateKey s = None
  ↔ (String.length s ≤ 127)%nat ∧ Forall allowedByte (bytes_of s).
Proof.
  unfold ValidateKey, maxKeyLength.
  destruct (Nat.ltb_spec 127 (String.length s)) as [Hlen|Hlen].
  - split; [done|]. intros [? _]. lia.
  - rewrite scan_spec. split; [done|]. by intros [_ ?].
Qed.

(** So it rejects every key longer than 127 bytes, and accepts a
    non-empty key exactly when the specification does. *)
Lemma ValidateKey_nonempty s :
  s ≠ EmptyString → (ValidateKey s = None ↔ specValid s).
Proof.
  intros Hs. rewrite ValidateKey_spec. unfold specValid. tauto.
Qed.

(** C8: [ValidateKey] returns no error for the empty key, which the
    specification rejects. *)
Theorem ValidateKey_accepts_empty_key :
  ValidateKey "" = None ∧ ¬ specValid "".
Proof.
  split; [reflexivity|]. by intros [Hne _].
Qed.

Section StoreFacts.

Context {K V : Type} {FS : Type} `{FileSystem FS}.
Variable zeroV : V.
Variable Location : K → string.
Variable decode : list N → option (Entry (K:=K) (V:=V)).

(** C9, amended: when the record read by [Get] fails to decode, the call
    reports found = false and the zero value together with a non-nil
    error, the join of exactly these, in this order: the decode error,
    wrapped as "decode file"; the error of closing the file, if closing
    failed; the error of removing the file, if removing failed.  The
    file system is left as [os.Remove] of the record's file leaves
    it. *)
Theorem Get_decode_failure now key fs bytes :
  fs_open fs (Location key) = inr bytes → decode bytes = None →
  let out := Get zeroV Location decode now key fs in
  let rm := fs_remove fs (Location key) in
  out.1 = rm.1
  ∧ r_found out.2 = false ∧ r_value out.2 = zeroV ∧ r_expiry out.2 = 0
  ∧ r_err out.2
    = Some (Joined (Wrap "decode file" DecodeError
                    :: option_list (OsError <$> fs_close fs (Location key))
                    ++ option_list (OsError <$> rm.2))).
Proof.
  intros Hopen Hdec. unfold Get. rewrite Hopen, Hdec.
  destruct (fs_remove fs (Location key)) as [fs' rmErr]. simpl.
  repeat split. unfold errors_Join.
  by destruct (fs_close fs (Location key)), rmErr.
Qed.

End StoreFacts.

(** On plain files the bad record is gone after the call. *)
Lemma decode_failure_removes_file {K V : Type} (zeroV : V)
    (Location : K → string) decode now key
    (fs : gmap string (list N)) bytes :
  fs !! Location key = Some bytes → decode bytes = None →
  (Get zeroV Location decode now key fs).1 !! Location key = None.
Proof.
  intros Hfile Hdec. unfold Get. simpl. rewrite Hfile, Hdec. simpl.
  apply lookup_delete_eq.
Qed.

(** C9 as the specification states it fails: the record of "k" on [badDisk] does not
    decode, and [Get] returns an error instead of a plain miss. *)
Lemma decode_failure_is_an_error :
  let out := Get 0 toyLocation toyDecode 0 "k" badDisk in
  r_err out.2 = Some (Joined [Wrap "decode file" DecodeError])
  ∧ ¬ plain_miss out.2.
Proof.
  intros out.
  assert (r_err out.2 = Some (Joined [Wrap "decode file" DecodeError])) as Herr
    by (vm_compute; reflexivity).
  split; [done|]. intros [_ Hnone]. by rewrite Herr in Hnone.
Qed.

(** C9, amended, on [badDisk]: closing and removing succeed there, so
    the error joins the decode error alone, and the file is gone. *)
Lemma Get_decode_failure_witness :
  let out := Get 0 toyLocation toyDecode 0 "k" badDisk in
  out.1 = ∅
  ∧ r_found out.2 = false ∧ r_value out.2 = 0 ∧ r_expiry out.2 = 0
  ∧ r_err out.2 = Some (Joined [Wrap "decode file" DecodeError]).
Proof.
  intros out.
  destruct (Get_decode_failure 0 toyLocation toyDecode 0 "k" badDisk [7%N])
    as (Hfs & Hfound & Hval & Hexp & Herr).
  - vm_compute. reflexivity.
  - vm_compute. reflexivity.
  - fold out in Hfs, Hfound, Hval, Hexp, Herr.
    rewrite Hfs, Herr. repeat split; try done.
Defined.

End LocalFSFacts.

(** * Further properties of the engine *)

(** ** The shards of a cache *)

Lemma newS3FIFO_n_range procs size :
  1 <= procs < 2 ^ 59 →
  1 <= Z.min (Z.min (Z.max (int64 (procs * 16))
                            (Z.quot (effectiveSize size) 256))
                     (Z.max 1 (Z.quot (effectiveSize size) 1024))) 2048
    <= 2048.
Proof. intros Hp. rewrite int64_small by lia. lia. Qed.

(** [newS3FIFO] makes a power of two of shards, between 1 and 2048. *)
Lemma numShards_power_of_two procs size :
  1 <= procs < 2 ^ 59 →
  ∃ k, 0 <= k <= 11 ∧ numShards procs size = 2 ^ k.
Proof.
  intros Hp. pose proof (newS3FIFO_n_range procs size Hp) as Hn.
  unfold numShards. fold (effectiveSize size).
  set (n := Z.min _ 2048) in *.
  exists (Z.log2 n). unfold bitsLen.
  destruct (Z.leb_spec n 0) as [?|_]; [lia|].
  pose proof (Z.log2_nonneg n).
  pose proof (Z.log2_le_mono n 2048 ltac:(lia)) as Hlog.
  change (Z.log2 2048) with 11 in Hlog.
  split; [lia|]. rewrite Z.shiftl_1_l. f_equal. lia.
Qed.

(** X1: [newS3FIFO] makes a power of two of shards, 2048 at most, and the
    mask of [shardIdx] is that number less one. *)
Theorem newS3FIFO_shard_count procs size :
  1 <= procs < 2 ^ 59 →
  ∃ k, 0 <= k <= 11 ∧ numShards procs size = 2 ^ k
       ∧ shardMask (numShards procs size) = Z.to_N (2 ^ k - 1).
Proof.
  intros Hp. destruct (numShards_power_of_two procs size Hp) as (k & Hk & Hn).
  exists k. split; [done|]. split; [done|]. rewrite Hn. unfold shardMask.
  assert (0 < 2 ^ k <= 2 ^ 11) as Hpow.
  { split; [apply Z.pow_pos_nonneg; lia|apply Z.pow_le_mono_r; lia]. }
  rewrite Z.mod_small; [done|lia].
Qed.

(** X2: Routing by [hash & shardMask] never leaves the slice of shards. *)
Theorem shardIdx_in_range procs size h :
  1 <= procs < 2 ^ 59 →
  0 <= shardIdx (shardMask (numShards procs size)) h < numShards procs size.
Proof.
  intros Hp. destruct (numShards_power_of_two procs size Hp) as (k & Hk & ->).
  assert (0 < 2 ^ k <= 2 ^ 11) as Hpow.
  { split; [apply Z.pow_pos_nonneg; lia|apply Z.pow_le_mono_r; lia]. }
  unfold shardIdx, shardMask.
  rewrite Z.mod_small by lia.
  assert (Z.to_N (2 ^ k - 1) = N.ones (Z.to_N k)) as ->.
  { rewrite N.ones_equiv. apply N2Z.inj.
    rewrite Z2N.id by lia.
    rewrite N2Z.inj_pred by (apply N.neq_0_lt_0, N.pow_nonzero; lia).
    rewrite N2Z.inj_pow, Z2N.id by lia. simpl. lia. }
  rewrite N.land_ones.
  pose proof (N.mod_upper_bound h (2 ^ Z.to_N k)
                ltac:(apply N.pow_nonzero; lia)) as Hmod.
  apply N2Z.inj_lt in Hmod. rewrite N2Z.inj_pow, Z2N.id in Hmod by lia.
  simpl in Hmod. pose proof (N2Z.is_nonneg (h mod 2 ^ Z.to_N k)).
  rewrite int64_small by lia. lia.
Qed.

(** X3: The shards together hold at least the configured size. *)
Theorem shards_cover_size procs size :
  1 <= procs < 2 ^ 59 → size < 2 ^ 62 →
  effectiveSize size <= numShards procs size * shardCap procs size.
Proof.
  intros Hp Hs. destruct (numShards_power_of_two procs size Hp) as (k & Hk & Hn).
  assert (0 < 2 ^ k <= 2 ^ 11) as Hpow.
  { split; [apply Z.pow_pos_nonneg; lia|apply Z.pow_le_mono_r; lia]. }
  unfold shardCap. fold (effectiveSize size). rewrite Hn.
  assert (0 < effectiveSize size < 2 ^ 62) as Hsz.
  { unfold effectiveSize. destruct (Z.leb_spec size 0); lia. }
  set (m := 2 ^ k) in *. set (z := effectiveSize size) in *.
  rewrite (int64_small (z + m)) by lia. rewrite int64_small by lia.
  rewrite Z.quot_div_nonneg by lia.
  pose proof (Z.div_mod (z + m - 1) m ltac:(lia)) as Hdm.
  pose proof (Z.mod_pos_bound (z + m - 1) m ltac:(lia)). lia.
Qed.

(** ** The structure of a shard, and what the operations keep of it *)

Section StructureFacts.

Context {K : Type} `{Countable K} {V : Type}.
Context {B : Type} `{BloomFilter B}.
Variable zeroV : V.
Variable hasher : K → N.

#[local] Abbreviation entryT := (entry (K:=K) (V:=V)).
#[local] Abbreviation shardT := (shard (K:=K) (V:=V) (B:=B)).
Implicit Types (h : list entryT) (e : entryT) (s : shardT)
  (sq mq ex q : list ptr).

Ltac perm :=
  rewrite <- ?app_assoc; simpl; rewrite <- ?Permutation_middle; simpl;
  try done.

Lemma strip_key e1 e2 : strip e1 = strip e2 → key e1 = key e2.
Proof. intros Hs. change (key (strip e1) = key (strip e2)). by rewrite Hs. Qed.
Lemma strip_value e1 e2 : strip e1 = strip e2 → value e1 = value e2.
Proof. intros Hs. change (value (strip e1) = value (strip e2)). by rewrite Hs. Qed.
Lemma strip_expiryNano e1 e2 :
  strip e1 = strip e2 → expiryNano e1 = expiryNano e2.
Proof.
  intros Hs. change (expiryNano (strip e1) = expiryNano (strip e2)).
  by rewrite Hs.
Qed.
Lemma strip_inSmall e1 e2 : strip e1 = strip e2 → inSmall e1 = inSmall e2.
Proof.
  intros Hs. change (inSmall (strip e1) = inSmall (strip e2)). by rewrite Hs.
Qed.
Lemma strip_onDeathRow e1 e2 :
  strip e1 = strip e2 → onDeathRow e1 = onDeathRow e2.
Proof.
  intros Hs. change (onDeathRow (strip e1) = onDeathRow (strip e2)).
  by rewrite Hs.
Qed.

(** Reading a retagged memory backwards. *)
Lemma retagged_inv (f : entryT → entryT) p h h' x e' :
  retagged f p h h' → h' !! x = Some e' →
  ∃ e, h !! x = Some e
       ∧ strip e' = strip (if decide (x = p) then f e else e).
Proof.
  intros (Hl & Hp & Hx) He'.
  destruct (lookup_lt_is_Some_2 h x) as [e He].
  { rewrite <- Hl. by eapply lookup_lt_Some. }
  exists e. split; [done|]. destruct (decide (x = p)) as [->|Hne].
  - destruct (Hp e He) as (e1 & He1 & Hs). congruence.
  - destruct (Hx x e Hne He) as (e1 & He1 & Hs). congruence.
Qed.

Lemma retagged_fwd (f : entryT → entryT) p h h' x e :
  retagged f p h h' → h !! x = Some e →
  ∃ e', h' !! x = Some e'
        ∧ strip e' = strip (if decide (x = p) then f e else e).
Proof.
  intros (Hl & Hp & Hx) He. destruct (decide (x = p)) as [->|Hne].
  - by apply Hp.
  - by apply Hx.
Qed.

Lemma retagged_is_Some (f : entryT → entryT) p h h' x :
  retagged f p h h' → is_Some (h !! x) → is_Some (h' !! x).
Proof.
  intros Hr [e He]. destruct (retagged_fwd _ _ _ _ _ _ Hr He) as (e' & ? & _).
  eauto.
Qed.

(** The shard holds no more entries than the memory. *)
Lemma homes_bound s sq mq ex :
  shard_inv s sq mq ex →
  (length sq + length mq + length (onRow s) + length ex ≤ length (mem s))%nat.
Proof.
  intros Hinv.
  assert (homes s sq mq ex ⊆+ seq 0 (length (mem s))) as Hsub.
  { apply NoDup_submseteq; [apply Hinv|]. intros x Hx.
    apply elem_of_seq. split; [lia|].
    destruct (inv_valid _ _ _ _ Hinv x Hx) as [e He].
    apply lookup_lt_Some in He. simpl. lia. }
  apply submseteq_length in Hsub. rewrite length_seq in Hsub.
  unfold homes in Hsub. rewrite !length_app in Hsub. lia.
Qed.

(** The invariant moves along a retagging of the memory that leaves the
    map, death row and the keys alone, when the queues of the new state
    hold the same entries and the entry retagged has the flags of its
    place. *)
Lemma inv_transport (f : entryT → entryT) p s s' sq mq ex sq' mq' ex' :
  shard_inv s sq mq ex →
  retagged f p (mem s) (mem s') →
  (∀ e, mem s !! p = Some e → key (f e) = key e) →
  entries s' = entries s → deathRow s' = deathRow s →
  deathRowPos s' = deathRowPos s →
  queues s' sq' mq' →
  homes s' sq' mq' ex' ≡ₚ homes s sq mq ex →
  totalEntries s' = Z.of_nat (length sq' + length mq' + length ex') →
  (∀ x, x ∈ sq' → x ≠ p → x ∈ sq) → (∀ x, x ∈ mq' → x ≠ p → x ∈ mq) →
  (∀ e, mem s !! p = Some e →
     (p ∈ sq' → inSmall (f e) = true ∧ onDeathRow (f e) = false)
     ∧ (p ∈ mq' → inSmall (f e) = false ∧ onDeathRow (f e) = false)
     ∧ (p ∈ onRow s → onDeathRow (f e) = true)) →
  shard_inv s' sq' mq' ex'.
Proof.
  intros Hinv Hret Hkey Hent Hrow Hpos Hq Hperm Htot Hsq Hmq Hp.
  assert (onRow s' = onRow s) as Hon by (unfold onRow; by rewrite Hrow).
  split; try done.
  - rewrite Hrow. apply Hinv.
  - rewrite Hpos. apply Hinv.
  - rewrite Hperm. apply Hinv.
  - intros x Hx. rewrite Hperm in Hx.
    eapply retagged_is_Some; [done|]. by apply Hinv.
  - intros x e' Hx He'.
    destruct (retagged_inv _ _ _ _ _ _ Hret He') as (e & He & Hs).
    rewrite (strip_inSmall _ _ Hs), (strip_onDeathRow _ _ Hs).
    destruct (decide (x = p)) as [->|Hne].
    + by apply (Hp e He).
    + eapply inv_small; [done|by apply Hsq|done].
  - intros x e' Hx He'.
    destruct (retagged_inv _ _ _ _ _ _ Hret He') as (e & He & Hs).
    rewrite (strip_inSmall _ _ Hs), (strip_onDeathRow _ _ Hs).
    destruct (decide (x = p)) as [->|Hne].
    + by apply (Hp e He).
    + eapply inv_main; [done|by apply Hmq|done].
  - intros x e' Hx He'. rewrite Hon in Hx.
    destruct (retagged_inv _ _ _ _ _ _ Hret He') as (e & He & Hs).
    rewrite (strip_onDeathRow _ _ Hs).
    destruct (decide (x = p)) as [->|Hne].
    + by apply (Hp e He).
    + by eapply inv_row.
  - intros k x. rewrite Hent, (inv_map _ _ _ _ Hinv), Hperm.
    split; intros [Hx (e & He & Hk)]; (split; [done|]).
    + destruct (retagged_fwd _ _ _ _ _ _ Hret He) as (e' & He' & Hs).
      exists e'. split; [done|]. rewrite (strip_key _ _ Hs).
      destruct (decide (x = p)) as [->|]; [by rewrite Hkey|done].
    + destruct (retagged_inv _ _ _ _ _ _ Hret He) as (e0 & He0 & Hs).
      exists e0. split; [done|]. rewrite <- Hk, (strip_key _ _ Hs).
      destruct (decide (x = p)) as [->|]; [by rewrite Hkey|done].
Qed.

(** The invariant reads the memory, the map, the queues, death row and
    the counter only. *)
Lemma inv_ext s s' sq mq ex :
  mem s' = mem s → entries s' = entries s → small s' = small s →
  main s' = main s → deathRow s' = deathRow s →
  deathRowPos s' = deathRowPos s → totalEntries s' = totalEntries s →
  shard_inv s sq mq ex → shard_inv s' sq mq ex.
Proof.
  intros Hm He Hs Hma Hd Hp Ht [Hq ? ? ? ? ? ? ? ? ?].
  assert (onRow s' = onRow s) as Hon by (unfold onRow; by rewrite Hd).
  split; unfold homes, queues in *;
    rewrite ?Hon, ?Hm, ?He, ?Hs, ?Hma, ?Hd, ?Hp, ?Ht; done.
Qed.

Lemma within_refl X s : within X s s.
Proof. split; [done|]. split; eauto. Qed.

Lemma within_trans X s1 s2 s3 :
  within X s1 s2 → within X s2 s3 → within X s1 s3.
Proof.
  intros (Hl1 & Hk1 & He1) (Hl2 & Hk2 & He2). split; [congruence|]. split.
  - intros x e Hx He. destruct (Hk1 x e Hx He) as (e1 & He1' & Hs1).
    destruct (Hk2 x e1 Hx He1') as (e2 & He2' & Hs2).
    exists e2. split; [done|]. congruence.
  - eauto.
Qed.

Lemma within_mono X Y s s' :
  (∀ x, x ∈ X → x ∈ Y) → within X s s' → within Y s s'.
Proof.
  intros Hsub (Hl & Hk & He). split; [done|]. split; [|done].
  intros x e Hx. apply Hk. intros Hx'. by apply Hx, Hsub.
Qed.

Lemma evolves_refl s sq mq ex : shard_inv s sq mq ex → evolves s sq mq ex s sq mq ex.
Proof. intros Hinv. split; [done|]. split; [apply within_refl|done]. Qed.

Lemma evolves_trans s1 sq1 mq1 ex1 s2 sq2 mq2 ex2 s3 sq3 mq3 ex3 :
  evolves s1 sq1 mq1 ex1 s2 sq2 mq2 ex2 →
  evolves s2 sq2 mq2 ex2 s3 sq3 mq3 ex3 →
  evolves s1 sq1 mq1 ex1 s3 sq3 mq3 ex3.
Proof.
  intros (_ & Hw1 & Hh1) (Hinv & Hw2 & Hh2). split; [done|]. split.
  - eapply within_trans; [done|]. by eapply within_mono.
  - eauto.
Qed.

(** A retagging of an entry the shard holds, as an evolution. *)
Lemma evolves_transport (f : entryT → entryT) p s s' sq mq ex sq' mq' ex' :
  shard_inv s sq mq ex →
  p ∈ homes s sq mq ex →
  retagged f p (mem s) (mem s') →
  (∀ e, mem s !! p = Some e → key (f e) = key e) →
  entries s' = entries s → deathRow s' = deathRow s →
  deathRowPos s' = deathRowPos s →
  queues s' sq' mq' →
  homes s' sq' mq' ex' ≡ₚ homes s sq mq ex →
  totalEntries s' = Z.of_nat (length sq' + length mq' + length ex') →
  (∀ x, x ∈ sq' → x ≠ p → x ∈ sq) → (∀ x, x ∈ mq' → x ≠ p → x ∈ mq) →
  (∀ e, mem s !! p = Some e →
     (p ∈ sq' → inSmall (f e) = true ∧ onDeathRow (f e) = false)
     ∧ (p ∈ mq' → inSmall (f e) = false ∧ onDeathRow (f e) = false)
     ∧ (p ∈ onRow s → onDeathRow (f e) = true)) →
  evolves s sq mq ex s' sq' mq' ex'.
Proof.
  intros Hinv Hp Hret Hkey Hent Hrow Hpos Hq Hperm Htot Hsq Hmq Hfl.
  split; [by eapply inv_transport|]. split.
  - destruct Hret as (Hl & _ & Hx). split; [done|]. split.
    + intros x e Hx' He. apply Hx; [|done]. by intros ->.
    + intros k. by rewrite Hent.
  - intros x. by rewrite Hperm.
Qed.

Lemma homes_NoDup s sq mq ex :
  NoDup (homes s sq mq ex) ↔
  NoDup sq ∧ NoDup mq ∧ NoDup (onRow s) ∧ NoDup ex
  ∧ (∀ x, x ∈ sq → (x ∉ mq) ∧ (x ∉ onRow s) ∧ (x ∉ ex))
  ∧ (∀ x, x ∈ mq → (x ∉ onRow s) ∧ (x ∉ ex))
  ∧ (∀ x, x ∈ onRow s → x ∉ ex).
Proof.
  unfold homes. rewrite !NoDup_app. split.
  - intros (Hs & Hsx & Hm & Hmx & Hr & Hrx & He).
    repeat apply conj; try done.
    + intros x Hx. specialize (Hsx x Hx). rewrite !elem_of_app in Hsx. tauto.
    + intros x Hx. specialize (Hmx x Hx). rewrite !elem_of_app in Hmx. tauto.
  - intros (Hs & Hm & Hr & He & Hsx & Hmx & Hrx).
    repeat apply conj; try done.
    + intros x Hx. specialize (Hsx x Hx). rewrite !elem_of_app. tauto.
    + intros x Hx. specialize (Hmx x Hx). rewrite !elem_of_app. tauto.
Qed.

Lemma elem_of_homes s sq mq ex x :
  x ∈ homes s sq mq ex ↔ x ∈ sq ∨ x ∈ mq ∨ x ∈ onRow s ∨ x ∈ ex.
Proof. unfold homes. by rewrite !elem_of_app. Qed.

Lemma homes_fresh s p sq mq ex :
  NoDup (homes s sq mq (p :: ex)) →
  (p ∉ sq) ∧ (p ∉ mq) ∧ (p ∉ onRow s) ∧ (p ∉ ex).
Proof.
  intros (_ & _ & _ & Hex & Hsq & Hmq & Hrow)%homes_NoDup.
  apply NoDup_cons in Hex as [Hp _].
  repeat apply conj; [| | |done].
  - intros Hin. destruct (Hsq p Hin) as (_ & _ & Hn). apply Hn. left.
  - intros Hin. destruct (Hmq p Hin) as (_ & Hn). apply Hn. left.
  - intros Hin. apply (Hrow p Hin). left.
Qed.

(** Linking an unlinked entry at the tail of Small. *)
Lemma inv_link_small s p e sq mq ex :
  shard_inv s sq mq (p :: ex) → mem_bound s →
  mem s !! p = Some e → inSmall e = true → onDeathRow e = false →
  ∃ l h, pushBack (small s) p (mem s) = Ok (l, h)
    ∧ evolves s sq mq (p :: ex)
        (set_small l (set_mem h s)) (sq ++ [p]) mq ex.
Proof.
  intros Hinv Hb He Hsm Hdr.
  destruct (inv_queues _ _ _ _ Hinv) as (Hs & Hm & Hd).
  destruct (homes_fresh _ _ _ _ _ (inv_nodup _ _ _ _ Hinv))
    as (Hps & Hpm & Hpr & Hpe).
  assert (∀ x, x ∈ mq → x ∉ sq) as Hd' by (intros x ? ?; by eapply Hd).
  destruct (link_tail _ _ _ p _ _ Hm Hs Hpm Hps Hd' (mk_is_Some _ _ He) Hb)
    as (l & h & Hpush & Hm' & Hs' & Hrel).
  exists l, h. split; [done|].
  apply (evolves_transport id p); try done.
  - apply elem_of_homes. right. right. right. left.
  - by apply relinked_retagged.
  - split; [done|]. split; [done|].
    intros x [Hx| ->%list_elem_of_singleton]%elem_of_app; [by apply Hd|done].
  - unfold homes, onRow. simpl. perm.
  - simpl. rewrite (inv_total _ _ _ _ Hinv), length_app. simpl. lia.
  - by intros x [Hx| ->%list_elem_of_singleton]%elem_of_app ?.
  - intros e0 He0. assert (e0 = e) as -> by congruence. done.
Qed.

(** Linking an unlinked entry at the tail of Main. *)
Lemma inv_link_main s p e sq mq ex :
  shard_inv s sq mq (p :: ex) → mem_bound s →
  mem s !! p = Some e → inSmall e = false → onDeathRow e = false →
  ∃ l h, pushBack (main s) p (mem s) = Ok (l, h)
    ∧ evolves s sq mq (p :: ex)
        (set_main l (set_mem h s)) sq (mq ++ [p]) ex.
Proof.
  intros Hinv Hb He Hsm Hdr.
  destruct (inv_queues _ _ _ _ Hinv) as (Hs & Hm & Hd).
  destruct (homes_fresh _ _ _ _ _ (inv_nodup _ _ _ _ Hinv))
    as (Hps & Hpm & Hpr & Hpe).
  destruct (link_tail _ _ _ p _ _ Hs Hm Hps Hpm Hd (mk_is_Some _ _ He) Hb)
    as (l & h & Hpush & Hs' & Hm' & Hrel).
  exists l, h. split; [done|].
  apply (evolves_transport id p); try done.
  - apply elem_of_homes. right. right. right. left.
  - by apply relinked_retagged.
  - split; [done|]. split; [done|].
    intros x Hx [Hx'| ->%list_elem_of_singleton]%elem_of_app;
      [by eapply Hd|done].
  - unfold homes, onRow. simpl. perm.
  - simpl. rewrite (inv_total _ _ _ _ Hinv), length_app. simpl. lia.
  - by intros x [Hx| ->%list_elem_of_singleton]%elem_of_app ?.
  - intros e0 He0. assert (e0 = e) as -> by congruence. done.
Qed.

(** A store into a field of an entry the shard holds: the links and the
    key stay, and so do the flags unless the entry is unlinked. *)
Lemma inv_modify (f : entryT → entryT) p s sq mq ex h' :
  shard_inv s sq mq ex → p ∈ homes s sq mq ex →
  modify p f (mem s) = Ok h' →
  (∀ e, prev (f e) = prev e ∧ next (f e) = next e) →
  (∀ e, key (f e) = key e) →
  (p ∉ ex →
   ∀ e, inSmall (f e) = inSmall e ∧ onDeathRow (f e) = onDeathRow e) →
  evolves s sq mq ex (set_mem h' s) sq mq ex.
Proof.
  intros Hinv Hp Hmod Hlinks Hkey Hflags.
  destruct (inv_queues _ _ _ _ Hinv) as (Hs & Hm & Hd).
  pose proof (inv_nodup _ _ _ _ Hinv) as Hnd.
  apply homes_NoDup in Hnd as (_ & _ & _ & _ & Hsq & Hmq & Hrow).
  apply (evolves_transport f p); try done.
  - by apply modify_retagged.
  - split; [by eapply dll_modify|]. split; [by eapply dll_modify|done].
  - apply Hinv.
  - intros e He. repeat apply conj.
    + intros Hin. destruct (Hsq p Hin) as (_ & _ & Hn).
      destruct (Hflags Hn e) as [-> ->]. by eapply inv_small.
    + intros Hin. destruct (Hmq p Hin) as (_ & Hn).
      destruct (Hflags Hn e) as [-> ->]. by eapply inv_main.
    + intros Hin. destruct (Hflags (Hrow p Hin) e) as [_ ->].
      by eapply inv_row.
Qed.

(** The invariant reads the memory at the entries the shard holds
    only. *)
Lemma inv_frame s s' sq mq ex :
  shard_inv s sq mq ex →
  (∀ x, x ∈ homes s sq mq ex → mem s' !! x = mem s !! x) →
  entries s' = entries s → small s' = small s → main s' = main s →
  deathRow s' = deathRow s → deathRowPos s' = deathRowPos s →
  totalEntries s' = totalEntries s →
  shard_inv s' sq mq ex.
Proof.
  intros Hinv Hsame Hent Hsm Hma Hrow Hpos Htot.
  destruct (inv_queues _ _ _ _ Hinv) as (Hs & Hm & Hd).
  assert (onRow s' = onRow s) as Hon by (unfold onRow; by rewrite Hrow).
  assert (homes s' sq mq ex = homes s sq mq ex) as Hh.
  { unfold homes. by rewrite Hon. }
  split.
  - unfold queues. rewrite Hsm, Hma. split; [|split; [|done]].
    + eapply dll_frame_eq; [done|]. intros x Hx. apply Hsame.
      apply elem_of_homes. by left.
    + eapply dll_frame_eq; [done|]. intros x Hx. apply Hsame.
      apply elem_of_homes. right. by left.
  - rewrite Hrow. apply Hinv.
  - rewrite Hpos. apply Hinv.
  - rewrite Hh. apply Hinv.
  - intros x Hx. rewrite Hh in Hx. rewrite (Hsame x Hx). by apply Hinv.
  - intros x e Hx. rewrite Hsame; [by apply Hinv|].
    apply elem_of_homes. by left.
  - intros x e Hx. rewrite Hsame; [by apply Hinv|].
    apply elem_of_homes. right. by left.
  - intros x e Hx. rewrite Hon in Hx. rewrite Hsame; [by apply Hinv|].
    apply elem_of_homes. right. right. by left.
  - intros k x. rewrite Hent, Hh, (inv_map _ _ _ _ Hinv).
    split; intros [Hx He]; (split; [done|]).
    + by rewrite (Hsame x Hx).
    + by rewrite <- (Hsame x Hx).
  - rewrite Htot. apply Hinv.
Qed.

(** A store into an entry the shard does not hold. *)
Lemma inv_modify_outside (f : entryT → entryT) p s sq mq ex h' :
  shard_inv s sq mq ex → p ∉ homes s sq mq ex →
  modify p f (mem s) = Ok h' →
  shard_inv (set_mem h' s) sq mq ex.
Proof.
  intros Hinv Hp Hmod. eapply inv_frame; try done.
  intros x Hx. eapply modify_lookup_ne; [done|]. by intros ->.
Qed.

(** A new entry in memory. *)
Lemma inv_alloc s e sq mq ex :
  shard_inv s sq mq ex →
  shard_inv (set_mem (mem s ++ [e]) s) sq mq ex
  ∧ length (mem s) ∉ homes s sq mq ex.
Proof.
  intros Hinv.
  assert (∀ x, x ∈ homes s sq mq ex → (x < length (mem s))%nat) as Hlt.
  { intros x Hx. apply lookup_lt_is_Some. by apply Hinv. }
  split.
  - eapply inv_frame; try done. intros x Hx. simpl.
    apply lookup_app_l. by apply Hlt.
  - intros Hx%Hlt. lia.
Qed.

(** Death row after a store into one of its slots. *)
Lemma omap_insert (d : list (option ptr)) i x y :
  d !! i = Some x →
  omap id (<[i := y]> d) ++ option_list x ≡ₚ option_list y ++ omap id d.
Proof.
  revert i. induction d as [|a d IH]; intros [|i] Hi; simplify_eq/=.
  - destruct y as [b|], x as [a|]; simpl; rewrite ?app_nil_r; try done.
    + constructor. symmetry. apply Permutation_cons_append.
    + symmetry. apply Permutation_cons_append.
  - specialize (IH i Hi). destruct a as [a|]; simpl; [|done].
    rewrite <- Permutation_middle. by constructor.
Qed.

Lemma slot_Ok (d : list (option ptr)) i :
  length d = 8%nat → 0 <= i < 8 →
  ∃ x, slot d i = Ok x ∧ d !! Z.to_nat i = Some x.
Proof.
  intros Hl Hi. unfold slot.
  destruct (Z.ltb_spec i 0) as [|_]; [lia|].
  destruct (lookup_lt_is_Some_2 d (Z.to_nat i)) as [x Hx]; [lia|].
  rewrite Hx. eauto.
Qed.

(** The ghost queue is no part of the structure. *)
Lemma addToGhost_frame hsh peak s :
  mem (addToGhost hsh peak s) = mem s
  ∧ entries (addToGhost hsh peak s) = entries s
  ∧ small (addToGhost hsh peak s) = small s
  ∧ main (addToGhost hsh peak s) = main s
  ∧ deathRow (addToGhost hsh peak s) = deathRow s
  ∧ deathRowPos (addToGhost hsh peak s) = deathRowPos s
  ∧ totalEntries (addToGhost hsh peak s) = totalEntries s.
Proof.
  unfold addToGhost.
  destruct (negb (Contains (ghostActive s) hsh));
    match goal with |- context [if ?c then _ else _] => destruct c end; done.
Qed.

(** The oldest entry of death row is dropped: its slot is emptied, its
    key leaves the map and its flag is cleared. *)
Lemma inv_drop_row s s' i o eo sq mq ex :
  shard_inv s sq mq ex →
  deathRow s !! i = Some (Some o) → mem s !! o = Some eo →
  mem s' = <[o := set_onDeathRow false eo]> (mem s) →
  entries s' = delete (key eo) (entries s) →
  small s' = small s → main s' = main s →
  deathRow s' = <[i := None]> (deathRow s) →
  deathRowPos s' = deathRowPos s → totalEntries s' = totalEntries s →
  evolves s sq mq ex s' sq mq ex.
Proof.
  intros Hinv Hi Ho Hmem Hent Hsm Hma Hrow Hpos Htot.
  destruct (inv_queues _ _ _ _ Hinv) as (Hs & Hm & Hd).
  assert (onRow s' ++ [o] ≡ₚ onRow s) as Hon.
  { unfold onRow. rewrite Hrow. apply (omap_insert _ _ (Some o) None Hi). }
  assert (homes s sq mq ex ≡ₚ o :: homes s' sq mq ex) as Hh.
  { unfold homes. rewrite <- Hon. perm. }
  pose proof (inv_nodup _ _ _ _ Hinv) as Hnd. rewrite Hh in Hnd.
  apply NoDup_cons in Hnd as [Hfresh Hnd].
  assert (∀ x, x ∈ homes s' sq mq ex → x ∈ homes s sq mq ex ∧ x ≠ o)
    as Hsub.
  { intros x Hx. split; [rewrite Hh; by right|by intros ->]. }
  assert (∀ x, x ≠ o → mem s' !! x = mem s !! x) as Hsame.
  { intros x Hx. rewrite Hmem. by apply list_lookup_insert_ne. }
  assert (o ∈ homes s sq mq ex) as Hoin by (rewrite Hh; left).
  assert (modify o (set_onDeathRow false) (mem s) = Ok (mem s')) as Hmod.
  { rewrite Hmem. by apply modify_valid. }
  assert (∀ x, x ∈ onRow s' → x ∈ onRow s) as Hrw.
  { intros x Hx. rewrite <- Hon. apply elem_of_app. by left. }
  split; [split|split].
  - unfold queues. rewrite Hsm, Hma.
    split; [eapply dll_modify; [|exact Hmod|exact Hs]; done|].
    split; [eapply dll_modify; [|exact Hmod|exact Hm]; done|done].
  - rewrite Hrow, length_insert. apply Hinv.
  - rewrite Hpos. apply Hinv.
  - done.
  - intros x [Hx Hne]%Hsub. rewrite Hsame by done. by apply Hinv.
  - intros x e Hx. destruct (Hsub x) as [_ Hne].
    { apply elem_of_homes. by left. }
    rewrite Hsame by done. by apply Hinv.
  - intros x e Hx. destruct (Hsub x) as [_ Hne].
    { apply elem_of_homes. right. by left. }
    rewrite Hsame by done. by apply Hinv.
  - intros x e Hx. destruct (Hsub x) as [_ Hne].
    { apply elem_of_homes. right. right. by left. }
    rewrite Hsame by done. apply Hinv. by apply Hrw.
  - intros k x. rewrite Hent, lookup_delete_Some, (inv_map _ _ _ _ Hinv).
    split.
    + intros (Hk & Hx & e & He & Hke).
      assert (x ≠ o) as Hne by (intros ->; congruence).
      split; [|exists e; by rewrite Hsame].
      rewrite Hh in Hx. by apply elem_of_cons in Hx as [?|?].
    + intros (Hx & e & He & Hke). destruct (Hsub x Hx) as [Hx' Hne].
      rewrite Hsame in He by done.
      split; [|split; [done|by exists e]].
      intros Hk. apply Hne.
      assert (entries s !! k = Some x) as E1.
      { apply (inv_map _ _ _ _ Hinv). eauto. }
      assert (entries s !! k = Some o) as E2.
      { apply (inv_map _ _ _ _ Hinv). split; [done|]. exists eo. by subst. }
      congruence.
  - rewrite Htot. apply Hinv.
  - split; [by rewrite Hmem, length_insert|]. split.
    + intros x e Hx He. exists e. split; [|done].
      rewrite Hsame; [done|]. by intros ->.
    + intros k Hk. rewrite Hent. apply lookup_delete_None. by right.
  - intros x Hx. by apply Hsub.
Qed.

(** An unlinked entry is put into an empty slot of death row. *)
Lemma inv_place_row s s' i p e sq mq ex :
  shard_inv s sq mq (p :: ex) → mem_bound s →
  deathRow s !! i = Some None → mem s !! p = Some e →
  mem s' = <[p := set_onDeathRow true e]> (mem s) →
  entries s' = entries s → small s' = small s → main s' = main s →
  deathRow s' = <[i := Some p]> (deathRow s) →
  0 <= deathRowPos s' < 8 →
  totalEntries s' = int64 (totalEntries s - 1) →
  evolves s sq mq (p :: ex) s' sq mq ex.
Proof.
  intros Hinv Hb Hi Hp Hmem Hent Hsm Hma Hrow Hpos Htot.
  destruct (inv_queues _ _ _ _ Hinv) as (Hs & Hm & Hd).
  assert (onRow s' ≡ₚ p :: onRow s) as Hon.
  { unfold onRow. rewrite Hrow.
    pose proof (omap_insert _ _ None (Some p) Hi) as Hperm.
    simpl in Hperm. by rewrite app_nil_r in Hperm. }
  assert (homes s' sq mq ex ≡ₚ homes s sq mq (p :: ex)) as Hh.
  { unfold homes. rewrite Hon. perm. }
  destruct (homes_fresh _ _ _ _ _ (inv_nodup _ _ _ _ Hinv))
    as (Hps & Hpm & Hpr & Hpe).
  assert (∀ x, x ≠ p → mem s' !! x = mem s !! x) as Hsame.
  { intros x Hx. rewrite Hmem. by apply list_lookup_insert_ne. }
  assert (mem s' !! p = Some (set_onDeathRow true e)) as Hp'.
  { rewrite Hmem. apply list_lookup_insert_eq. by eapply lookup_lt_Some. }
  assert (modify p (set_onDeathRow true) (mem s) = Ok (mem s')) as Hmod.
  { rewrite Hmem. by apply modify_valid. }
  pose proof (homes_bound _ _ _ _ Hinv) as Hhb.
  pose proof (inv_total _ _ _ _ Hinv) as Ht. simpl in Hhb, Ht.
  unfold mem_bound in Hb.
  split; [split|split].
  - unfold queues. rewrite Hsm, Hma.
    split; [eapply dll_modify; [|exact Hmod|exact Hs]; done|].
    split; [eapply dll_modify; [|exact Hmod|exact Hm]; done|done].
  - rewrite Hrow, length_insert. apply Hinv.
  - done.
  - rewrite Hh. apply Hinv.
  - intros x Hx. rewrite Hh in Hx. rewrite Hmem.
    apply lookup_lt_is_Some. rewrite length_insert.
    apply lookup_lt_is_Some. by apply Hinv.
  - intros x e' Hx. assert (x ≠ p) by (by intros ->).
    rewrite Hsame by done. by apply Hinv.
  - intros x e' Hx. assert (x ≠ p) by (by intros ->).
    rewrite Hsame by done. by apply Hinv.
  - intros x e' Hx. rewrite Hon in Hx.
    apply elem_of_cons in Hx as [->|Hx].
    + rewrite Hp'. by intros [= <-].
    + assert (x ≠ p) by (by intros ->).
      rewrite Hsame by done. by apply Hinv.
  - intros k x. rewrite Hent, (inv_map _ _ _ _ Hinv), Hh.
    destruct (decide (x = p)) as [->|Hne].
    + rewrite Hp', Hp. split; intros [Hx (e' & [= <-] & Hk)]; eauto.
    + by rewrite Hsame.
  - rewrite Htot, int64_small by lia. lia.
  - split; [by rewrite Hmem, length_insert|]. split.
    + intros x e' Hx He. exists e'. split; [|done].
      rewrite Hsame; [done|]. intros ->. apply Hx.
      apply elem_of_homes. right. right. right. left.
    + intros k. by rewrite Hent.
  - intros x. by rewrite Hh.
Qed.

(** [sendToDeathRow] on an entry just unlinked. *)
Lemma inv_sendToDeathRow s p sq mq ex :
  shard_inv s sq mq (p :: ex) → mem_bound s →
  ∃ s', sendToDeathRow p s = Ok s' ∧ evolves s sq mq (p :: ex) s' sq mq ex.
Proof.
  intros Hinv Hb.
  destruct (slot_Ok (deathRow s) (deathRowPos s)) as (old & Hslot & Hi);
    [apply Hinv..|].
  pose proof (inv_row_pos _ _ _ _ Hinv) as Hpos.
  destruct (inv_valid _ _ _ _ Hinv p) as [e He].
  { apply elem_of_homes. right. right. right. left. }
  destruct (homes_fresh _ _ _ _ _ (inv_nodup _ _ _ _ Hinv))
    as (Hps & Hpm & Hpr & Hpe).
  assert (0 <= Z.rem (int64 (deathRowPos s + 1)) 8 < 8) as Hpos'.
  { rewrite int64_small by lia. apply Z.rem_bound_pos; lia. }
  unfold sendToDeathRow. rewrite Hslot.
  destruct old as [o|].
  - assert (o ∈ onRow s) as Hoin.
    { apply list_elem_of_omap. exists (Some o).
      split; [by eapply list_elem_of_lookup_2|done]. }
    destruct (inv_valid _ _ _ _ Hinv o) as [eo Ho].
    { apply elem_of_homes. right. right. by left. }
    assert (p ≠ o) as Hne by (by intros ->).
    set (s1 := set_entries (delete (key eo) (entries s)) s).
    destruct (addToGhost_frame (hash eo) (peakFreq eo) s1)
      as (G1 & G2 & G3 & G4 & G5 & G6 & G7).
    set (s2 := addToGhost (hash eo) (peakFreq eo) s1) in *.
    set (s3 := set_mem (<[o := set_onDeathRow false eo]> (mem s2)) s2).
    set (sv := set_deathRow (<[Z.to_nat (deathRowPos s) := None]> (deathRow s))
                 (deathRowPos s) s3).
    assert (evolves s sq mq (p :: ex) sv sq mq (p :: ex)) as Hev1.
    { eapply (inv_drop_row s sv); try done; simpl;
        rewrite ?G1, ?G2, ?G3, ?G4, ?G5, ?G6, ?G7; done. }
    assert (mem s3 !! p = Some e) as He3.
    { simpl. rewrite G1. simpl. by rewrite list_lookup_insert_ne. }
    set (s' := set_totalEntries (int64 (totalEntries s3 - 1))
                 (set_deathRow
                    (<[Z.to_nat (deathRowPos s3) := Some p]> (deathRow s3))
                    (Z.rem (int64 (deathRowPos s3 + 1)) 8)
                    (set_mem (<[p := set_onDeathRow true e]> (mem s3)) s3))).
    assert (evolves sv sq mq (p :: ex) s' sq mq ex) as Hev2.
    { eapply (inv_place_row sv s' (Z.to_nat (deathRowPos s)) p e);
        try done.
      - apply Hev1.
      - unfold mem_bound. simpl. rewrite G1. simpl.
        by rewrite length_insert.
      - simpl. apply list_lookup_insert_eq. by eapply lookup_lt_Some.
      - simpl. rewrite G5, G6. simpl. by rewrite list_insert_insert_eq.
      - simpl. by rewrite G6. }
    exists s'. split; [|by eapply evolves_trans].
    apply bind_Ok. exists (Some o). split; [done|]. cbv beta.
    apply bind_Ok. exists s3. split.
    + cbv beta iota zeta. rewrite (proj2 (deref_Ok _ _ _) Ho).
      apply bind_Ok. exists eo. split; [done|].
      fold s1. fold s2. rewrite G1. simpl.
      rewrite (modify_valid _ _ _ _ Ho). simpl. unfold s3. by rewrite G1.
    + cbv beta. by rewrite (modify_valid _ _ _ _ He3).
  - set (s' := set_totalEntries (int64 (totalEntries s - 1))
                 (set_deathRow
                    (<[Z.to_nat (deathRowPos s) := Some p]> (deathRow s))
                    (Z.rem (int64 (deathRowPos s + 1)) 8)
                    (set_mem (<[p := set_onDeathRow true e]> (mem s)) s))).
    exists s'. split.
    + apply bind_Ok. exists None. split; [done|]. cbv beta.
      apply bind_Ok. exists s. split; [done|]. cbv beta.
      by rewrite (modify_valid _ _ _ _ He).
    + by eapply (inv_place_row s s' (Z.to_nat (deathRowPos s)) p e).
Qed.

Lemma homes_row_first (A R C : list ptr) : A ++ R ++ C ≡ₚ R ++ A ++ C.
Proof.
  by rewrite (assoc (++) A R), (Permutation_app_comm A R), <- (assoc (++)).
Qed.

Lemma evolves_bound s sq mq ex s' sq' mq' ex' :
  evolves s sq mq ex s' sq' mq' ex' → mem_bound s → mem_bound s'.
Proof. intros (_ & (Hl & _) & _). unfold mem_bound. by rewrite Hl. Qed.

(** A move of one entry between the queues, as an evolution. *)
Lemma moved_evolves s s' p e e' sq mq ex sq' mq' ex' :
  shard_inv s sq mq ex → p ∈ homes s sq mq ex →
  mem s !! p = Some e → moved s s' p e' → key e' = key e →
  queues s' sq' mq' →
  sq' ++ mq' ++ ex' ≡ₚ sq ++ mq ++ ex →
  (∀ x, x ∈ sq' → x ≠ p → x ∈ sq) → (∀ x, x ∈ mq' → x ≠ p → x ∈ mq) →
  (p ∈ sq' → inSmall e' = true ∧ onDeathRow e' = false) →
  (p ∈ mq' → inSmall e' = false ∧ onDeathRow e' = false) →
  (p ∈ onRow s → onDeathRow e' = true) →
  evolves s sq mq ex s' sq' mq' ex'.
Proof.
  intros Hinv Hp He (Heq & Hl & Hpp & Hx) Hkey Hq Hperm Hsq Hmq F1 F2 F3.
  assert (deathRow s' = deathRow s) as Hrow.
  { by apply (f_equal deathRow) in Heq. }
  apply (evolves_transport (λ _, e') p); try done.
  - intros e0 He0. assert (e0 = e) as -> by congruence. done.
  - by apply (f_equal entries) in Heq.
  - by apply (f_equal deathRowPos) in Heq.
  - unfold homes, onRow. rewrite Hrow.
    rewrite (homes_row_first mq'), (homes_row_first sq').
    rewrite (homes_row_first mq), (homes_row_first sq).
    by rewrite Hperm.
  - apply (f_equal totalEntries) in Heq. simpl in Heq. rewrite Heq.
    rewrite (inv_total _ _ _ _ Hinv).
    apply Permutation_length in Hperm. rewrite !length_app in Hperm. lia.
Qed.

(** [evictFromMain] keeps the structure of the shard, and does not
    panic. *)
Lemma inv_evictFromMain fuel : ∀ s sq mq ex,
  shard_inv s sq mq ex → mem_bound s →
  match evictFromMain fuel s with
  | Ok s' => ∃ sq' mq', evolves s sq mq ex s' sq' mq' ex
  | Panic => False
  | OutOfFuel => True
  end.
Proof.
  induction fuel as [|n IH]; intros s sq mq ex Hinv Hb; [done|].
  pose proof (inv_queues _ _ _ _ Hinv) as Hq.
  destruct mq as [|p mq].
  - destruct Hq as (_ & (_ & _ & _ & Hlen & _) & _). simpl. rewrite Hlen.
    simpl. exists sq, []. by apply evolves_refl.
  - assert (p ∈ homes s sq (p :: mq) ex) as Hp.
    { apply elem_of_homes. right. left. left. }
    destruct (inv_valid _ _ _ _ Hinv p Hp) as [e He].
    destruct (inv_main _ _ _ _ Hinv p e) as [Hsm Hdr]; [left|done|].
    pose proof (inv_nodup _ _ _ _ Hinv) as Hnd.
    apply homes_NoDup in Hnd as (_ & Hndm & _ & _ & Hsq & Hmq & _).
    apply NoDup_cons in Hndm as [Hpm _].
    destruct (Hmq p) as [Hpr Hpe]; [left|].
    assert (p ∉ sq) as Hps.
    { intros Hin. destruct (Hsq p Hin) as (Hn & _). apply Hn. left. }
    destruct (N.eq_dec (freq e) 0%N) as [Hf|Hf].
    + destruct (N.le_gt_cases 4%N (peakFreq e)) as [Hpk|Hpk].
      * destruct (evictFromMain_demote n s sq mq p e Hb Hq He Hf Hpk)
          as (s' & -> & Hq' & Hmv).
        exists (sq ++ [p]), mq. eapply moved_evolves; try done.
        -- perm.
        -- by intros x [Hx| ->%list_elem_of_singleton]%elem_of_app ?.
        -- intros x Hx _. by right.
      * destruct (evictFromMain_cold n s sq mq p e Hb Hq He Hf Hpk)
          as (s1 & Hq1 & Hmv & ->).
        assert (evolves s sq (p :: mq) ex s1 sq mq (p :: ex)) as Hev1.
        { eapply moved_evolves; try done.
          - perm.
          - intros x Hx _. by right. }
        destruct (inv_sendToDeathRow s1 p sq mq ex) as (s' & -> & Hev2).
        { apply Hev1. }
        { by eapply evolves_bound. }
        exists sq, mq. by eapply evolves_trans.
    + destruct (queues_head_main _ _ _ _ _ Hq He) as [Hlen Hhd].
      destruct Hq as (Hs & Hm & Hdis).
      destruct (recycle (set_freq (uint32 (freq e - 1)))
                  (mem s) (main s) (small s) p mq sq) as
        (l1 & h1 & h2 & l3 & h3 & Hrm & Hmod & Hpush & Hm3 & Hs3 & Hret);
        try done.
      { intros x Hx Hx'. by apply (Hdis x). }
      { apply strip_congr_set_freq. }
      set (s3 := set_main l3 (set_mem h3 s)).
      assert (evolves s sq (p :: mq) ex s3 sq (mq ++ [p]) ex) as Hev.
      { apply (evolves_transport (set_freq (uint32 (freq e - 1))) p);
          try done.
        - split; [done|]. split; [done|]. simpl.
          intros x Hx [Hx'| ->%list_elem_of_singleton]%elem_of_app.
          + apply (Hdis x Hx). by right.
          + done.
        - unfold homes, onRow. simpl. perm.
        - simpl. rewrite (inv_total _ _ _ _ Hinv), length_app. simpl. lia.
        - intros x [Hx| ->%list_elem_of_singleton]%elem_of_app ?;
            [by right|done].
        - intros e0 He0. assert (e0 = e) as -> by congruence. done. }
      assert (evictFromMain (S n) s = evictFromMain n s3) as ->.
      { simpl. rewrite Hlen, Hhd. simpl.
        rewrite (proj2 (N.eqb_neq _ _) Hf). rewrite Hrm. simpl.
        rewrite Hmod. simpl. by rewrite Hpush. }
      specialize (IH s3 sq (mq ++ [p]) ex (proj1 Hev)
                    (evolves_bound _ _ _ _ _ _ _ _ Hev Hb)).
      destruct (evictFromMain n s3) as [s'| |]; [|done|done].
      destruct IH as (sq' & mq' & Hev'). exists sq', mq'.
      by eapply evolves_trans.
Qed.

(** [evictFromSmall] keeps the structure of the shard, and does not
    panic. *)
Lemma inv_evictFromSmall fuel : ∀ s sq mq ex,
  shard_inv s sq mq ex → mem_bound s →
  match evictFromSmall fuel s with
  | Ok s' => ∃ sq' mq', evolves s sq mq ex s' sq' mq' ex
  | Panic => False
  | OutOfFuel => True
  end.
Proof.
  induction fuel as [|n IH]; intros s sq mq ex Hinv Hb; [done|].
  pose proof (inv_queues _ _ _ _ Hinv) as Hq.
  destruct sq as [|p sq].
  - destruct Hq as ((_ & _ & _ & Hlen & _) & _ & _). simpl. rewrite Hlen.
    simpl. exists [], mq. by apply evolves_refl.
  - assert (p ∈ homes s (p :: sq) mq ex) as Hp.
    { apply elem_of_homes. left. left. }
    destruct (inv_valid _ _ _ _ Hinv p Hp) as [e He].
    destruct (inv_small _ _ _ _ Hinv p e) as [Hsm Hdr]; [left|done|].
    pose proof (inv_nodup _ _ _ _ Hinv) as Hnd.
    apply homes_NoDup in Hnd as (Hnds & _ & _ & _ & Hsq & _ & _).
    apply NoDup_cons in Hnds as [Hps _].
    destruct (Hsq p) as (Hpm & Hpr & Hpe); [left|].
    destruct (N.lt_ge_cases (freq e) 2%N) as [Hf|Hf].
    + destruct (evictFromSmall_cold n s sq mq p e Hb Hq He Hf)
        as (s1 & Hq1 & Hmv & ->).
      assert (evolves s (p :: sq) mq ex s1 sq mq (p :: ex)) as Hev1.
      { eapply moved_evolves; try done.
        - perm.
        - intros x Hx _. by right. }
      destruct (inv_sendToDeathRow s1 p sq mq ex) as (s' & -> & Hev2).
      { apply Hev1. }
      { by eapply evolves_bound. }
      exists sq, mq. by eapply evolves_trans.
    + destruct (evictFromSmall_warm n s sq mq p e Hb Hq He Hf)
        as (s1 & Hq1 & Hmv & ->).
      assert (evolves s (p :: sq) mq ex s1 sq (mq ++ [p]) ex) as Hev1.
      { eapply moved_evolves; try done.
        - perm.
        - intros x Hx _. by right.
        - by intros x [Hx| ->%list_elem_of_singleton]%elem_of_app ?. }
      pose proof (evolves_bound _ _ _ _ _ _ _ _ Hev1 Hb) as Hb1.
      destruct (Z.quot (int64 (capacity s * 9)) 10 <? llen (main s1)).
      * pose proof (inv_evictFromMain n s1 sq (mq ++ [p]) ex (proj1 Hev1) Hb1)
          as Hm.
        destruct (evictFromMain n s1) as [s2| |]; [|done|done].
        destruct Hm as (sq2 & mq2 & Hev2). simpl.
        specialize (IH s2 sq2 mq2 ex (proj1 Hev2)
                      (evolves_bound _ _ _ _ _ _ _ _ Hev2 Hb1)).
        destruct (evictFromSmall n s2) as [s'| |]; [|done|done].
        destruct IH as (sq' & mq' & Hev'). exists sq', mq'.
        eapply evolves_trans; [done|]. by eapply evolves_trans.
      * simpl. specialize (IH s1 sq (mq ++ [p]) ex (proj1 Hev1) Hb1).
        destruct (evictFromSmall n s1) as [s'| |]; [|done|done].
        destruct IH as (sq' & mq' & Hev'). exists sq', mq'.
        by eapply evolves_trans.
Qed.

(** The links of an entry inside a chain. *)
Lemma chain_mid h pv q1 p q2 e :
  chain h pv (q1 ++ p :: q2) → h !! p = Some e →
  prev e = match last q1 with Some t => Some t | None => pv end
  ∧ next e = head q2.
Proof.
  revert pv. induction q1 as [|a q1 IH]; intros pv Hc He; simpl in Hc.
  - destruct Hc as (e' & He' & Hp & Hn & _).
    assert (e' = e) as -> by congruence. done.
  - destruct Hc as (_ & _ & _ & _ & Hc).
    destruct (IH _ Hc He) as [Hp Hn]. split; [|done].
    rewrite Hp, last_cons. by destruct (last q1).
Qed.

(** What [remove] leaves in memory, whatever the list. *)
Lemma remove_lookup (l : entryList) p h l' h' e :
  remove l p h = Ok (l', h') → h !! p = Some e →
  prev e ≠ Some p → next e ≠ Some p →
  (∀ x ee, x ≠ p → h !! x = Some ee →
     h' !! x = Some
       ((if decide (prev e = Some x) then set_next (next e) else id)
          ((if decide (next e = Some x) then set_prev (prev e) else id) ee)))
  ∧ h' !! p = Some (set_next None (set_prev None e))
  ∧ l' = EntryList (match prev e with Some _ => lhead l | None => next e end)
                   (match next e with Some _ => ltail l | None => prev e end)
                   (int64 (llen l - 1)).
Proof.
  intros Hrm He Hpp Hpn. unfold remove in Hrm.
  rewrite (proj2 (deref_Ok _ _ _) He) in Hrm. simpl in Hrm.
  bind_inv Hrm as [l1 h1] H1.
  assert (h1 !! p = Some e
          ∧ (∀ x ee, x ≠ p → h !! x = Some ee →
               h1 !! x = Some ((if decide (prev e = Some x)
                                then set_next (next e) else id) ee))
          ∧ l1 = EntryList
                   (match prev e with Some _ => lhead l | None => next e end)
                   (ltail l) (llen l)) as (He1 & Hx1 & ->).
  { destruct (prev e) as [pp|] eqn:Hprev.
    - bind_inv H1 as h0 Hm0. injection H1 as <- <-.
      apply modify_Ok in Hm0 as (epp & Hepp & ->).
      assert (pp ≠ p) by congruence.
      split; [by rewrite list_lookup_insert_ne|]. split; [|by destruct l].
      intros x ee Hx Hex. destruct (decide (Some pp = Some x)) as [[= ->]|Hne].
      + assert (epp = ee) as -> by congruence.
        apply list_lookup_insert_eq. by eapply lookup_lt_Some.
      + rewrite list_lookup_insert_ne; [done|congruence].
    - injection H1 as <- <-. split; [done|]. split; [|done].
      intros x ee Hx Hex. by destruct (decide (None = Some x)). }
  rewrite (proj2 (deref_Ok _ _ _) He1) in Hrm. simpl in Hrm.
  bind_inv Hrm as [l2 h2] H2.
  assert (h2 !! p = Some e
          ∧ (∀ x ee, x ≠ p → h1 !! x = Some ee →
               h2 !! x = Some ((if decide (next e = Some x)
                                then set_prev (prev e) else id) ee))
          ∧ l2 = EntryList
                   (match prev e with Some _ => lhead l | None => next e end)
                   (match next e with Some _ => ltail l | None => prev e end)
                   (llen l)) as (He2 & Hx2 & ->).
  { destruct (next e) as [pn|] eqn:Hnext.
    - bind_inv H2 as h0 Hm0. injection H2 as <- <-.
      apply modify_Ok in Hm0 as (epn & Hepn & ->).
      assert (pn ≠ p) by congruence.
      split; [by rewrite list_lookup_insert_ne|]. split; [|done].
      intros x ee Hx Hex. destruct (decide (Some pn = Some x)) as [[= ->]|Hne].
      + assert (epn = ee) as -> by congruence.
        apply list_lookup_insert_eq. by eapply lookup_lt_Some.
      + rewrite list_lookup_insert_ne; [done|congruence].
    - injection H2 as <- <-. split; [done|]. split; [|done].
      intros x ee Hx Hex. by destruct (decide (None = Some x)). }
  bind_inv Hrm as h3 H3. bind_inv Hrm as h4 H4. injection Hrm as <- <-.
  apply modify_Ok in H3 as (e3 & He3 & ->).
  assert (e3 = e) as -> by congruence.
  apply modify_Ok in H4 as (e4 & He4 & ->).
  rewrite list_lookup_insert_eq in He4 by (by eapply lookup_lt_Some).
  injection He4 as <-. rewrite list_insert_insert_eq.
  split; [|split; [|done]].
  - intros x ee Hx Hex. rewrite list_lookup_insert_ne by done.
    specialize (Hx1 x ee Hx Hex).
    rewrite (Hx2 x _ Hx Hx1).
    by destruct (decide (prev e = Some x)), (decide (next e = Some x)).
  - apply list_lookup_insert_eq. by eapply lookup_lt_Some.
Qed.

(** [remove] returns when the neighbours of the entry exist. *)
Lemma remove_Ok (l : entryList) p h e :
  h !! p = Some e →
  (∀ x, prev e = Some x → x ≠ p ∧ is_Some (h !! x)) →
  (∀ x, next e = Some x → x ≠ p ∧ is_Some (h !! x)) →
  ∃ l' h', remove l p h = Ok (l', h').
Proof.
  intros He Hpv Hnx. unfold remove.
  rewrite (proj2 (deref_Ok _ _ _) He). simpl.
  assert (∃ l1 h1,
    match prev e with
    | Some pp => h0 ← modify pp (set_next (next e)) h; Ok (l, h0)
    | None => Ok (EntryList (next e) (ltail l) (llen l), h)
    end = Ok (l1, h1) ∧ h1 !! p = Some e ∧ length h1 = length h)
    as (l1 & h1 & -> & He1 & Hl1).
  { destruct (prev e) as [pp|]; [|by eexists _, _].
    destruct (Hpv pp eq_refl) as [Hne [epp Hepp]].
    rewrite (modify_valid _ _ _ _ Hepp). simpl. eexists _, _.
    split; [done|]. rewrite length_insert.
    by rewrite list_lookup_insert_ne. }
  simpl. rewrite (proj2 (deref_Ok _ _ _) He1). simpl.
  assert (∃ l2 h2,
    match next e with
    | Some pn => h0 ← modify pn (set_prev (prev e)) h1; Ok (l1, h0)
    | None => Ok (EntryList (lhead l1) (prev e) (llen l1), h1)
    end = Ok (l2, h2) ∧ h2 !! p = Some e) as (l2 & h2 & -> & He2).
  { destruct (next e) as [pn|]; [|by eexists _, _].
    destruct (Hnx pn eq_refl) as [Hne Hepn].
    apply lookup_lt_is_Some in Hepn. rewrite <- Hl1 in Hepn.
    apply lookup_lt_is_Some in Hepn as [epn Hepn].
    rewrite (modify_valid _ _ _ _ Hepn). simpl. eexists _, _.
    split; [done|]. by rewrite list_lookup_insert_ne. }
  simpl. rewrite (modify_valid _ _ _ _ He2). simpl.
  erewrite modify_valid;
    [|apply list_lookup_insert_eq; by eapply lookup_lt_Some].
  simpl. by eexists _, _.
Qed.

(** A chain without one of its entries, once the neighbours of that
    entry are linked to one another. *)
Lemma chain_remove h h' pv q1 p q2 e :
  chain h pv (q1 ++ p :: q2) → NoDup (q1 ++ p :: q2) →
  (∀ a, pv = Some a → a ∉ q1 ++ p :: q2) → h !! p = Some e →
  (∀ x ee, x ∈ q1 ++ q2 → h !! x = Some ee →
     ∃ ee', h' !! x = Some ee'
       ∧ next ee' = (if decide (prev e = Some x) then next e else next ee)
       ∧ prev ee' = (if decide (next e = Some x) then prev e else prev ee)) →
  chain h' pv (q1 ++ q2).
Proof.
  revert pv. induction q1 as [|a q1 IH]; intros pv Hc Hnd Hpv He Hx.
  - simpl in *. destruct q2 as [|b q2]; [done|].
    destruct Hc as (e0 & He0 & Hp & Hn & eb & Heb & Hpb & Hnb & Hc).
    assert (e0 = e) as -> by congruence. simpl in Hn.
    apply NoDup_cons in Hnd as [Hpq Hnd].
    apply NoDup_cons in Hnd as [Hbq Hnd].
    destruct (Hx b eb) as (eb' & Heb' & Hnb' & Hpb'); [left|done|].
    exists eb'. split; [done|].
    rewrite Hn in Hpb'. rewrite Hp in Hnb', Hpb'.
    destruct (decide (Some b = Some b)); [|done].
    destruct (decide (pv = Some b)) as [Hpvb|_].
    { exfalso. apply (Hpv b Hpvb). right. left. }
    split; [done|]. split; [congruence|].
    eapply chain_frame; [done|]. intros x ee Hxq Hex.
    destruct (Hx x ee) as (ee' & Hex' & Hnx' & Hpx'); [by right|done|].
    exists ee'. split; [done|]. rewrite Hn in Hpx'. rewrite Hp in Hnx'.
    destruct (decide (pv = Some x)) as [Hpvx|_].
    { exfalso. apply (Hpv x Hpvx). right. by right. }
    destruct (decide (Some b = Some x)) as [[= ->]|_]; [done|].
    done.
  - simpl in Hc. destruct Hc as (ea & Hea & Hpa & Hna & Hc).
    change ((a :: q1) ++ p :: q2) with (a :: (q1 ++ p :: q2)) in Hnd.
    apply NoDup_cons in Hnd as [Haq Hnd].
    destruct (chain_mid _ _ _ _ _ _ Hc He) as [Hpe Hne].
    destruct (Hx a ea) as (ea' & Hea' & Hna' & Hpa'); [left|done|].
    simpl. exists ea'. split; [done|].
    assert (next e ≠ Some a) as Hnea.
    { rewrite Hne. intros Hh. apply Haq. apply elem_of_app. right. right.
      destruct q2; simplify_eq/=. left. }
    destruct (decide (next e = Some a)); [done|].
    split; [congruence|]. split.
    + rewrite Hna'. destruct q1 as [|b q1].
      * simpl in Hpe. destruct (decide (prev e = Some a)); [|congruence].
        by rewrite Hne.
      * assert (prev e ≠ Some a) as Hpea.
        { rewrite Hpe. destruct (last (b :: q1)) as [t|] eqn:Hl;
            [|by apply last_None in Hl].
          intros [= ->]. apply Haq. apply elem_of_app. left.
          by apply last_elem. }
        destruct (decide (prev e = Some a)); [done|]. by rewrite Hna.
    + apply IH; try done.
      * intros a0 [= <-]. done.
      * intros x ee Hxq. apply Hx. by right.
Qed.

(** Unlinking any entry of a list. *)
Lemma remove_any h l q1 p q2 :
  dll h l (q1 ++ p :: q2) → Z.of_nat (length h) < 2 ^ 63 - 1 →
  ∃ l' h', remove l p h = Ok (l', h') ∧ dll h' l' (q1 ++ q2)
    ∧ (∀ x, x ∉ q1 ++ p :: q2 → h' !! x = h !! x)
    ∧ (∃ e1, h' !! p = Some e1 ∧ prev e1 = None ∧ next e1 = None).
Proof.
  intros Hdll Hbound. pose proof (dll_length _ _ _ Hdll) as Hlen.
  destruct Hdll as (Hc & Hhd & Htl & Hll & Hnd).
  assert (p ∈ q1 ++ p :: q2) as Hpin.
  { apply elem_of_app. right. left. }
  destruct (chain_valid _ _ _ _ Hc Hpin) as [e He].
  destruct (chain_mid _ _ _ _ _ _ Hc He) as [Hpe Hne].
  pose proof Hnd as Hnd'. apply NoDup_app in Hnd' as (Hnd1 & Hdis & Hnd2).
  apply NoDup_cons in Hnd2 as [Hpq2 Hnd2].
  assert (p ∉ q1) as Hpq1.
  { intros Hin. apply (Hdis p Hin). left. }
  assert (∀ x, prev e = Some x → x ∈ q1) as Hprev.
  { intros x Hx. rewrite Hpe in Hx.
    destruct (last q1) as [t|] eqn:Hl; [|done].
    injection Hx as ->. by apply last_elem. }
  assert (∀ x, next e = Some x → x ∈ q2) as Hnext.
  { intros x Hx. rewrite Hne in Hx. destruct q2; simplify_eq/=. left. }
  destruct (remove_Ok l p h e He) as (l' & h' & Hrm).
  { intros x Hx%Hprev. split; [by intros ->|].
    eapply chain_valid; [done|]. apply elem_of_app. by left. }
  { intros x Hx%Hnext. split; [by intros ->|].
    eapply chain_valid; [done|]. apply elem_of_app. right. by right. }
  destruct (remove_lookup _ _ _ _ _ _ Hrm He) as (Hx & Hp & ->).
  { intros Hh%Hprev. done. }
  { intros Hh%Hnext. done. }
  eexists _, h'. split; [done|]. split; [|split].
  - split; [|split; [|split; [|split]]]; simpl.
    + eapply chain_remove; try done.
      intros x ee Hxq Hex. eexists. split.
      * apply Hx; [|done]. intros ->.
        by apply elem_of_app in Hxq as [?|?].
      * by destruct (decide (prev e = Some x)), (decide (next e = Some x)).
    + rewrite Hpe. destruct q1 as [|a q1]; [by rewrite Hne|].
      rewrite last_cons. simpl in Hhd. by destruct (last q1).
    + rewrite Hne. rewrite last_app in Htl. rewrite last_app.
      destruct q2 as [|b q2]; simpl.
      * rewrite Hpe. by destruct (last q1).
      * rewrite last_cons in Htl.
        destruct (last (b :: q2)) eqn:Hl; [done|by apply last_None in Hl].
    + rewrite Hll, int64_small; rewrite !length_app in *; simpl in *; lia.
    + apply NoDup_app. split; [done|]. split; [|done].
      intros x Hx1 Hx2. apply (Hdis x Hx1). by right.
  - intros x Hxq. destruct (h !! x) as [ee|] eqn:Hex.
    + rewrite (Hx x ee); [|by intros ->|done].
      destruct (decide (prev e = Some x)) as [Hh%Hprev|_].
      { exfalso. apply Hxq. apply elem_of_app. by left. }
      destruct (decide (next e = Some x)) as [Hh%Hnext|_].
      { exfalso. apply Hxq. apply elem_of_app. right. by right. }
      done.
    + apply lookup_ge_None. apply lookup_ge_None in Hex.
      destruct (remove_relinked _ _ _ _ _ Hrm) as [Hl _]. lia.
  - eexists. split; [done|]. done.
Qed.

(** Unlinking any entry of Small. *)
Lemma inv_unlink_small s q1 p q2 mq ex :
  shard_inv s (q1 ++ p :: q2) mq ex → mem_bound s →
  ∃ l h, remove (small s) p (mem s) = Ok (l, h)
    ∧ relinked (mem s) h
    ∧ evolves s (q1 ++ p :: q2) mq ex
        (set_small l (set_mem h s)) (q1 ++ q2) mq (p :: ex).
Proof.
  intros Hinv Hb. destruct (inv_queues _ _ _ _ Hinv) as (Hs & Hm & Hd).
  destruct (remove_any _ _ _ _ _ Hs Hb) as (l & h & Hrm & Hs' & Hfr & _).
  pose proof (remove_relinked _ _ _ _ _ Hrm) as Hrel.
  exists l, h. split; [done|]. split; [done|].
  assert (p ∈ q1 ++ p :: q2) as Hpin.
  { apply elem_of_app. right. left. }
  pose proof (inv_nodup _ _ _ _ Hinv) as Hnd.
  apply homes_NoDup in Hnd as (Hnd & _ & _ & _ & Hsq & _).
  destruct (Hsq p Hpin) as (? & ? & ?).
  apply NoDup_app in Hnd as (_ & Hdis & [Hp2 _]%NoDup_cons).
  assert (p ∉ q1 ++ q2) as Hp12.
  { intros [Hin|Hin]%elem_of_app; [|done]. apply (Hdis p Hin). left. }
  apply (evolves_transport id p); try done.
  - apply elem_of_homes. by left.
  - by apply relinked_retagged.
  - split; [done|]. split.
    + eapply dll_frame_eq; [done|]. intros x Hx. apply Hfr.
      intros Hx'. by apply (Hd x).
    + intros x [Hx|Hx]%elem_of_app; apply Hd; apply elem_of_app;
        [by left|right; by right].
  - unfold homes, onRow. simpl. perm.
  - simpl. rewrite (inv_total _ _ _ _ Hinv), !length_app. simpl. lia.
  - intros x [Hx|Hx]%elem_of_app _; apply elem_of_app;
      [by left|right; by right].
Qed.

(** Unlinking any entry of Main. *)
Lemma inv_unlink_main s sq q1 p q2 ex :
  shard_inv s sq (q1 ++ p :: q2) ex → mem_bound s →
  ∃ l h, remove (main s) p (mem s) = Ok (l, h)
    ∧ relinked (mem s) h
    ∧ evolves s sq (q1 ++ p :: q2) ex
        (set_main l (set_mem h s)) sq (q1 ++ q2) (p :: ex).
Proof.
  intros Hinv Hb. destruct (inv_queues _ _ _ _ Hinv) as (Hs & Hm & Hd).
  destruct (remove_any _ _ _ _ _ Hm Hb) as (l & h & Hrm & Hm' & Hfr & _).
  pose proof (remove_relinked _ _ _ _ _ Hrm) as Hrel.
  exists l, h. split; [done|]. split; [done|].
  assert (p ∈ q1 ++ p :: q2) as Hpin.
  { apply elem_of_app. right. left. }
  pose proof (inv_nodup _ _ _ _ Hinv) as Hnd.
  apply homes_NoDup in Hnd as (_ & Hnd & _ & _ & Hsq & Hmq & _).
  destruct (Hmq p Hpin) as (? & ?).
  assert (p ∉ sq) as Hps.
  { intros Hin. by destruct (Hsq p Hin) as (? & _). }
  apply NoDup_app in Hnd as (_ & Hdis & [Hp2 _]%NoDup_cons).
  assert (p ∉ q1 ++ q2) as Hp12.
  { intros [Hin|Hin]%elem_of_app; [|done]. apply (Hdis p Hin). left. }
  apply (evolves_transport id p); try done.
  - apply elem_of_homes. right. by left.
  - by apply relinked_retagged.
  - split; [|split; [done|]].
    + eapply dll_frame_eq; [done|]. intros x Hx. apply Hfr. by apply Hd.
    + intros x Hx [Hx'|Hx']%elem_of_app; apply (Hd x Hx); apply elem_of_app;
        [by left|right; by right].
  - unfold homes, onRow. simpl. perm.
  - simpl. rewrite (inv_total _ _ _ _ Hinv), !length_app. simpl. lia.
  - intros x [Hx|Hx]%elem_of_app _; apply elem_of_app;
      [by left|right; by right].
Qed.

(** An unlinked entry leaves the shard: its key leaves the map and the
    counter goes down. *)
Lemma inv_disown s p e sq mq ex :
  shard_inv s sq mq (p :: ex) → mem s !! p = Some e → mem_bound s →
  shard_inv (set_totalEntries (int64 (totalEntries s - 1))
               (set_entries (delete (key e) (entries s)) s)) sq mq ex.
Proof.
  intros Hinv He Hb.
  set (s' := set_totalEntries _ _).
  assert (homes s sq mq (p :: ex) ≡ₚ p :: homes s' sq mq ex) as Hh.
  { unfold homes, onRow. simpl. perm. }
  pose proof (inv_nodup _ _ _ _ Hinv) as Hnd. rewrite Hh in Hnd.
  apply NoDup_cons in Hnd as [Hfresh Hnd].
  assert (∀ x, x ∈ homes s' sq mq ex → x ∈ homes s sq mq (p :: ex) ∧ x ≠ p)
    as Hsub.
  { intros x Hx. split; [rewrite Hh; by right|by intros ->]. }
  assert (p ∈ homes s sq mq (p :: ex)) as Hpin by (rewrite Hh; left).
  pose proof (homes_bound _ _ _ _ Hinv) as Hhb.
  pose proof (inv_total _ _ _ _ Hinv) as Ht. simpl in Hhb, Ht.
  unfold mem_bound in Hb.
  split; try apply Hinv; try done.
  - intros x [Hx _]%Hsub. by apply Hinv.
  - intros k x. simpl.
    rewrite lookup_delete_Some, (inv_map _ _ _ _ Hinv). split.
    + intros (Hk & Hx & e' & He' & Hke).
      assert (x ≠ p) as Hne by (intros ->; congruence).
      split; [|by exists e'].
      rewrite Hh in Hx. by apply elem_of_cons in Hx as [?|?].
    + intros (Hx & e' & He' & Hke). destruct (Hsub x Hx) as [Hx' Hne].
      split; [|split; [done|by exists e']].
      intros Hk. apply Hne.
      assert (entries s !! k = Some x) as E1.
      { apply (inv_map _ _ _ _ Hinv). eauto. }
      assert (entries s !! k = Some p) as E2.
      { apply (inv_map _ _ _ _ Hinv). split; [done|]. exists e. by subst. }
      congruence.
  - simpl. rewrite int64_small by lia. lia.
Qed.

(** A new entry, in memory and not yet held, enters the shard under a
    key the map does not have. *)
Lemma inv_adopt s p e sq mq ex :
  shard_inv s sq mq ex → p ∉ homes s sq mq ex →
  mem s !! p = Some e → entries s !! key e = None → mem_bound s →
  shard_inv (set_totalEntries (int64 (totalEntries s + 1))
               (set_entries (<[key e := p]> (entries s)) s)) sq mq (p :: ex).
Proof.
  intros Hinv Hp He Hk Hb.
  set (s' := set_totalEntries _ _).
  assert (homes s' sq mq (p :: ex) ≡ₚ p :: homes s sq mq ex) as Hh.
  { unfold homes, onRow. simpl. perm. }
  pose proof (homes_bound _ _ _ _ Hinv) as Hhb.
  pose proof (inv_total _ _ _ _ Hinv) as Ht.
  unfold mem_bound in Hb.
  split; try apply Hinv; try done.
  - rewrite Hh. apply NoDup_cons. split; [done|apply Hinv].
  - intros x Hx. rewrite Hh in Hx. apply elem_of_cons in Hx as [->|Hx];
      [by eexists|by apply Hinv].
  - intros k x. simpl. rewrite lookup_insert_Some, Hh, elem_of_cons.
    rewrite (inv_map _ _ _ _ Hinv). split.
    + intros [[<- <-]|(Hne & Hx & Hex)]; [|by eauto].
      split; [by left|by exists e].
    + intros ([->|Hx] & e' & He' & Hke).
      * left. split; [|done]. congruence.
      * right. split; [|by eauto]. intros <-.
        assert (entries s !! key e = Some x) as E1.
        { apply (inv_map _ _ _ _ Hinv). eauto. }
        congruence.
  - simpl. rewrite int64_small by lia. lia.
Qed.

Lemma clearSlot_length p (d : list (option ptr)) :
  length (clearSlot p d) = length d.
Proof.
  induction d as [|x d IH]; [done|]. simpl.
  destruct (decide (x = Some p)); simpl; by rewrite ?IH.
Qed.

Lemma omap_clearSlot p (d : list (option ptr)) :
  p ∈ omap id d → omap id d ≡ₚ p :: omap id (clearSlot p d).
Proof.
  induction d as [|x d IH]; intros Hp; [by apply elem_of_nil in Hp|].
  simpl. destruct (decide (x = Some p)) as [->|Hne]; [done|].
  destruct x as [a|]; simpl in *.
  - apply elem_of_cons in Hp as [->|Hp]; [done|].
    rewrite (IH Hp). apply Permutation_swap.
  - by apply IH.
Qed.

(** An entry is taken out of death row, and counts again. *)
Lemma inv_unrow s p sq mq ex :
  shard_inv s sq mq ex → p ∈ onRow s → mem_bound s →
  shard_inv (set_totalEntries (int64 (totalEntries s + 1))
               (set_deathRow (clearSlot p (deathRow s)) (deathRowPos s) s))
            sq mq (p :: ex).
Proof.
  intros Hinv Hp Hb.
  set (s' := set_totalEntries _ _).
  assert (onRow s ≡ₚ p :: onRow s') as Hon by (by apply omap_clearSlot).
  assert (homes s' sq mq (p :: ex) ≡ₚ homes s sq mq ex) as Hh.
  { unfold homes. rewrite Hon. perm. }
  pose proof (homes_bound _ _ _ _ Hinv) as Hhb.
  pose proof (inv_total _ _ _ _ Hinv) as Ht.
  apply Permutation_length in Hon. simpl in Hon.
  unfold mem_bound in Hb.
  split; try apply Hinv; try done.
  - simpl. rewrite clearSlot_length. apply Hinv.
  - rewrite Hh. apply Hinv.
  - intros x Hx. rewrite Hh in Hx. by apply Hinv.
  - intros x e Hx. apply Hinv. unfold onRow in Hx |- *.
    rewrite (omap_clearSlot p (deathRow s) Hp). by right.
  - intros k x. rewrite Hh. apply Hinv.
  - simpl. rewrite int64_small by lia. lia.
Qed.

(** After [flush] the shard holds nothing. *)
Lemma inv_flush s : shard_inv (cache_flush s).1 [] [] [].
Proof.
  split; try done.
  - split; [|split; [|by intros ? ?%elem_of_nil]];
      (split; [done|]; split; [done|]; split; [done|]; split; [done|]);
      apply NoDup_nil_2.
  - apply NoDup_nil_2.
  - intros x Hx. by apply elem_of_nil in Hx.
  - intros x e Hx. by apply elem_of_nil in Hx.
  - intros x e Hx. by apply elem_of_nil in Hx.
  - intros x e Hx. by apply elem_of_nil in Hx.
  - intros k x. simpl. rewrite lookup_empty. split; [done|].
    intros [Hx _]. by apply elem_of_nil in Hx.
Qed.

(** The hit accounting touches the two counters only. *)
Lemma bump_keeps e :
  prev (bump e) = prev e ∧ next (bump e) = next e ∧ key (bump e) = key e
  ∧ value (bump e) = value e ∧ expiryNano (bump e) = expiryNano e
  ∧ inSmall (bump e) = inSmall e ∧ onDeathRow (bump e) = onDeathRow e.
Proof.
  unfold bump. destruct (freq e <? maxFreq)%N; [|done].
  by destruct (_ <? _)%N.
Qed.

(** An entry of the map with its flag set is on death row. *)
Lemma flagged_on_row s sq mq k p e :
  shard_inv s sq mq [] → entries s !! k = Some p → mem s !! p = Some e →
  onDeathRow e = true → p ∈ onRow s.
Proof.
  intros Hinv Hk He Hfl.
  apply (inv_map _ _ _ _ Hinv) in Hk as [Hp _].
  apply elem_of_homes in Hp as [Hp|[Hp|[Hp|Hp]]]; [| |done|].
  - destruct (inv_small _ _ _ _ Hinv p e Hp He). congruence.
  - destruct (inv_main _ _ _ _ Hinv p e Hp He). congruence.
  - by apply elem_of_nil in Hp.
Qed.

(** [get] on a shard with its structure, case by case: a key the map
    does not have is a miss; an entry on death row is resurrected into
    Main and returned, whatever its expiry; a live entry that has expired
    is a miss, and nothing changes; any other live entry is a hit, and
    only its counters change. *)
Lemma get_by_cases k now s sq mq :
  shard_inv s sq mq [] → mem_bound s →
  match entries s !! k with
  | None => get zeroV k now s = Ok (s, (zeroV, false))
  | Some p =>
      ∃ e, mem s !! p = Some e ∧ key e = k ∧
        if onDeathRow e then
          ∃ s', get zeroV k now s = Ok (s', (value e, true))
            ∧ shard_inv s' sq (mq ++ [p]) []
            ∧ entries s' = entries s
            ∧ length (mem s') = length (mem s)
            ∧ totalEntries s' = totalEntries s + 1
        else if negb (expiryNano e =? 0) && (expiryNano e <? now) then
          get zeroV k now s = Ok (s, (zeroV, false))
        else
          get zeroV k now s
          = Ok (set_mem (<[p := bump e]> (mem s)) s, (value e, true))
          ∧ shard_inv (set_mem (<[p := bump e]> (mem s)) s) sq mq []
  end.
Proof.
  intros Hinv Hb. destruct (entries s !! k) as [p|] eqn:Hk.
  2: { unfold get. by rewrite Hk. }
  pose proof Hk as Hk'.
  apply (inv_map _ _ _ _ Hinv) in Hk' as (Hp & e & He & Hke).
  exists e. split; [done|]. split; [done|].
  destruct (onDeathRow e) eqn:Hfl.
  - pose proof (flagged_on_row _ _ _ _ _ _ Hinv Hk He Hfl) as Hrow.
    pose proof (inv_unrow _ _ _ _ _ Hinv Hrow Hb) as Hinv1.
    set (s1 := set_totalEntries _ _) in Hinv1.
    set (f := set_peakFreq (K:=K) (V:=V) 3 ∘ set_freq 3 ∘ set_inSmall false
              ∘ set_onDeathRow false).
    pose proof (modify_valid p f _ e He) as Hmod.
    assert (p ∈ homes s1 sq mq [p]) as Hp1.
    { apply elem_of_homes. right. right. right. left. }
    destruct (inv_modify f p s1 sq mq [p] _ Hinv1 Hp1 Hmod) as (Hinv2 & _);
      try done.
    { intros Hn. exfalso. apply Hn. left. }
    set (h2 := <[p := f e]> (mem s)) in *.
    assert (h2 !! p = Some (f e)) as He2.
    { apply list_lookup_insert_eq. by eapply lookup_lt_Some. }
    destruct (inv_link_main (set_mem h2 s1) p (f e) sq mq [])
      as (l & h3 & Hpush & Hinv3 & (Hl3 & _) & _); try done.
    { unfold mem_bound. simpl. unfold h2. by rewrite length_insert. }
    destruct (pushBack_relinked _ _ _ _ _ Hpush) as [_ Hrel].
    destruct (Hrel p (f e) He2) as (e3 & He3 & Hs3).
    pose proof (homes_bound _ _ _ _ Hinv) as Hhb.
    pose proof (inv_total _ _ _ _ Hinv) as Ht.
    assert (0 < length (onRow s))%nat as Hpos.
    { destruct (onRow s); [by apply elem_of_nil in Hrow|simpl; lia]. }
    unfold mem_bound in Hb.
    exists (set_main l (set_mem h3 (set_mem h2 s1))).
    split; [|split; [done|split; [done|split]]].
    + unfold get. rewrite Hk. rewrite (proj2 (deref_Ok _ _ _) He). simpl.
      rewrite Hfl. unfold resurrectFromDeathRow.
      rewrite Hk. rewrite (proj2 (deref_Ok _ _ _) He). simpl.
      rewrite Hfl. simpl. unfold f in Hmod.
      apply modify_split in Hmod as (h4 & H1 & Hmod).
      apply modify_split in Hmod as (h5 & H2 & Hmod).
      apply modify_split in Hmod as (h6 & H3 & H4).
      rewrite H1. simpl. rewrite H2. simpl. rewrite H3. simpl.
      rewrite H4. simpl. simpl in Hpush. rewrite Hpush. simpl.
      rewrite (proj2 (deref_Ok _ _ _) He3). simpl.
      by rewrite (strip_value _ _ Hs3).
    + simpl in Hl3 |- *. rewrite Hl3. unfold h2. by rewrite length_insert.
    + simpl. rewrite int64_small; lia.
  - destruct (negb (expiryNano e =? 0) && (expiryNano e <? now)) eqn:Hexp.
    + unfold get. rewrite Hk. rewrite (proj2 (deref_Ok _ _ _) He). simpl.
      by rewrite Hfl, Hexp.
    + pose proof (modify_valid p bump _ e He) as Hmod.
      destruct (bump_keeps e) as (? & ? & ? & ? & ? & ? & ?).
      split.
      * unfold get. rewrite Hk. rewrite (proj2 (deref_Ok _ _ _) He). simpl.
        rewrite Hfl, Hexp. by rewrite Hmod.
      * eapply (inv_modify bump p s sq mq []); try done.
        -- intros e0. by destruct (bump_keeps e0) as (? & ? & _).
        -- intros e0. by destruct (bump_keeps e0) as (_ & _ & ? & _).
        -- intros _ e0. by destruct (bump_keeps e0) as (_ & _ & _ & _ & _ & ? & ?).
Qed.

Lemma safely_bind {A C} (m : res A) (f : A → res C) (Q : A → Prop)
    (P : C → Prop) :
  safely m Q → (∀ a, Q a → safely (f a) P) → safely (m ≫= f) P.
Proof. destruct m; simpl; eauto. Qed.

Lemma safely_mono {A} (m : res A) (P Q : A → Prop) :
  safely m P → (∀ a, P a → Q a) → safely m Q.
Proof. destruct m; simpl; eauto. Qed.

(** A store into the pending entry that keeps what makes it pending. *)
Lemma pending_modify (f : entryT → entryT) k v exp p s :
  pending k v exp p s →
  (∀ e, key (f e) = key e ∧ value (f e) = value e
        ∧ expiryNano (f e) = expiryNano e
        ∧ onDeathRow (f e) = onDeathRow e) →
  ∃ h e, modify p f (mem s) = Ok h ∧ h !! p = Some (f e)
         ∧ pending k v exp p (set_mem h s)
         ∧ length h = length (mem s).
Proof.
  intros (sq & mq & e & Hinv & Hp & He & Hk & Hv & Hx & Hd & Hno) Hf.
  pose proof (modify_valid p f _ e He) as Hmod.
  assert (<[p := f e]> (mem s) !! p = Some (f e)) as He'.
  { apply list_lookup_insert_eq. by eapply lookup_lt_Some. }
  eexists _, e. split; [done|]. split; [done|].
  split; [|by rewrite length_insert].
  destruct (Hf e) as (? & ? & ? & ?).
  exists sq, mq, (f e). split; [by eapply inv_modify_outside|].
  split; [done|]. split; [done|].
  repeat split; try congruence. done.
Qed.

Lemma pending_warm k v exp p s :
  pending k v exp p s → pending k v exp p (set_warmupComplete true s).
Proof.
  intros (sq & mq & e & Hinv & Hp & He & Hrest).
  exists sq, mq, e. split; [eapply inv_ext; [..|exact Hinv]; done|]. done.
Qed.

(** The pending entry stays pending along an evolution of the shard. *)
Lemma pending_evolves k v exp p s sq mq s' sq' mq' :
  pending k v exp p s → shard_inv s sq mq [] →
  evolves s sq mq [] s' sq' mq' [] → pending k v exp p s'.
Proof.
  intros (sq0 & mq0 & e & Hinv0 & Hp0 & He & Hk & Hv & Hx & Hd & Hno) Hinv.
  intros (Hinv' & (Hl & Hkeep & Hent) & Hsub).
  assert (p ∉ homes s sq mq []) as Hp.
  { intros Hin.
    assert (entries s !! key e = Some p) as Hin'.
    { apply (inv_map _ _ _ _ Hinv). split; [done|]. by exists e. }
    congruence. }
  destruct (Hkeep p e Hp He) as (e' & He' & Hs).
  exists sq', mq', e'. split; [done|]. split; [by intros Hin%Hsub|].
  split; [done|].
  rewrite (strip_key _ _ Hs), (strip_value _ _ Hs), (strip_expiryNano _ _ Hs),
    (strip_onDeathRow _ _ Hs).
  repeat split; try done. by apply Hent.
Qed.

Lemma pending_bound k v exp p s :
  pending k v exp p s → (p < length (mem s))%nat.
Proof.
  intros (sq & mq & e & _ & _ & He & _). by eapply lookup_lt_Some.
Qed.

Lemma pending_evictFromMain fuel k v exp p s :
  pending k v exp p s → mem_bound s →
  safely (evictFromMain fuel s)
    (λ s', pending k v exp p s' ∧ length (mem s') = length (mem s)).
Proof.
  intros Hpe Hb. pose proof Hpe as (sq & mq & e & Hinv & _).
  pose proof (inv_evictFromMain fuel s sq mq [] Hinv Hb) as Hev.
  unfold safely. destruct (evictFromMain fuel s) as [s'| |]; [|done|done].
  destruct Hev as (sq' & mq' & Hev).
  split; [by eapply pending_evolves|]. apply Hev.
Qed.

Lemma pending_evictFromSmall fuel k v exp p s :
  pending k v exp p s → mem_bound s →
  safely (evictFromSmall fuel s)
    (λ s', pending k v exp p s' ∧ length (mem s') = length (mem s)).
Proof.
  intros Hpe Hb. pose proof Hpe as (sq & mq & e & Hinv & _).
  pose proof (inv_evictFromSmall fuel s sq mq [] Hinv Hb) as Hev.
  unfold safely. destruct (evictFromSmall fuel s) as [s'| |]; [|done|done].
  destruct Hev as (sq' & mq' & Hev).
  split; [by eapply pending_evolves|]. apply Hev.
Qed.

(** The pending entry is linked into the queue its flag names and
    entered in the map. *)
Lemma pending_link k v exp p s e :
  pending k v exp p s → mem_bound s → mem s !! p = Some e →
  ∃ l hp,
    pushBack (if inSmall e then small s else main s) p (mem s) = Ok (l, hp)
    ∧ let s' := set_totalEntries (int64 (totalEntries s + 1))
                  (set_entries (<[k := p]> (entries s))
                     (set_mem hp (if inSmall e then set_small l s
                                  else set_main l s))) in
      wf s' ∧ bound_to k v exp s' ∧ length (mem s') = length (mem s).
Proof.
  intros (sq & mq & e0 & Hinv & Hp & He0 & Hk & Hv & Hx & Hd & Hno) Hb He.
  assert (e0 = e) as -> by congruence.
  rewrite <- Hk in Hno.
  pose proof (inv_adopt s p e sq mq [] Hinv Hp He Hno Hb) as Hinv1.
  rewrite Hk in Hinv1. set (s1 := set_totalEntries _ _) in Hinv1.
  destruct (inSmall e) eqn:Hsm.
  - destruct (inv_link_small s1 p e sq mq [] Hinv1 Hb He Hsm Hd)
      as (l & hp & Hpush & Hinv2 & (Hl & _) & _).
    exists l, hp. split; [done|].
    destruct (pushBack_relinked _ _ _ _ _ Hpush) as [_ Hrel].
    destruct (Hrel p e He) as (e' & He' & Hs).
    split; [by exists (sq ++ [p]), mq|]. split; [|done].
    exists p, e'. split; [apply lookup_insert_eq|]. split; [done|].
    by rewrite (strip_value _ _ Hs), (strip_expiryNano _ _ Hs).
  - destruct (inv_link_main s1 p e sq mq [] Hinv1 Hb He Hsm Hd)
      as (l & hp & Hpush & Hinv2 & (Hl & _) & _).
    exists l, hp. split; [done|].
    destruct (pushBack_relinked _ _ _ _ _ Hpush) as [_ Hrel].
    destruct (Hrel p e He) as (e' & He' & Hs).
    split; [by exists sq, (mq ++ [p])|]. split; [|done].
    exists p, e'. split; [apply lookup_insert_eq|]. split; [done|].
    by rewrite (strip_value _ _ Hs), (strip_expiryNano _ _ Hs).
Qed.

(** [setWithHash] on a shard with its structure does not panic, keeps
    the structure, and leaves the key in the map with the value and the
    expiry given. *)
Lemma setWithHash_safely fuel k v exp hsh s :
  wf s → Z.of_nat (length (mem s)) + 1 < 2 ^ 63 - 1 →
  safely (setWithHash hasher fuel k v exp hsh s)
    (λ s', wf s' ∧ bound_to k v exp s'
           ∧ (length (mem s') ≤ length (mem s) + 1)%nat).
Proof.
  intros (sq & mq & Hinv) Hb. unfold setWithHash.
  destruct (entries s !! k) as [p|] eqn:Hk.
  - pose proof Hk as Hk'.
    apply (inv_map _ _ _ _ Hinv) in Hk' as (Hp & e & He & Hke).
    set (f := bump ∘ set_expiryNano (K:=K) (V:=V) exp ∘ set_value v).
    pose proof (modify_valid p f _ e He) as Hmod.
    assert (evolves s sq mq [] (set_mem (<[p := f e]> (mem s)) s) sq mq [])
      as (Hinv' & _).
    { apply (inv_modify f p); try done.
      - intros e0. unfold f. simpl.
        by destruct (bump_keeps (set_expiryNano exp (set_value v e0)))
          as (-> & -> & _).
      - intros e0. unfold f. simpl.
        by destruct (bump_keeps (set_expiryNano exp (set_value v e0)))
          as (_ & _ & -> & _).
      - intros _ e0. unfold f. simpl.
        by destruct (bump_keeps (set_expiryNano exp (set_value v e0)))
          as (_ & _ & _ & _ & _ & -> & ->). }
    unfold f in Hmod.
    apply modify_split in Hmod as (h1 & H1 & Hmod).
    apply modify_split in Hmod as (h2 & H2 & H3).
    rewrite H1. simpl. rewrite H2. simpl. rewrite H3. simpl.
    split; [by exists sq, mq|]. split; [|by rewrite length_insert; lia].
    exists p, (f e). split; [done|]. split.
    { simpl. apply list_lookup_insert_eq. by eapply lookup_lt_Some. }
    unfold f. simpl.
    by destruct (bump_keeps (set_expiryNano exp (set_value v e)))
      as (_ & _ & _ & -> & -> & _).
  - cbv zeta.
    set (h0 := if (hsh =? 0)%N then hasher k else hsh).
    set (ent := set_hash h0 _).
    set (p := length (mem s)).
    set (s0 := set_mem (mem s ++ [ent]) s).
    assert (pending k v exp p s0) as Hpe.
    { destruct (inv_alloc s ent sq mq [] Hinv) as [Hinv0 Hp].
      exists sq, mq, ent. split; [done|]. split; [done|].
      split; [|done]. simpl. rewrite lookup_app_r by done.
      by rewrite Nat.sub_diag. }
    assert (mem_bound s0) as Hb0.
    { unfold mem_bound. simpl. rewrite length_app. simpl. lia. }
    assert (length (mem s0) = (length (mem s) + 1)%nat) as Hl0.
    { simpl. by rewrite length_app. }
    clearbody s0. clear Hinv.
    destruct (negb (warmupComplete s0)
              && negb (pcapacity s0 <=? totalEntries s0)).
    + destruct (pending_modify (set_inSmall true) _ _ _ _ _ Hpe)
        as (h1 & e0 & -> & He1 & Hpe1 & Hl1); [done|].
      rewrite res_bind_Ok.
      destruct (pending_link k v exp p (set_mem h1 s0)
                  (set_inSmall true e0) Hpe1) as
        (l & hp & Hpush & Hwf & Hbt & Hl); [|exact He1|].
      { unfold mem_bound. simpl. by rewrite Hl1. }
      simpl in Hpush. rewrite Hpush, res_bind_Ok. cbv beta iota.
      simpl in Hwf, Hbt, Hl. simpl.
      split; [done|]. split; [done|]. lia.
    + eapply (safely_bind _ _
        (λ s1, pending k v exp p s1 ∧ mem_bound s1
               ∧ length (mem s1) = (p + 1)%nat)).
      * apply pending_warm in Hpe.
        set (sw := set_warmupComplete true s0) in *.
        assert (mem_bound sw) as Hbw by done.
        assert (length (mem sw) = (p + 1)%nat) as Hlw by done.
        clearbody sw.
        destruct (pcapacity s0 <=? totalEntries s0).
        -- destruct (pending_modify
                       (set_inSmall (negb (Contains (ghostActive sw) h0
                                           || Contains (ghostAging sw) h0)))
                       _ _ _ _ _ Hpe)
             as (h1 & e0 & -> & He1 & Hpe1 & Hl1); [done|].
           rewrite res_bind_Ok.
           assert (∃ h2,
             (if Contains (ghostActive sw) h0 || Contains (ghostAging sw) h0
              then match ring_lookup (ghostFreqRng sw) h0 with
                   | Some peak =>
                       hp ← modify p (set_freq peak) h1;
                       modify p (set_peakFreq peak) hp
                   | None => Ok h1
                   end
              else Ok h1) = Ok h2
             ∧ pending k v exp p (set_mem h2 sw)
             ∧ length h2 = length (mem sw)) as (h2 & -> & Hpe2 & Hl2).
           { destruct (_ || _); [|by exists h1].
             destruct (ring_lookup _ _) as [peak|]; [|by exists h1].
             destruct (pending_modify (set_freq peak) _ _ _ _ _ Hpe1)
               as (h3 & e3 & H3 & He3 & Hpe3 & Hl3); [done|].
             destruct (pending_modify (set_peakFreq peak) _ _ _ _ _ Hpe3)
               as (h4 & e4 & H4 & He4 & Hpe4 & Hl4); [done|].
             simpl in H3, H4, Hl3, Hl4. rewrite H3, res_bind_Ok, H4.
             exists h4. split; [done|]. split; [done|]. lia. }
           rewrite res_bind_Ok.
           assert (mem_bound (set_mem h2 sw)) as Hb2.
           { unfold mem_bound in *. simpl. by rewrite Hl2. }
           destruct (_ && _).
           ++ eapply safely_mono; [by apply pending_evictFromMain|].
              intros s1 [Hpe' Hl']. split; [done|].
              unfold mem_bound in *. simpl in Hl'. rewrite Hl'.
              split; [lia|]. lia.
           ++ destruct (0 <? _).
              ** eapply safely_mono; [by apply pending_evictFromSmall|].
                 intros s1 [Hpe' Hl']. split; [done|].
                 unfold mem_bound in *. simpl in Hl'. rewrite Hl'.
                 split; [lia|]. lia.
              ** simpl. split; [done|]. split; [done|]. simpl. lia.
        -- destruct (pending_modify (set_inSmall true) _ _ _ _ _ Hpe)
             as (h1 & e0 & -> & He1 & Hpe1 & Hl1); [done|].
           rewrite res_bind_Ok. simpl. split; [done|].
           unfold mem_bound in *. simpl. rewrite Hl1. split; [lia|]. lia.
      * intros s1 (Hpe1 & Hb1 & Hl1). cbv beta.
        pose proof Hpe1 as (_ & _ & e1 & _ & _ & He1 & _).
        rewrite (proj2 (deref_Ok _ _ _) He1), res_bind_Ok.
        destruct (pending_link k v exp p s1 e1 Hpe1 Hb1 He1) as
          (l & hp & Hpush & Hwf & Hbt & Hl).
        destruct (inSmall e1); rewrite Hpush;
          repeat (rewrite res_bind_Ok; cbv beta iota); simpl;
          (split; [done|]; split; [done|]); simpl in Hl; lia.
Qed.

(** [delete] of a key that is not on death row: the key leaves the map,
    its entry leaves its queue, and the shard keeps its structure. *)
Lemma delete_key_live k s :
  wf s → mem_bound s → doomed s k = false →
  ∃ s', delete_key k s = Ok s' ∧ wf s'
    ∧ entries s' = delete k (entries s)
    ∧ length (mem s') = length (mem s)
    ∧ totalEntries s'
      = match entries s !! k with
        | Some _ => totalEntries s - 1
        | None => totalEntries s
        end.
Proof.
  intros (sq & mq & Hinv) Hb Hdoom. unfold delete_key, doomed in *.
  destruct (entries s !! k) as [p|] eqn:Hk.
  2: { exists s. split; [done|]. split; [by exists sq, mq|].
       by rewrite delete_id. }
  pose proof Hk as Hk'.
  apply (inv_map _ _ _ _ Hinv) in Hk' as (Hp & e & He & Hke).
  rewrite He in Hdoom. rewrite (proj2 (deref_Ok _ _ _) He), res_bind_Ok.
  pose proof (homes_bound _ _ _ _ Hinv) as Hhb.
  pose proof (inv_total _ _ _ _ Hinv) as Ht.
  unfold mem_bound in Hb.
  apply elem_of_homes in Hp as [Hp|[Hp|[Hp|Hp]]].
  - destruct (inv_small _ _ _ _ Hinv p e Hp He) as [-> _].
    apply list_elem_of_split in Hp as (q1 & q2 & ->).
    destruct (inv_unlink_small s q1 p q2 mq [] Hinv Hb)
      as (l & h & Hrm & [Hl Hrel] & Hinv1 & _).
    cbv beta iota. rewrite Hrm. repeat (rewrite res_bind_Ok; cbv beta iota).
    destruct (Hrel p e He) as (e1 & He1 & Hs1).
    pose proof (inv_disown _ p e1 _ _ _ Hinv1 He1) as Hinv2.
    rewrite (strip_key _ _ Hs1), Hke in Hinv2.
    eexists. split; [done|]. split.
    { exists (q1 ++ q2), mq. apply Hinv2. unfold mem_bound. simpl. lia. }
    split; [done|]. split; [done|]. simpl.
    rewrite length_app in Ht, Hhb. simpl in Ht, Hhb. rewrite int64_small; lia.
  - destruct (inv_main _ _ _ _ Hinv p e Hp He) as [-> _].
    apply list_elem_of_split in Hp as (q1 & q2 & ->).
    destruct (inv_unlink_main s sq q1 p q2 [] Hinv Hb)
      as (l & h & Hrm & [Hl Hrel] & Hinv1 & _).
    cbv beta iota. rewrite Hrm. repeat (rewrite res_bind_Ok; cbv beta iota).
    destruct (Hrel p e He) as (e1 & He1 & Hs1).
    pose proof (inv_disown _ p e1 _ _ _ Hinv1 He1) as Hinv2.
    rewrite (strip_key _ _ Hs1), Hke in Hinv2.
    eexists. split; [done|]. split.
    { exists sq, (q1 ++ q2). apply Hinv2. unfold mem_bound. simpl. lia. }
    split; [done|]. split; [done|]. simpl.
    rewrite length_app in Ht, Hhb. simpl in Ht, Hhb. rewrite int64_small; lia.
  - pose proof (inv_row _ _ _ _ Hinv p e Hp He). congruence.
  - by apply elem_of_nil in Hp.
Qed.

(** One operation on a shard with its structure. *)
Lemma step_keeps fuel o s :
  wf s → Z.of_nat (length (mem s)) + 1 < 2 ^ 63 - 1 → spares o s = true →
  safely (step zeroV hasher fuel o s)
    (λ s', wf s' ∧ (length (mem s') ≤ length (mem s) + 1)%nat).
Proof.
  intros Hwf Hb Hsp. destruct o as [k v exp hsh|k now|k|]; simpl.
  - eapply safely_mono; [by apply setWithHash_safely|].
    by intros s' (? & _ & ?).
  - destruct Hwf as (sq & mq & Hinv).
    assert (mem_bound s) as Hb' by (unfold mem_bound; lia).
    pose proof (get_by_cases k now s sq mq Hinv Hb') as Hg.
    destruct (entries s !! k) as [p|].
    + destruct Hg as (e & He & Hke & Hg). destruct (onDeathRow e).
      * destruct Hg as (s' & -> & Hinv' & _ & Hl & _). simpl.
        split; [by eexists _, _|]. lia.
      * destruct (_ && _).
        -- rewrite Hg. simpl. split; [by exists sq, mq|]. lia.
        -- destruct Hg as [-> Hinv']. simpl.
           split; [by exists sq, mq|]. rewrite length_insert. lia.
    + rewrite Hg. simpl. split; [by exists sq, mq|]. lia.
  - simpl in Hsp. apply negb_true_iff in Hsp.
    destruct (delete_key_live k s Hwf) as (s' & -> & Hwf' & _ & Hl & _);
      [unfold mem_bound; lia|done|].
    simpl. split; [done|]. lia.
  - split; [|simpl; lia]. exists [], []. apply inv_flush.
Qed.

(** A run that deletes no key on death row does not panic, and the
    shard keeps its structure. *)
Lemma run_safely fuel ops : ∀ s,
  wf s → Z.of_nat (length (mem s) + length ops) < 2 ^ 63 - 1 →
  tame zeroV hasher fuel ops s = true →
  safely (run zeroV hasher fuel ops s) wf.
Proof.
  induction ops as [|o ops IH]; intros s Hwf Hb Ht; [done|].
  simpl in Ht, Hb |- *. apply andb_true_iff in Ht as [Hsp Ht].
  pose proof (step_keeps fuel o s Hwf) as Hs.
  destruct (step zeroV hasher fuel o s) as [s'| |]; simpl in *.
  - destruct Hs as [Hwf' Hl]; [lia|done|]. apply IH; [done|lia|done].
  - apply Hs; [lia|done].
  - done.
Qed.

Lemma wf_newShard scap size : wf (newShard (K:=K) (V:=V) (B:=B) scap size).
Proof.
  exists [], []. split; try done.
  - split; [|split; [|by intros ? ?%elem_of_nil]];
      (split; [done|]; split; [done|]; split; [done|]; split; [done|]);
      apply NoDup_nil_2.
  - apply NoDup_nil_2.
  - intros x Hx. by apply elem_of_nil in Hx.
  - intros k x. simpl. rewrite lookup_empty. split; [done|].
    intros [Hx _]. by apply elem_of_nil in Hx.
Qed.

Lemma onRow_elem s p : p ∈ onRow s ↔ Some p ∈ deathRow s.
Proof.
  unfold onRow. rewrite list_elem_of_omap. split.
  - by intros ([x|] & Hx & [= ->]).
  - intros Hx. by exists (Some p).
Qed.

(** In a shard with its structure every entry of the map is in exactly
    one of Small, Main and death row. *)
Lemma wf_homes s : wf s → homes_inv s.
Proof.
  intros (sq & mq & Hinv) k p Hk.
  apply (inv_map _ _ _ _ Hinv) in Hk as [Hp _].
  destruct (inv_queues _ _ _ _ Hinv) as (Hs & Hm & _).
  pose proof (inv_nodup _ _ _ _ Hinv) as Hnd.
  apply homes_NoDup in Hnd as (_ & _ & _ & _ & Hsq & Hmq & _).
  unfold oneHome, inSmallQ, inMainQ, inDeathRow.
  rewrite (dll_linked _ _ _ Hs), (dll_linked _ _ _ Hm).
  rewrite <- (bool_decide_ext _ _ (onRow_elem s p)).
  apply elem_of_homes in Hp as [Hp|[Hp|[Hp|Hp]]].
  - destruct (Hsq p Hp) as (? & ? & _).
    by rewrite (bool_decide_true _ Hp), !bool_decide_false.
  - destruct (Hmq p Hp) as (? & _).
    assert (p ∉ sq) by (intros Hin; by destruct (Hsq p Hin) as (? & _)).
    by rewrite (bool_decide_true _ Hp), !bool_decide_false.
  - assert (p ∉ sq) by (intros Hin; by destruct (Hsq p Hin) as (_ & ? & _)).
    assert (p ∉ mq) by (intros Hin; by destruct (Hmq p Hin) as (? & _)).
    by rewrite (bool_decide_true _ Hp), !bool_decide_false.
  - by apply elem_of_nil in Hp.
Qed.

(** In a shard with its structure the counter is the number of live
    entries, and the map has the live entries and those on death row,
    which are eight at most. *)
Theorem wf_counts s :
  wf s →
  totalEntries s = liveCount s
  ∧ entriesSize s = totalEntries s + Z.of_nat (length (onRow s))
  ∧ (length (onRow s) ≤ 8)%nat.
Proof.
  intros (sq & mq & Hinv).
  destruct (inv_queues _ _ _ _ Hinv) as (Hs & Hm & _).
  pose proof (inv_total _ _ _ _ Hinv) as Ht. simpl in Ht.
  split; [|split].
  - unfold liveCount.
    rewrite (dll_linked _ _ _ Hs), (dll_linked _ _ _ Hm). lia.
  - unfold entriesSize. rewrite <- length_map_to_list.
    assert ((map_to_list (entries s)).*2 ≡ₚ homes s sq mq []) as Hperm.
    { apply NoDup_Permutation.
      - apply NoDup_fmap_2_strong; [|apply NoDup_map_to_list].
        intros [k1 p1] [k2 p2] H1%elem_of_map_to_list H2%elem_of_map_to_list.
        simpl. intros ->.
        apply (inv_map _ _ _ _ Hinv) in H1 as (_ & e1 & He1 & <-).
        apply (inv_map _ _ _ _ Hinv) in H2 as (_ & e2 & He2 & <-).
        congruence.
      - apply Hinv.
      - intros p. rewrite list_elem_of_fmap. split.
        + intros ([k p'] & -> & Hkp%elem_of_map_to_list).
          by apply (inv_map _ _ _ _ Hinv) in Hkp as [? _].
        + intros Hp. destruct (inv_valid _ _ _ _ Hinv p Hp) as [e He].
          exists (key e, p). split; [done|]. apply elem_of_map_to_list.
          apply (inv_map _ _ _ _ Hinv). eauto. }
    apply Permutation_length in Hperm. rewrite length_fmap in Hperm.
    rewrite Hperm. unfold homes. rewrite !length_app. simpl. lia.
  - unfold onRow. rewrite <- (inv_row_len _ _ _ _ Hinv).
    generalize (deathRow s). intros d.
    induction d as [|[x|] d IH]; csimpl; lia.
Qed.

Lemma safely_Ok {A} (m : res A) (P : A → Prop) :
  safely m P → m ≠ OutOfFuel → ∃ a, m = Ok a ∧ P a.
Proof. destruct m; simpl; [eauto|done|done]. Qed.

(** X7: [l.remove(e)] on any entry of a well-formed list: the list holds the
    other entries, in their order; the entry is linked to nothing;
    nothing outside the list is touched, and no entry changes in more
    than its links. *)
Theorem remove_unlinks h l q1 p q2 :
  dll h l (q1 ++ p :: q2) → Z.of_nat (length h) < 2 ^ 63 - 1 →
  ∃ l' h', remove l p h = Ok (l', h') ∧ dll h' l' (q1 ++ q2)
    ∧ (∃ e1, h' !! p = Some e1 ∧ prev e1 = None ∧ next e1 = None)
    ∧ (∀ x, x ∉ q1 ++ p :: q2 → h' !! x = h !! x)
    ∧ relinked h h'.
Proof.
  intros Hdll Hb.
  destruct (remove_any _ _ _ _ _ Hdll Hb) as (l' & h' & Hrm & ? & ? & ?).
  exists l', h'. repeat (split; [done|]). by eapply remove_relinked.
Qed.

(** X8: [l.pushBack(e)] of an entry that is in no list: the list holds it
    after its other entries; nothing outside the list and the entry is
    touched, and no entry changes in more than its links. *)
Theorem pushBack_appends h l q p e :
  dll h l q → p ∉ q → h !! p = Some e →
  Z.of_nat (length h) < 2 ^ 63 - 1 →
  ∃ l' h', pushBack l p h = Ok (l', h') ∧ dll h' l' (q ++ [p])
    ∧ (∀ x, x ∉ p :: q → h' !! x = h !! x)
    ∧ relinked h h'.
Proof.
  intros Hdll Hp He Hb.
  destruct (pushBack_tail _ _ _ _ _ Hdll Hp He Hb) as (l' & h' & Hpb & ? & ?).
  exists l', h'. repeat (split; [done|]). by eapply pushBack_relinked.
Qed.

(** X9: [evictFromMain] on a shard with its structure returns (its loop
    ends within the sum of the frequency counters, plus one, turns),
    the shard keeps its structure, and no key appears in the map. *)
Theorem evictFromMain_keeps fuel s :
  wf s → mem_bound s → (heat (mem s) < fuel)%nat →
  ∃ s', evictFromMain fuel s = Ok s' ∧ wf s'
    ∧ length (mem s') = length (mem s)
    ∧ (∀ k, entries s !! k = None → entries s' !! k = None).
Proof.
  intros (sq & mq & Hinv) Hb Hfuel.
  pose proof (inv_evictFromMain fuel s sq mq [] Hinv Hb) as Hev.
  pose proof (evictFromMain_returns fuel s Hfuel) as Hret.
  destruct (evictFromMain fuel s) as [s'| |]; [|done|done].
  destruct Hev as (sq' & mq' & Hinv' & (Hl & _ & Hent) & _).
  exists s'. split; [done|]. split; [by exists sq', mq'|]. done.
Qed.

(** X10: [evictFromSmall] on a shard with its structure returns, the shard
    keeps its structure, and no key appears in the map. *)
Theorem evictFromSmall_keeps fuel s :
  wf s → mem_bound s → (heat (mem s) < fuel)%nat →
  ∃ s', evictFromSmall fuel s = Ok s' ∧ wf s'
    ∧ length (mem s') = length (mem s)
    ∧ (∀ k, entries s !! k = None → entries s' !! k = None).
Proof.
  intros (sq & mq & Hinv) Hb Hfuel.
  pose proof (inv_evictFromSmall fuel s sq mq [] Hinv Hb) as Hev.
  pose proof (evictFromSmall_returns fuel s Hfuel) as Hret.
  destruct (evictFromSmall fuel s) as [s'| |]; [|done|done].
  destruct Hev as (sq' & mq' & Hinv' & (Hl & _ & Hent) & _).
  exists s'. split; [done|]. split; [by exists sq', mq'|]. done.
Qed.

(** X11: [get] on a shard with its structure, case by case: a key the map
    does not have is a miss; an entry on death row is resurrected at the
    tail of Main and returned, whatever its expiry, and the counter goes
    up; a live entry that has expired is a miss, and nothing changes;
    any other live entry is a hit, and only its counters change. *)
Theorem get_cases k now s :
  wf s → mem_bound s →
  match entries s !! k with
  | None => get zeroV k now s = Ok (s, (zeroV, false))
  | Some p =>
      ∃ e, mem s !! p = Some e ∧ key e = k ∧
        if onDeathRow e then
          ∃ s', get zeroV k now s = Ok (s', (value e, true))
            ∧ wf s'
            ∧ entries s' = entries s
            ∧ linked (mem s') (main s') = linked (mem s) (main s) ++ [p]
            ∧ totalEntries s' = totalEntries s + 1
        else if negb (expiryNano e =? 0) && (expiryNano e <? now) then
          get zeroV k now s = Ok (s, (zeroV, false))
        else
          get zeroV k now s
          = Ok (set_mem (<[p := bump e]> (mem s)) s, (value e, true))
          ∧ wf (set_mem (<[p := bump e]> (mem s)) s)
  end.
Proof.
  intros (sq & mq & Hinv) Hb.
  pose proof (get_by_cases k now s sq mq Hinv Hb) as Hg.
  destruct (entries s !! k) as [p|]; [|done].
  destruct Hg as (e & He & Hk & Hg). exists e. split; [done|]. split; [done|].
  destruct (onDeathRow e).
  - destruct Hg as (s' & Hget & Hinv' & Hent & _ & Htot).
    exists s'. split; [done|]. split; [by eexists _, _|]. split; [done|].
    split; [|done].
    destruct (inv_queues _ _ _ _ Hinv) as (_ & Hm & _).
    destruct (inv_queues _ _ _ _ Hinv') as (_ & Hm' & _).
    by rewrite (dll_linked _ _ _ Hm), (dll_linked _ _ _ Hm').
  - destruct (_ && _); [done|]. destruct Hg as [Hget Hinv'].
    split; [done|]. by exists sq, mq.
Qed.

(** X12: [setWithHash] on a shard with its structure returns, the shard keeps
    its structure, and the map has the key, with the value and the
    expiry given. *)
Theorem setWithHash_stores fuel k v exp hsh s :
  wf s → freq_inv s → Z.of_nat (length (mem s)) + 1 < 2 ^ 63 - 1 →
  (heat (mem s) + 7 < fuel)%nat →
  ∃ s', setWithHash hasher fuel k v exp hsh s = Ok s'
    ∧ wf s' ∧ bound_to k v exp s'.
Proof.
  intros Hwf Hfr Hb Hfuel.
  destruct (safely_Ok _ _ (setWithHash_safely fuel k v exp hsh s Hwf Hb))
    as (s' & Hs & ? & ? & _).
  { by apply setWithHash_returns. }
  by exists s'.
Qed.

(** X13: [delete] of a key whose entry is not on death row: the key leaves
    the map, the counter goes down if the key was there, and the shard
    keeps its structure. *)
Theorem delete_key_removes k s :
  wf s → mem_bound s → doomed s k = false →
  ∃ s', delete_key k s = Ok s' ∧ wf s'
    ∧ entries s' = delete k (entries s)
    ∧ totalEntries s'
      = match entries s !! k with
        | Some _ => totalEntries s - 1
        | None => totalEntries s
        end.
Proof.
  intros Hwf Hb Hd.
  destruct (delete_key_live k s Hwf Hb Hd) as (s' & ? & ? & ? & _ & ?).
  by exists s'.
Qed.

(** X14: A run of operations that deletes no key on death row, from a shard
    with its structure: no operation panics, and the shard keeps its
    structure. *)
Theorem run_keeps_structure fuel ops s :
  wf s → freq_inv s →
  Z.of_nat (length (mem s) + length ops) < 2 ^ 63 - 1 →
  (7 * (length (mem s) + length ops) + 7 < fuel)%nat →
  tame zeroV hasher fuel ops s = true →
  ∃ s', run zeroV hasher fuel ops s = Ok s' ∧ wf s'.
Proof.
  intros Hwf Hfr Hb Hfuel Ht.
  apply safely_Ok; [by apply run_safely|by apply run_returns].
Qed.

(** X15: After a run on a new shard that deletes no key on death row, every
    key of the map has its entry in exactly one of Small, Main and death
    row; the counter is the number of entries in Small and Main; and the
    map has these and the entries on death row, eight at most. *)
Theorem new_shard_runs fuel ops scap size :
  Z.of_nat (length ops) < 2 ^ 63 - 1 →
  (7 * length ops + 7 < fuel)%nat →
  tame zeroV hasher fuel ops (newShard scap size) = true →
  ∃ s', run zeroV hasher fuel ops (newShard scap size) = Ok s'
    ∧ homes_inv s'
    ∧ totalEntries s' = liveCount s'
    ∧ totalEntries s' <= entriesSize s' <= totalEntries s' + 8.
Proof.
  intros Hb Hfuel Ht.
  destruct (safely_Ok _ _
              (run_safely fuel ops (newShard scap size)
                 (wf_newShard scap size) Hb Ht)) as (s' & Hrun & Hwf).
  { apply run_returns; [apply newShard_inv|done]. }
  exists s'. split; [done|]. split; [by apply wf_homes|].
  destruct (wf_counts s' Hwf) as (? & ? & ?). split; [done|]. lia.
Qed.

(** X16: A key that has just been set is found, with the value set, unless
    its expiry has passed. *)
Theorem get_after_set fuel k v exp hsh now s :
  wf s → freq_inv s → Z.of_nat (length (mem s)) + 1 < 2 ^ 63 - 1 →
  (heat (mem s) + 7 < fuel)%nat →
  exp = 0 ∨ now <= exp →
  ∃ s' s'', setWithHash hasher fuel k v exp hsh s = Ok s'
    ∧ get zeroV k now s' = Ok (s'', (v, true)).
Proof.
  intros Hwf Hfr Hb Hfuel Hexp.
  destruct (safely_Ok _ _ (setWithHash_safely fuel k v exp hsh s Hwf Hb))
    as (s' & Hs & (sq & mq & Hinv) & (p & e & Hk & He & Hv & Hx) & Hl).
  { by apply setWithHash_returns. }
  exists s'.
  assert (mem_bound s') as Hb' by (unfold mem_bound; lia).
  pose proof (get_by_cases k now s' sq mq Hinv Hb') as Hg.
  rewrite Hk in Hg. destruct Hg as (e' & He' & _ & Hg).
  assert (e' = e) as -> by congruence. rewrite Hv in Hg.
  destruct (onDeathRow e).
  - destruct Hg as (s'' & Hg & _). by exists s''.
  - assert (negb (expiryNano e =? 0) && (expiryNano e <? now) = false)
      as Hfresh.
    { rewrite Hx. destruct Hexp as [->|Hle]; [done|].
      apply andb_false_iff. right. by apply Z.ltb_ge. }
    rewrite Hfresh in Hg. destruct Hg as [Hg _]. eauto.
Qed.

(** X17: A key that has just been deleted is not found. *)
Theorem get_after_delete k now s :
  wf s → mem_bound s → doomed s k = false →
  ∃ s', delete_key k s = Ok s'
    ∧ get zeroV k now s' = Ok (s', (zeroV, false)).
Proof.
  intros Hwf Hb Hd.
  destruct (delete_key_live k s Hwf Hb Hd) as (s' & Hdel & _ & Hent & _).
  exists s'. split; [done|]. unfold get.
  by rewrite Hent, lookup_delete_eq.
Qed.

(** X18: [flush] returns the number of keys of the map and leaves an empty
    shard, with its structure: the counter is 0, the map is empty, and
    no key is found. *)
Theorem flush_empties s k now :
  (cache_flush s).2 = entriesSize s
  ∧ wf (cache_flush s).1
  ∧ totalEntries (cache_flush s).1 = 0
  ∧ entriesSize (cache_flush s).1 = 0
  ∧ get zeroV k now (cache_flush s).1 = Ok ((cache_flush s).1, (zeroV, false)).
Proof.
  split; [done|]. split; [exists [], []; apply inv_flush|].
  split; [done|]. split; [done|]. done.
Qed.

(** X19: Below its capacity the cache evicts nothing: [setWithHash] of a new
    key returns, whatever the ghost queue says, with the key added to
    the map under a new entry, every other key kept, death row
    untouched and the counter one higher. *)
Theorem setWithHash_below_capacity fuel k v exp hsh s :
  wf s → Z.of_nat (length (mem s)) + 1 < 2 ^ 63 - 1 →
  totalEntries s < pcapacity s → entries s !! k = None →
  ∃ s', setWithHash hasher fuel k v exp hsh s = Ok s'
    ∧ wf s'
    ∧ entries s' = <[k := length (mem s)]> (entries s)
    ∧ deathRow s' = deathRow s
    ∧ totalEntries s' = totalEntries s + 1.
Proof.
  intros (sq & mq & Hinv) Hb Hcap Hk. unfold setWithHash. rewrite Hk.
  cbv zeta.
  set (h0 := if (hsh =? 0)%N then hasher k else hsh).
  set (ent := set_hash h0 _).
  set (p := length (mem s)).
  set (s0 := set_mem (mem s ++ [ent]) s).
  assert (pending k v exp p s0) as Hpe.
  { destruct (inv_alloc s ent sq mq [] Hinv) as [Hinv0 Hp].
    exists sq, mq, ent. split; [done|]. split; [done|].
    split; [|done]. simpl. rewrite lookup_app_r by done.
    by rewrite Nat.sub_diag. }
  assert (length (mem s0) = (length (mem s) + 1)%nat) as Hl0.
  { simpl. by rewrite length_app. }
  pose proof (homes_bound _ _ _ _ Hinv) as Hhb.
  pose proof (inv_total _ _ _ _ Hinv) as Ht. simpl in Hhb, Ht.
  assert (int64 (totalEntries s + 1) = totalEntries s + 1) as Hint.
  { rewrite int64_small; lia. }
  assert ((pcapacity s0 <=? totalEntries s0) = false) as Hfull.
  { apply Z.leb_gt. simpl. lia. }
  rewrite Hfull.
  assert (entries s0 = entries s) as E1 by done.
  assert (deathRow s0 = deathRow s) as E2 by done.
  assert (totalEntries s0 = totalEntries s) as E3 by done.
  clearbody s0.
  destruct (negb (warmupComplete s0)); simpl negb; cbv beta iota;
    [rewrite andb_true_l|rewrite andb_false_l]; cbv beta iota.
  - destruct (pending_modify (set_inSmall true) _ _ _ _ _ Hpe)
      as (h1 & e0 & -> & He1 & Hpe1 & Hl1); [done|].
    rewrite res_bind_Ok.
    destruct (pending_link k v exp p (set_mem h1 s0)
                (set_inSmall true e0) Hpe1) as
      (l & hp & Hpush & Hwf & _); [|exact He1|].
    { unfold mem_bound. simpl. rewrite Hl1, Hl0. lia. }
    simpl in Hpush. rewrite Hpush, res_bind_Ok. cbv beta iota.
    eexists. split; [done|]. simpl in Hwf |- *. split; [done|].
    by rewrite E1, E2, E3.
  - destruct (pending_modify (set_inSmall true) _ _ _ _ _
                (pending_warm _ _ _ _ _ Hpe))
      as (h1 & e0 & -> & He1 & Hpe1 & Hl1); [done|].
    rewrite !res_bind_Ok.
    set (s1 := set_mem h1 (set_warmupComplete true s0)) in *.
    rewrite (proj2 (deref_Ok (mem s1) p _) He1), res_bind_Ok.
    destruct (pending_link k v exp p s1 (set_inSmall true e0) Hpe1) as
      (l & hp & Hpush & Hwf & _); [|exact He1|].
    { unfold mem_bound. simpl. simpl in Hl1. rewrite Hl1, Hl0. lia. }
    simpl in Hpush. simpl. rewrite Hpush.
    repeat (rewrite res_bind_Ok; cbv beta iota).
    eexists. split; [done|]. simpl in Hwf |- *. split; [done|].
    by rewrite E1, E2, E3.
Qed.

End StructureFacts.

(** ** The ghost frequency ring *)

Lemma ring_scan_zeros n h :
  h ≠ 0%N → ring_scan (replicate n 0%N) (replicate n 0%N) h = None.
Proof.
  intros Hh. induction n as [|n IH]; [done|]. cbn [ring_scan replicate].
  by rewrite (proj2 (N.eqb_neq 0 h)) by done.
Qed.

(** X5: A new ring remembers no hash but 0, which it finds with frequency 0. *)
Theorem ring_lookup_empty h :
  ring_lookup emptyRing h = if (h =? 0)%N then Some 0%N else None.
Proof.
  unfold ring_lookup, emptyRing. cbn [hashes freqs].
  destruct (N.eqb_spec h 0) as [->|Hne]; [reflexivity|].
  by apply ring_scan_zeros.
Qed.

Lemma ring_scan_insert hs fs i h f :
  (i < length hs)%nat → length fs = length hs →
  ∃ f', ring_scan (<[i := h]> hs) (<[i := f]> fs) h = Some f'
        ∧ (h ∉ take i hs → f' = f).
Proof.
  revert fs i. induction hs as [|x hs IH]; intros [|g fs] i Hi Hlen;
    simpl in *; try lia.
  destruct i as [|i]; simpl.
  - rewrite N.eqb_refl. eauto.
  - destruct (N.eqb_spec x h) as [->|Hne].
    + exists g. split; [done|]. intros Hnot. exfalso. apply Hnot. left.
    + destruct (IH fs i) as (f' & Hscan & Hf'); [lia|lia|].
      exists f'. split; [done|]. intros Hnot. apply Hf'.
      intros Hin. apply Hnot. by right.
Qed.

Lemma ring_add_ok r h f : ring_ok r → ring_ok (ring_add r h f).
Proof.
  intros (Hh & Hf & Hp). unfold ring_ok, ring_add. simpl.
  rewrite !length_insert. repeat split; try done.
  unfold uint8. apply N.mod_upper_bound. done.
Qed.

Lemma emptyRing_ring_ok : ring_ok emptyRing.
Proof. unfold ring_ok, emptyRing. cbn [hashes freqs pos]. by rewrite !length_replicate. Qed.

(** X6: A hash that was added is found; with the frequency it was added
    with, unless a slot before the position already holds the hash. *)
Theorem ring_add_lookup r h f :
  ring_ok r →
  ∃ f', ring_lookup (ring_add r h f) h = Some f'
        ∧ (h ∉ take (N.to_nat (pos r)) (hashes r) → f' = f).
Proof.
  intros (Hh & Hf & Hp). unfold ring_lookup, ring_add. simpl.
  apply ring_scan_insert; lia.
Qed.

Lemma ring_scan_None hs fs h :
  length fs = length hs → (ring_scan hs fs h = None ↔ h ∉ hs).
Proof.
  revert fs. induction hs as [|x hs IH]; intros [|g fs] Hlen; simpl in *;
    try lia.
  - split; [intros _; apply not_elem_of_nil|done].
  - destruct (N.eqb_spec x h) as [->|Hne].
    + split; [done|]. intros Hnot. exfalso. apply Hnot. left.
    + rewrite IH by lia. rewrite not_elem_of_cons.
      split; [by intros ?; split|by intros [_ ?]].
Qed.

(** ** The hash of a string *)

(** X4: Two keys of the same length, of 16 bytes or more, that have the same
    first 8 and the same last 8 bytes have the same hash: the bytes in
    between are not read. *)
Theorem wyhashString_ends s s' a m m' b :
  bytes_of s = a ++ m ++ b → bytes_of s' = a ++ m' ++ b →
  length a = 8%nat → length b = 8%nat → length m = length m' →
  wyhashString s = wyhashString s'.
Proof.
  intros Hs Hs' Ha Hb Hm. unfold wyhashString. rewrite Hs, Hs'.
  rewrite !length_app, Ha, Hb, Hm.
  destruct (decide _); [lia|]. destruct (decide _); [lia|].
  rewrite !take_app_length' by done.
  replace (8 + (length m' + 8) - 8)%nat with (length (a ++ m'))
    by (rewrite length_app; lia).
  rewrite (app_assoc a m' b), drop_app_length.
  replace (length (a ++ m')) with (length (a ++ m))
    by (rewrite !length_app; lia).
  by rewrite (app_assoc a m b), drop_app_length.
Qed.

(** ** The properties above, on runs of a cache of string keys *)

(** The state after a run of a new cache that deletes no key on death
    row has its structure, and its counters are within their bounds. *)
Lemma wf_after ops (s : cache) :
  wf s → Z.of_nat (length (mem s) + length ops) < 2 ^ 63 - 1 →
  tame 0 wyhashString (7 * (length (mem s) + length ops) + 8) ops s = true →
  wf (after ops s).
Proof.
  intros Hwf Hb Ht.
  pose proof (run_safely 0 wyhashString _ ops s Hwf Hb Ht) as Hrun.
  unfold after, crun. by destruct (run _ _ _ _ _).
Qed.

Lemma freq_inv_after ops scap size :
  freq_inv (after ops (newShard scap size)).
Proof.
  unfold after. destruct (crun _ _) as [s'| |] eqn:Hrun;
    try apply newShard_inv.
  eapply run_inv; [exact Hrun|apply newShard_inv].
Qed.

Lemma wf_after_evicted : wf (after ops_evicted cache1).
Proof.
  apply wf_after; [apply wf_newShard|vm_compute; reflexivity..].
Qed.

Lemma wf_after_promoted : wf (after ops_promoted cache2).
Proof.
  apply wf_after; [apply wf_newShard|vm_compute; reflexivity..].
Qed.

Lemma wf_after_three : wf (after ops_three cache10).
Proof.
  apply wf_after; [apply wf_newShard|vm_compute; reflexivity..].
Qed.

Lemma wf_after_hot : wf (after ops_hot cache1).
Proof.
  apply wf_after; [apply wf_newShard|vm_compute; reflexivity..].
Qed.

(** X7 on Small after [ops_three]: the entry of "b", the
    second of three, is unlinked. *)
Lemma remove_unlinks_witness :
  let s := after ops_three cache10 in
  ∃ l' h', remove (small s) 1 (mem s) = Ok (l', h')
    ∧ dll h' l' ([0%nat] ++ [2%nat])
    ∧ (∃ e1, h' !! 1%nat = Some e1 ∧ prev e1 = None ∧ next e1 = None)
    ∧ (∀ x, x ∉ [0%nat] ++ 1%nat :: [2%nat] → h' !! x = mem s !! x)
    ∧ relinked (mem s) h'.
Proof.
  intros s. apply (remove_unlinks (mem s) (small s) [0%nat] 1%nat [2%nat]).
  - apply dllb_sound. vm_compute. reflexivity.
  - vm_compute. reflexivity.
Defined.

(** X8 after [ops_evicted]: the entry of "a", on death
    row and in no list, is linked after the entry of "b" in Small. *)
Lemma pushBack_appends_witness :
  let s := after ops_evicted cache1 in
  ∃ l' h', pushBack (small s) 0 (mem s) = Ok (l', h')
    ∧ dll h' l' ([1%nat] ++ [0%nat])
    ∧ (∀ x, x ∉ [0%nat; 1%nat] → h' !! x = mem s !! x)
    ∧ relinked (mem s) h'.
Proof.
  intros s.
  apply (pushBack_appends (mem s) (small s) [1%nat] 0%nat
           (entry_a 100 0 0 true true)).
  - apply dllb_sound. vm_compute. reflexivity.
  - apply (bool_decide_unpack _). vm_compute. exact I.
  - vm_compute. reflexivity.
  - vm_compute. reflexivity.
Defined.

(** X9 after [ops_promoted], where Main holds the
    entry of "a". *)
Lemma evictFromMain_keeps_witness :
  let s := after ops_promoted cache2 in
  ∃ s', evictFromMain 8 s = Ok s' ∧ wf s'
    ∧ length (mem s') = length (mem s)
    ∧ (∀ k, entries s !! k = None → entries s' !! k = None).
Proof.
  intros s. apply (evictFromMain_keeps 8 s).
  - apply wf_after_promoted.
  - unfold mem_bound. vm_compute. reflexivity.
  - apply Nat.ltb_lt. vm_compute. reflexivity.
Defined.

(** X10 after [ops_hot], where Small holds the hot
    entry of "a". *)
Lemma evictFromSmall_keeps_witness :
  let s := after ops_hot cache1 in
  ∃ s', evictFromSmall 8 s = Ok s' ∧ wf s'
    ∧ length (mem s') = length (mem s)
    ∧ (∀ k, entries s !! k = None → entries s' !! k = None).
Proof.
  intros s. apply (evictFromSmall_keeps 8 s).
  - apply wf_after_hot.
  - unfold mem_bound. vm_compute. reflexivity.
  - apply Nat.ltb_lt. vm_compute. reflexivity.
Defined.

(** X11 after [ops_evicted], on the key "a", whose entry is on
    death row. *)
Lemma get_cases_witness :
  let s := after ops_evicted cache1 in
  match entries s !! "a" with
  | None => get 0 "a" 200 s = Ok (s, (0, false))
  | Some p =>
      ∃ e, mem s !! p = Some e ∧ key e = "a" ∧
        if onDeathRow e then
          ∃ s', get 0 "a" 200 s = Ok (s', (value e, true))
            ∧ wf s'
            ∧ entries s' = entries s
            ∧ linked (mem s') (main s') = linked (mem s) (main s) ++ [p]
            ∧ totalEntries s' = totalEntries s + 1
        else if negb (expiryNano e =? 0) && (expiryNano e <? 200) then
          get 0 "a" 200 s = Ok (s, (0, false))
        else
          get 0 "a" 200 s
          = Ok (set_mem (<[p := bump e]> (mem s)) s, (value e, true))
          ∧ wf (set_mem (<[p := bump e]> (mem s)) s)
  end.
Proof.
  intros s. apply (get_cases 0 "a" 200 s).
  - apply wf_after_evicted.
  - unfold mem_bound. vm_compute. reflexivity.
Defined.

(** X12 after [ops_evicted]: the key "c" is set in the
    full cache. *)
Lemma setWithHash_stores_witness :
  let s := after ops_evicted cache1 in
  ∃ s', setWithHash wyhashString 32 "c" 33 0 (wyhashString "c") s = Ok s'
    ∧ wf s' ∧ bound_to "c" 33 0 s'.
Proof.
  intros s.
  apply (setWithHash_stores wyhashString 32 "c" 33 0 (wyhashString "c") s).
  - apply wf_after_evicted.
  - apply freq_inv_after.
  - vm_compute. reflexivity.
  - apply Nat.ltb_lt. vm_compute. reflexivity.
Defined.

(** X13 after [ops_evicted], on the live key "b". *)
Lemma delete_key_removes_witness :
  let s := after ops_evicted cache1 in
  ∃ s', delete_key "b" s = Ok s' ∧ wf s'
    ∧ entries s' = delete "b" (entries s)
    ∧ totalEntries s'
      = match entries s !! "b" with
        | Some _ => totalEntries s - 1
        | None => totalEntries s
        end.
Proof.
  intros s. apply (delete_key_removes "b" s).
  - apply wf_after_evicted.
  - unfold mem_bound. vm_compute. reflexivity.
  - vm_compute. reflexivity.
Defined.

(** X14: the run [ops_hot] from the state after
    [ops_evicted]. *)
Lemma run_keeps_structure_witness :
  let s := after ops_evicted cache1 in
  ∃ s', run 0 wyhashString 64 ops_hot s = Ok s' ∧ wf s'.
Proof.
  intros s. apply (run_keeps_structure 0 wyhashString 64 ops_hot s).
  - apply wf_after_evicted.
  - apply freq_inv_after.
  - vm_compute. reflexivity.
  - apply Nat.ltb_lt. vm_compute. reflexivity.
  - vm_compute. reflexivity.
Defined.

(** X15 on the run [ops_promoted] of a cache of capacity
    2. *)
Lemma new_shard_runs_witness :
  ∃ s' : cache, run 0 wyhashString 64 ops_promoted (newShard 2 2) = Ok s'
    ∧ homes_inv s'
    ∧ totalEntries s' = liveCount s'
    ∧ totalEntries s' <= entriesSize s' <= totalEntries s' + 8.
Proof.
  apply (new_shard_runs 0 wyhashString 64 ops_promoted 2 2).
  - vm_compute. reflexivity.
  - apply Nat.ltb_lt. vm_compute. reflexivity.
  - vm_compute. reflexivity.
Defined.

(** X16 after [ops_evicted]: "c" is set without expiry and
    read. *)
Lemma get_after_set_witness :
  let s := after ops_evicted cache1 in
  ∃ s' s'', setWithHash wyhashString 32 "c" 33 0 (wyhashString "c") s = Ok s'
    ∧ get 0 "c" 200 s' = Ok (s'', (33, true)).
Proof.
  intros s.
  apply (get_after_set 0 wyhashString 32 "c" 33 0 (wyhashString "c") 200 s).
  - apply wf_after_evicted.
  - apply freq_inv_after.
  - vm_compute. reflexivity.
  - apply Nat.ltb_lt. vm_compute. reflexivity.
  - left. reflexivity.
Defined.

(** X17 after [ops_evicted], on the live key "b". *)
Lemma get_after_delete_witness :
  let s := after ops_evicted cache1 in
  ∃ s', delete_key "b" s = Ok s' ∧ get 0 "b" 200 s' = Ok (s', (0, false)).
Proof.
  intros s. apply (get_after_delete 0 "b" 200 s).
  - apply wf_after_evicted.
  - unfold mem_bound. vm_compute. reflexivity.
  - vm_compute. reflexivity.
Defined.

(** X2 for 8 processors and a size of 100000. *)
Lemma shardIdx_in_range_witness :
  0 <= shardIdx (shardMask (numShards 8 100000)) (wyhashString "a")
    < numShards 8 100000.
Proof. apply (shardIdx_in_range 8 100000). lia. Defined.

(** X3 for 8 processors and a size of 100000. *)
Lemma shards_cover_size_witness :
  effectiveSize 100000 <= numShards 8 100000 * shardCap 8 100000.
Proof. apply (shards_cover_size 8 100000); lia. Defined.

(** X6 on a new ring. *)
Lemma ring_add_lookup_witness :
  ∃ f', ring_lookup (ring_add emptyRing 5 3) 5 = Some f'
        ∧ (5%N ∉ take (N.to_nat (pos emptyRing)) (hashes emptyRing) → f' = 3%N).
Proof. apply (ring_add_lookup emptyRing 5 3). apply emptyRing_ring_ok. Defined.

(** X4 on two keys of 17 bytes that differ in the
    ninth. *)
Lemma wyhashString_ends_witness :
  wyhashString "aaaaaaaaXbbbbbbbb" = wyhashString "aaaaaaaaYbbbbbbbb".
Proof.
  apply (wyhashString_ends _ _ (bytes_of "aaaaaaaa") (bytes_of "X")
           (bytes_of "Y") (bytes_of "bbbbbbbb")); reflexivity.
Defined.

(** X19 after [ops_three] in a cache of capacity
    10: the key "d" is added, and nothing is evicted. *)
Lemma setWithHash_below_capacity_witness :
  let s := after ops_three cache10 in
  ∃ s', setWithHash wyhashString 0 "d" 4 0 (wyhashString "d") s = Ok s'
    ∧ wf s'
    ∧ entries s' = <["d" := length (mem s)]> (entries s)
    ∧ deathRow s' = deathRow s
    ∧ totalEntries s' = totalEntries s + 1.
Proof.
  intros s.
  apply (setWithHash_below_capacity wyhashString 0 "d" 4 0 (wyhashString "d") s).
  - apply wf_after_three.
  - vm_compute. reflexivity.
  - vm_compute. reflexivity.
  - vm_compute. reflexivity.
Defined.

(** X1 for 8 processors and a size of 100000. *)
Lemma newS3FIFO_shard_count_witness :
  ∃ k, 0 <= k <= 11 ∧ numShards 8 100000 = 2 ^ k
       ∧ shardMask (numShards 8 100000) = Z.to_N (2 ^ k - 1).
Proof. apply (newS3FIFO_shard_count 8 100000). lia. Defined.

(** ** The local-file store: keys, reads and writes *)

Module LocalFSWriteFacts.
Import LocalFS LocalFSWrite.

(** The error of the scan names the first rune that is not allowed. *)
Lemma scan_first bs err :
  scan 0 bs = Some err →
  ∃ pre b post ch, err = InvalidCharacter ch ∧ bs = pre ++ b :: post
    ∧ Forall allowedByte pre ∧ ch = (decodeRune (b :: post)).1
    ∧ invalid ch = true.
Proof.
  induction bs as [|b bs IH]; [done|]. cbn [scan].
  destruct (decodeRune (b :: bs)) as [ch size] eqn:Hdec.
  destruct (invalid ch) eqn:Hinv.
  - intros [= <-]. exists [], b, bs, ch.
    split; [done|]. split; [done|]. split; [constructor|].
    by rewrite Hdec.
  - destruct (N.lt_ge_cases b 0x80) as [Hb|Hb].
    + unfold decodeRune in Hdec.
      rewrite (proj2 (N.ltb_lt b 0x80)) in Hdec by done.
      injection Hdec as <- <-. simpl. intros Hscan.
      destruct (IH Hscan)
        as (pre & b' & post & c & -> & -> & Hpre & Hc & Hic).
      exists (b :: pre), b', post, c. split; [done|]. split; [done|].
      split; [|done]. constructor; [|done].
      by apply LocalFSFacts.invalid_spec.
    + pose proof (LocalFSFacts.decodeRune_high b bs Hb) as Hhigh.
      rewrite Hdec in Hhigh. simpl in Hhigh.
      apply LocalFSFacts.invalid_spec in Hinv.
      unfold allowedByte in Hinv. lia.
Qed.

(** The scan passes over allowed bytes. *)
Lemma scan_allowed pre rest :
  Forall allowedByte pre → scan 0 (pre ++ rest) = scan 0 rest.
Proof.
  induction 1 as [|b pre Hb _ IH]; [done|].
  rewrite <- app_comm_cons. cbn [scan]. unfold decodeRune.
  assert (b < 0x80)%N as Hlt by (unfold allowedByte in Hb; lia).
  rewrite (proj2 (N.ltb_lt b 0x80)) by done.
  rewrite (proj2 (LocalFSFacts.invalid_spec b)) by done. simpl. apply IH.
Qed.

(** And it stops at a rune that is not allowed. *)
Lemma scan_rejects b post :
  invalid (decodeRune (b :: post)).1 = true →
  scan 0 (b :: post) = Some (InvalidCharacter (decodeRune (b :: post)).1).
Proof.
  cbn [scan]. destruct (decodeRune (b :: post)) as [ch size]. simpl.
  by intros ->.
Qed.

Lemma invalid_true ch : invalid ch = true ↔ ¬ allowedByte ch.
Proof.
  rewrite <- LocalFSFacts.invalid_spec. by destruct (invalid ch).
Qed.

(** X20: [ValidateKey], by its result.  It returns nil exactly for the
    keys of at most 127 bytes made of A-Z, a-z, 0-9, '-', '_', '.' and
    ':' (the empty key among them); the length error, with the length,
    exactly for the longer keys, whatever their characters; and the
    character error for [ch] exactly when the key is of at most 127
    bytes and [ch] is its first rune that is not allowed: the bytes
    [pre] before it are allowed, and [ch] is the rune that the bytes
    from there on, which are not empty, decode to. *)
Theorem ValidateKey_verdict s :
  (ValidateKey s = None
   ↔ (String.length s ≤ 127)%nat ∧ Forall allowedByte (bytes_of s))
  ∧ (∀ n, ValidateKey s = Some (KeyTooLong n)
          ↔ n = String.length s ∧ (127 < n)%nat)
  ∧ (∀ ch, ValidateKey s = Some (InvalidCharacter ch)
           ↔ (String.length s ≤ 127)%nat
             ∧ ∃ pre b post, bytes_of s = pre ++ b :: post
                 ∧ Forall allowedByte pre
                 ∧ ch = (decodeRune (b :: post)).1
                 ∧ ¬ allowedByte ch).
Proof.
  split; [apply LocalFSFacts.ValidateKey_spec|].
  unfold ValidateKey, maxKeyLength.
  destruct (Nat.ltb_spec 127 (String.length s)) as [Hlen|Hlen]; split.
  - intros n. split; [by intros [= <-]|]. by intros [-> _].
  - intros ch. split; [done|]. intros [? _]. lia.
  - intros n. split; [|intros [-> ?]; lia].
    intros (? & ? & ? & ? & [=] & _)%scan_first.
  - intros ch. split.
    + intros (pre & b & post & c & [= <-] & ? & ? & ? & ?%invalid_true)%scan_first.
      split; [done|]. by exists pre, b, post.
    + intros (_ & pre & b & post & -> & Hpre & -> & Hbad%invalid_true).
      rewrite scan_allowed by done. by apply scan_rejects.
Qed.

Section StoreFacts.

Context {K V : Type} {FS : Type} `{FileSystem FS}.
Context `{FileSystemW FS (Entry (K:=K) (V:=V))}.
Variable zeroV : V.
Variable Location : K → string.
Variable Dir : string → string.
Variable decode : list N → option (Entry (K:=K) (V:=V)).

(** X21: When [Get] reports found = true, the file of the key was opened,
    decoded and closed without error, its record has not expired, the
    value and the expiry returned are those of the record, the error is
    nil, and the file system is as it was. *)
Theorem Get_found now key fs :
  r_found (Get zeroV Location decode now key fs).2 = true →
  ∃ bytes e,
    fs_open fs (Location key) = inr bytes ∧ decode bytes = Some e
    ∧ fs_close fs (Location key) = None
    ∧ (Expiry e = 0 ∨ now <= Expiry e)
    ∧ Get zeroV Location decode now key fs
      = (fs, Result (Value e) (Expiry e) true None).
Proof.
  unfold Get.
  destruct (fs_open fs (Location key)) as [err|bytes] eqn:Hopen.
  { by destruct (IsNotExist err). }
  destruct (decode bytes) as [e|] eqn:Hdec.
  2: { by destruct (fs_remove fs (Location key)). }
  destruct (fs_close fs (Location key)) eqn:Hclose; [done|].
  destruct (negb (Expiry e =? 0) && (Expiry e <? now)) eqn:Hexp.
  { destruct (fs_remove fs (Location key)) as [fs' [re|]]; [|done].
    by destruct (negb (IsNotExist re)). }
  intros _. exists bytes, e. do 3 (split; [done|]). split; [|done].
  apply andb_false_iff in Hexp as [Hz|Hlt].
  - left. apply negb_false_iff in Hz. by apply Z.eqb_eq.
  - right. by apply Z.ltb_ge.
Qed.

(** X22: [Set], by its result, step by step.  The subdirectory is
    ready when [subdirsMade] has it, or when [os.MkdirAll] made it now,
    which adds it to [subdirsMade].  [Set] returns nil only when the
    subdirectory was ready, the temporary file was created, the record
    encoded and flushed, and the file closed and renamed onto the file
    of the key.  A failure of [os.MkdirAll] is returned wrapped as
    "create subdirectory", and one of [os.Create] as "create temp file".
    When encoding, closing or renaming fails, [os.Remove] is called on
    the temporary file, and the error returned joins exactly the cause,
    wrapped as "encode entry", "close temp file" or "rename file", and
    the error of the removal, if the removal failed.  When every step
    succeeds the result is nil, in the file system the rename left. *)
Theorem Set_outcome made now key value expiry fs :
  let fn := Location key in
  let dir := Dir fn in
  let tmp := String.append fn ".tmp" in
  let e := MkEntry key value expiry now in
  let out := Store_Set Location Dir made now key value expiry fs in
  let ready made1 fs1 :=
    (dir ∈ made ∧ made1 = made ∧ fs1 = fs)
    ∨ ((dir ∉ made) ∧ fs_mkdirAll fs dir = (fs1, None)
       ∧ made1 = {[dir]} ∪ made) in
  let failed (made1 : gset string) fsx msg cause :=
    (made1, (fs_remove fsx tmp).1,
     Some (Joined (Wrap msg cause
                   :: option_list (OsError <$> (fs_remove fsx tmp).2)))) in
  (out.2 = None →
     ∃ made1 fs1 fs2 fs3 fs4,
       ready made1 fs1 ∧ fs_create fs1 tmp = (fs2, None)
       ∧ fs_encode fs2 tmp e = (fs3, None) ∧ fs_close fs3 tmp = None
       ∧ fs_rename fs3 tmp fn = (fs4, None) ∧ out = (made1, fs4, None))
  ∧ (∀ fs1 err, dir ∉ made → fs_mkdirAll fs dir = (fs1, Some err) →
       out = (made, fs1, Some (Wrap "create subdirectory" (OsError err))))
  ∧ (∀ made1 fs1 fs2 ce, ready made1 fs1 →
       fs_create fs1 tmp = (fs2, Some ce) →
       out = (made1, fs2, Some (Wrap "create temp file" (OsError ce))))
  ∧ (∀ made1 fs1 fs2 fs3 ee, ready made1 fs1 →
       fs_create fs1 tmp = (fs2, None) →
       fs_encode fs2 tmp e = (fs3, Some ee) →
       out = failed made1 fs3 "encode entry" ee)
  ∧ (∀ made1 fs1 fs2 fs3 ce, ready made1 fs1 →
       fs_create fs1 tmp = (fs2, None) →
       fs_encode fs2 tmp e = (fs3, None) → fs_close fs3 tmp = Some ce →
       out = failed made1 fs3 "close temp file" (OsError ce))
  ∧ (∀ made1 fs1 fs2 fs3 fs4 re, ready made1 fs1 →
       fs_create fs1 tmp = (fs2, None) →
       fs_encode fs2 tmp e = (fs3, None) → fs_close fs3 tmp = None →
       fs_rename fs3 tmp fn = (fs4, Some re) →
       out = failed made1 fs4 "rename file" (OsError re))
  ∧ (∀ made1 fs1 fs2 fs3 fs4, ready made1 fs1 →
       fs_create fs1 tmp = (fs2, None) →
       fs_encode fs2 tmp e = (fs3, None) → fs_close fs3 tmp = None →
       fs_rename fs3 tmp fn = (fs4, None) →
       out = (made1, fs4, None)).
Proof.
  intros fn dir tmp e out ready failed.
  assert (∀ made1 fs1, ready made1 fs1 →
            ensureDir made dir fs = (made1, fs1, None)) as Hready.
  { intros made1 fs1 [(Hin & -> & ->)|(Hnin & Hmk & ->)]; unfold ensureDir.
    - by rewrite decide_True.
    - rewrite decide_False by done. by rewrite Hmk. }
  assert (∀ fsx msg cause rmErr, fs_remove fsx tmp = rmErr →
            (let '(fs', rm) := rmErr in
             (fs', errors_Join [Some (Wrap msg cause); OsError <$> rm]))
            = (rmErr.1, Some (Joined (Wrap msg cause
                                :: option_list (OsError <$> rmErr.2)))))
    as Hjoin.
  { intros fsx msg cause [fs' [re|]] _; done. }
  unfold out, Store_Set. fold fn. fold dir. fold tmp. fold e.
  split; [|split; [|split; [|split; [|split; [|split]]]]].
  - destruct (ensureDir made dir fs) as [[made1 fs1] [e1|]] eqn:Hdir;
      [done|].
    assert (ready made1 fs1) as Hr.
    { unfold ensureDir in Hdir. unfold ready.
      destruct (decide (dir ∈ made)) as [Hin|Hnin].
      - injection Hdir as <- <-. by left.
      - destruct (fs_mkdirAll fs dir) as [fs' [err|]]; [done|].
        injection Hdir as <- <-. by right. }
    destruct (fs_create fs1 tmp) as [fs2 [e2|]] eqn:Hcreate; [done|].
    destruct (fs_encode fs2 tmp e) as [fs3 [e3|]] eqn:Henc.
    { by destruct (fs_remove fs3 tmp) as [fs4 [re|]]. }
    destruct (fs_close fs3 tmp) as [e4|] eqn:Hclose.
    { by destruct (fs_remove fs3 tmp) as [fs4 [re|]]. }
    destruct (fs_rename fs3 tmp fn) as [fs5 [e5|]] eqn:Hren.
    { by destruct (fs_remove fs5 tmp) as [fs6 [re|]]. }
    intros _. by exists made1, fs1, fs2, fs3, fs5.
  - intros fs1 err Hnin Hmk. unfold ensureDir.
    rewrite decide_False by done. by rewrite Hmk.
  - intros made1 fs1 fs2 ce Hr Hcreate.
    by rewrite (Hready _ _ Hr), Hcreate.
  - intros made1 fs1 fs2 fs3 ee Hr Hcreate Henc.
    rewrite (Hready _ _ Hr), Hcreate, Henc. unfold failed.
    by destruct (fs_remove fs3 tmp) as [fs4 [re|]].
  - intros made1 fs1 fs2 fs3 ce Hr Hcreate Henc Hclose.
    rewrite (Hready _ _ Hr), Hcreate, Henc, Hclose. unfold failed.
    by destruct (fs_remove fs3 tmp) as [fs4 [re|]].
  - intros made1 fs1 fs2 fs3 fs4 re Hr Hcreate Henc Hclose Hren.
    rewrite (Hready _ _ Hr), Hcreate, Henc, Hclose, Hren. unfold failed.
    by destruct (fs_remove fs4 tmp) as [fs5 [re'|]].
  - intros made1 fs1 fs2 fs3 fs4 Hr Hcreate Henc Hclose Hren.
    by rewrite (Hready _ _ Hr), Hcreate, Henc, Hclose, Hren.
Qed.

End StoreFacts.

Lemma append_tmp_ne (fn : string) : String.append fn ".tmp" ≠ fn.
Proof.
  induction fn as [|a fn IH]; simpl; [done|]. by intros [= Heq].
Qed.

Section PlainStore.

Context {K V : Type}.
Variable zeroV : V.
Variable Location : K → string.
Variable Dir : string → string.
Variable enc : Entry (K:=K) (V:=V) → list N.
Variable decode : list N → option (Entry (K:=K) (V:=V)).

(** X23: Round trip on plain files, for a record the decoder reads back:
    [Set] returns nil, has its subdirectory in [subdirsMade], leaves
    the record in the file of the key and no temporary file, and
    touches no other file; a [Get] of the key at a time at which the
    record has not expired then returns the value and the expiry set,
    and changes nothing. *)
Theorem Set_then_Get made now now' key value expiry
    (fs : gmap string (list N)) :
  decode (enc (MkEntry key value expiry now))
  = Some (MkEntry key value expiry now) →
  expiry = 0 ∨ now' <= expiry →
  let fn := Location key in
  let tmp := String.append fn ".tmp" in
  let out := Store_Set (fsw := plainWrites enc) Location Dir made now key
               value expiry fs in
  out.2 = None
  ∧ Dir fn ∈ out.1.1
  ∧ out.1.2 !! fn = Some (enc (MkEntry key value expiry now))
  ∧ out.1.2 !! tmp = None
  ∧ (∀ f, f ≠ fn → f ≠ tmp → out.1.2 !! f = fs !! f)
  ∧ Get zeroV Location decode now' key out.1.2
    = (out.1.2, Result value expiry true None).
Proof.
  intros Hdec Hexp fn tmp.
  pose proof (append_tmp_ne fn) as Hne. fold tmp in Hne.
  set (e := MkEntry key value expiry now) in *.
  assert (Store_Set (fsw := plainWrites enc) Location Dir made now key
            value expiry fs
          = (if decide (Dir fn ∈ made) then made else {[Dir fn]} ∪ made,
             <[fn := enc e]> (delete tmp (<[tmp := enc e]> (<[tmp := []]> fs))),
             None)) as ->.
  { unfold Store_Set, ensureDir. fold fn. fold tmp. fold e.
    destruct (decide (Dir fn ∈ made)); simpl;
      by rewrite lookup_insert_eq. }
  simpl. split; [done|]. split.
  { destruct (decide (Dir fn ∈ made)); [done|].
    apply elem_of_union. left. by apply elem_of_singleton. }
  split; [apply lookup_insert_eq|]. split.
  { rewrite lookup_insert_ne by done. apply lookup_delete_eq. }
  split.
  { intros f Hf1 Hf2.
    rewrite lookup_insert_ne, lookup_delete_ne, !lookup_insert_ne; done. }
  unfold Get. fold fn. simpl. rewrite lookup_insert_eq, Hdec. simpl.
  assert (negb (expiry =? 0) && (expiry <? now') = false) as ->; [|done].
  destruct Hexp as [Hz|Hle]; [by rewrite Hz|].
  apply andb_false_iff. right. by apply Z.ltb_ge.
Qed.

(** X24: [Delete] on plain files returns nil, whether the file of the key is
    there or not, and leaves no file for the key; deleting again changes
    nothing, and a [Get] of the key is then a miss without error. *)
Theorem Delete_then_Get now key (fs : gmap string (list N)) :
  let out := Delete Location key fs in
  out = (delete (Location key) fs, None)
  ∧ Delete Location key out.1 = out
  ∧ Get zeroV Location decode now key out.1 = (out.1, miss zeroV None).
Proof.
  assert (∀ fs0 : gmap string (list N),
            Delete Location key fs0 = (delete (Location key) fs0, None))
    as Hdel.
  { intros fs0. unfold Delete. simpl.
    destruct (fs0 !! Location key) eqn:Hk; simpl; [done|].
    by rewrite delete_id. }
  simpl. rewrite !Hdel. simpl. split; [done|]. split.
  { by rewrite delete_delete_eq. }
  unfold Get. simpl. by rewrite lookup_delete_eq.
Qed.

End PlainStore.

(** X23 on the toy store: it reads back the record it writes
    for the key "k". *)
Lemma Set_then_Get_witness :
  let out := Store_Set (fsw := plainWrites toyEncode) toyLocation id ∅ 0
               "k" 7 0 badDisk in
  out.2 = None
  ∧ id (toyLocation "k") ∈ out.1.1
  ∧ out.1.2 !! toyLocation "k" = Some (toyEncode (MkEntry "k" 7 0 0))
  ∧ out.1.2 !! String.append (toyLocation "k") ".tmp" = None
  ∧ (∀ f, f ≠ toyLocation "k" → f ≠ String.append (toyLocation "k") ".tmp" →
       out.1.2 !! f = badDisk !! f)
  ∧ Get 0 toyLocation toyDecode 5 "k" out.1.2
    = (out.1.2, Result 7 0 true None).
Proof.
  apply (Set_then_Get 0 toyLocation id toyEncode toyDecode ∅ 0 5 "k" 7 0
           badDisk).
  - reflexivity.
  - left. reflexivity.
Defined.

(** X21 on a disk whose record for "k" is well-formed: the
    value 7, no expiry. *)
Lemma Get_found_witness :
  let fs : gmap string (list N) := {[ "/cache/k" := [7%N; 0%N] ]} in
  ∃ bytes e,
    fs_open fs (toyLocation "k") = inr bytes ∧ toyDecode bytes = Some e
    ∧ fs_close fs (toyLocation "k") = None
    ∧ (Expiry e = 0 ∨ 5 <= Expiry e)
    ∧ Get 0 toyLocation toyDecode 5 "k" fs
      = (fs, Result (Value e) (Expiry e) true None).
Proof.
  intros fs. apply (Get_found 0 toyLocation toyDecode 5 "k" fs).
  vm_compute. reflexivity.
Defined.

(** X20 on the key "a/b": its first rune that is not allowed is the
    slash. *)
Lemma ValidateKey_verdict_witness :
  ValidateKey "a/b" = Some (InvalidCharacter 47).
Proof.
  destruct (ValidateKey_verdict "a/b") as (_ & _ & Hch).
  apply Hch. split; [simpl; lia|].
  exists [97%N], 47%N, [98%N]. split; [reflexivity|]. split.
  - constructor; [|constructor]. unfold allowedByte. lia.
  - split; [reflexivity|]. unfold allowedByte. lia.
Defined.

(** X22 on a full disk: the encoder fails on the temporary file of
    "k", which is then removed, and [Set] returns the wrapped cause. *)
Lemma Set_outcome_witness :
  Store_Set (fsw := fullDisk) toyLocation id ∅ 0 "k" 7 0 badDisk
  = ({[toyLocation "k"]}, badDisk,
     Some (Joined [Wrap "encode entry" (OsError ErrIO)])).
Proof.
  destruct (@Set_outcome string Z (gmap string (list N)) plainFiles fullDisk
              toyLocation id ∅ 0 "k" 7 0 badDisk)
    as (_ & _ & _ & Henc & _).
  rewrite (Henc ({[toyLocation "k"]} ∪ ∅)
             badDisk (<[String.append (toyLocation "k") ".tmp" := []]> badDisk)
             (<[String.append (toyLocation "k") ".tmp" := []]> badDisk)
             (OsError ErrIO)).
  - vm_compute. reflexivity.
  - right. split; [|done]. vm_compute. intros Hin. discriminate Hin.
  - reflexivity.
  - reflexivity.
Defined.

End LocalFSWriteFacts.
